(** * sequelize-virtual-fields: requirement merging, schema closure and
      request expansion

    A shallow embedding of [Sequelize#initVirtualFields] (the schema-time
    pass: parse, inheritInclude, inheritOrder, mergeClauses) and of the
    [beforeFind] hook (replaceVirtualFields, replaceVirtualOrders).

    JavaScript objects are mutated in place by the source; here every
    function returns the object as it is after the call, and a thrown
    exception is a [Throw].  A function that rewrites its argument step
    by step and can throw half way has a companion, named after it with
    [Left], that gives the argument as such a call leaves it: rewritten
    up to the throw.  Loops whose index moves with the list they rewrite
    keep their index and take fuel.

    Three shapes of data are kept apart: a virtual field as declared
    ([dfield]: strings, models and objects not yet checked), a virtual
    field after parseField ([vfield], [include]), and the options of a
    find ([roptions], [rinclude]), whose includes may still be bare
    models.  Order entries are arrays of strings, models and objects
    throughout ([order]). *)

From Stdlib Require Import List String Ascii Bool Arith Lia Relations.
Import ListNotations.
Local Open Scope string_scope.
Local Open Scope list_scope.

Set Implicit Arguments.
Set Warnings "-register-all".

(** ** Errors and results *)

(** The messages of [SequelizeVirtualFieldsError], by kind.  [TypeError]
    stands for the JavaScript engine's own exception on a property access
    through [undefined]. *)
Inductive error : Type :=
| AttributeNotString (model field : string)
| NonexistentField (model field parent attribute : string)
| InvalidClause (clauseType model field : string)
| UnknownModel (clauseType model field target : string)
| InvalidAs (clauseType model field : string)
| InvalidAssociation (clauseType model field parent target : string)
| InvalidOrder (model field : string)
| OrderNonexistentField (model field parent attribute : string)
| CircularDependency (model field : string)
| CircularOrderDependency (model field : string)
| MissingOrderClause (model field fromModel fromField : string)
| FieldDoesNotExist (model field : string)
| InvalidOrderClause
| TypeError
| ReferenceError.

Inductive result (A : Type) : Type :=
| Return (a : A)
| Throw (e : error)
| OutOfFuel.

Arguments Return {A} a.
Arguments Throw {A} e.
Arguments OutOfFuel {A}.

Definition bind {A B} (r : result A) (k : A -> result B) : result B :=
  match r with
  | Return a => k a
  | Throw e => Throw e
  | OutOfFuel => OutOfFuel
  end.

Notation "x <- r ;; k" := (bind r (fun x => k))
  (at level 61, r at next level, right associativity).

(** ** Lookup in a JavaScript object used as a map

    Property order is insertion order, so an object is an association
    list; a lookup finds the first binding of the key. *)

Fixpoint lookup {A} (k : string) (o : list (string * A)) : option A :=
  match o with
  | [] => None
  | (k', v) :: o' => if String.eqb k' k then Some v else lookup k o'
  end.

Fixpoint update {A} (k : string) (v : A) (o : list (string * A))
  : list (string * A) :=
  match o with
  | [] => []
  | (k', v') :: o' =>
      if String.eqb k' k then (k', v) :: o' else (k', v') :: update k v o'
  end.

(** ** The normalised data model *)

(** An include in [{model: Model, as: as}] form; the model is identified
    by its name, [as] is [undefined] or a string. *)
Inductive include : Type :=
| Include (model : string) (as_ : option string)
          (attributes : option (list string))
          (include_ : option (list include)).

Definition imodel (i : include) : string :=
  match i with Include m _ _ _ => m end.
Definition ias (i : include) : option string :=
  match i with Include _ a _ _ => a end.
Definition iattributes (i : include) : option (list string) :=
  match i with Include _ _ a _ => a end.
Definition iinclude (i : include) : option (list include) :=
  match i with Include _ _ _ l => l end.

(** What [mergeClauses] reads and writes of an item: its [attributes] and
    its [include].  A virtual field, an include and the options of a find
    are all items. *)
Record clause : Type := Clause {
  attributes : option (list string);
  includes : option (list include)
}.

Definition clauseOf (i : include) : clause :=
  Clause (iattributes i) (iinclude i).

Definition withClause (i : include) (c : clause) : include :=
  Include (imodel i) (ias i) (attributes c) (includes c).

(** ** lodash [_.union] on two arrays of strings

    Unique values in order of first occurrence. *)

Definition inb (x : string) (l : list string) : bool :=
  existsb (String.eqb x) l.

Fixpoint uniqInto (acc l : list string) : list string :=
  match l with
  | [] => acc
  | x :: l' => uniqInto (if inb x acc then acc else acc ++ [x]) l'
  end.

Definition union (a b : list string) : list string :=
  uniqInto (uniqInto [] a) b.

(** ** mergeClauses

    [item.include = fromItem.include] and [item.include.push(fromInclude)]
    make the consumer share the array, or the include, with the
    dependency; here the consumer holds a value of its own.  The two
    agree on what is stated below: the attribute lists, the order lists,
    and the includes of the consumer as one call leaves them. *)

Definition mergeAttributes (item fromItem : option (list string))
  : option (list string) :=
  match item with
  | None => None
  | Some a =>
      match fromItem with
      | None => None
      | Some b => Some (union a b)
      end
  end.

Definition option_eqb (a b : option string) : bool :=
  match a, b with
  | None, None => true
  | Some x, Some y => String.eqb x y
  | _, _ => false
  end.

(** The predicate of [_.find]: same model and same [as]. *)
Definition sameInclude (toInclude fromInclude : include) : bool :=
  String.eqb (imodel toInclude) (imodel fromInclude)
  && option_eqb (ias toInclude) (ias fromInclude).

(** One round of the [_.forEach] over [fromItem.include]: merge into the
    first matching entry of [item.include], or push. *)
Fixpoint mergeOrPush (merge : include -> include) (fromInclude : include)
  (toIncludes : list include) : list include :=
  match toIncludes with
  | [] => [fromInclude]
  | t :: rest =>
      if sameInclude t fromInclude then merge t :: rest
      else t :: mergeOrPush merge fromInclude rest
  end.

(** [mergeClauses(toInclude, fromInclude)], by recursion on [fromInclude]. *)
Fixpoint mergeInclude (fromInclude toInclude : include) {struct fromInclude}
  : include :=
  match fromInclude with
  | Include _ _ fattrs fincs =>
      Include (imodel toInclude) (ias toInclude)
        (mergeAttributes (iattributes toInclude) fattrs)
        (match fincs with
         | None => iinclude toInclude
         | Some fl =>
             match iinclude toInclude with
             | None => Some fl
             | Some tl =>
                 Some ((fix each (fl : list include) (tl : list include)
                          : list include :=
                          match fl with
                          | [] => tl
                          | f :: fl' =>
                              each fl' (mergeOrPush (mergeInclude f) f tl)
                          end) fl tl)
             end
         end)
  end.

Fixpoint eachInclude (fl tl : list include) : list include :=
  match fl with
  | [] => tl
  | f :: fl' => eachInclude fl' (mergeOrPush (mergeInclude f) f tl)
  end.

Definition mergeIncludes (item fromItem : option (list include))
  : option (list include) :=
  match fromItem with
  | None => item
  | Some fl =>
      match item with
      | None => Some fl
      | Some tl => Some (eachInclude fl tl)
      end
  end.

Definition mergeClauses (item fromItem : clause) : clause :=
  Clause (mergeAttributes (attributes item) (attributes fromItem))
         (mergeIncludes (includes item) (includes fromItem)).

(** ** Order clauses

    An element of an order array is a string (a field name, a direction or
    a model name), a [Sequelize.Model], or a plain object: [{model, as}] or
    an object without [model] such as [{raw: ...}]. *)

Inductive mval : Type :=
| MAbsent | MString (s : string) | MModel (m : string) | MInvalid.

Inductive asval : Type :=
| AsUndefined | AsString (s : string) | AsInvalid.

Inductive oitem : Type :=
| OStr (s : string)
| OModel (m : string)
| OObj (model : mval) (as_ : asval).

(** An entry of [order]: a single item (a string is a raw query) or an
    array of items. *)
Inductive order : Type :=
| OItem (x : oitem)
| OArr (l : list oitem).

(** ** Fields, models and the registry [sequelize.models] *)

(** A virtual field after [parseField]. *)
Record vfield : Type := VField {
  fattributes : option (list string);
  finclude : option (list include);
  forder : option (list order)
}.

Definition fieldClause (f : vfield) : clause :=
  Clause (fattributes f) (finclude f).

Definition withFieldClause (f : vfield) (c : clause) : vfield :=
  VField (attributes c) (includes c) (forder f).

(** [field.type == Sequelize.VIRTUAL] or not; [V] is what a virtual field
    carries. *)
Inductive field (V : Type) : Type :=
| Base
| Virtual (v : V).

Arguments Base {V}.
Arguments Virtual {V} v.

(** An association of a model: its target and its alias if it has one. *)
Definition association : Type := (string * option string)%type.

Record model (V : Type) : Type := Model {
  name : string;
  fields : list (string * field V);
  associations : list association
}.

Definition models (V : Type) : Type := list (string * model V).

Definition isVirtual {V} (m : model V) (fieldName : string) : bool :=
  match lookup fieldName (fields m) with
  | Some (Virtual _) => true
  | _ => false
  end.

(** [model.attributes] and [sequelize.models] are plain objects: a name
    that they do not hold themselves is read from [Object.prototype],
    which holds a function, or for [__proto__] an object, under each of
    the names below.  None of these values has a [type], and none is a
    [Sequelize.Model]. *)
Definition objectPrototype : list string :=
  ["constructor"; "__defineGetter__"; "__defineSetter__"; "hasOwnProperty";
   "__lookupGetter__"; "__lookupSetter__"; "isPrototypeOf";
   "propertyIsEnumerable"; "toString"; "valueOf"; "__proto__";
   "toLocaleString"].

Definition inherited (k : string) : bool := inb k objectPrototype.

Arguments inherited k : simpl never.

(** [model.attributes[fieldName]]: the field of that name; for a name
    that the model does not declare and [Object.prototype] holds, a value
    whose [type] is not VIRTUAL, which [Base] stands for; [undefined]
    otherwise. *)
Definition fieldAt {V} (m : model V) (fieldName : string)
  : option (field V) :=
  match lookup fieldName (fields m) with
  | Some f => Some f
  | None => if inherited fieldName then Some Base else None
  end.

Definition setField {V} (ms : models V) (modelName fieldName : string)
  (f : field V) : models V :=
  match lookup modelName ms with
  | None => ms
  | Some m =>
      update modelName
        (Model (name m) (update fieldName f (fields m)) (associations m)) ms
  end.

(** ** Dependencies between virtual fields *)

Definition node : Type := (string * string)%type.
Definition edge : Type := (node * node)%type.

Definition node_eqb (a b : node) : bool :=
  String.eqb (fst a) (fst b) && String.eqb (snd a) (snd b).

Definition memb (n : node) (l : list node) : bool := existsb (node_eqb n) l.

Fixpoint mapM {A B} (f : A -> result B) (l : list A) : result (list B) :=
  match l with
  | [] => Return []
  | a :: l' => b <- f a ;; bs <- mapM f l' ;; Return (b :: bs)
  end.

(** The first loop of [findVirtual(field, thisModel)] in inheritInclude:
    one edge for every attribute that names a virtual field of
    [thisModel]. *)
Definition findVirtualAttributes (from : node) (thisModel : model vfield)
  (attrs : option (list string)) : result (list edge) :=
  own <- mapM (fun thisFieldName =>
                 match fieldAt thisModel thisFieldName with
                 | None => Throw TypeError
                 | Some (Virtual _) =>
                     Return [(from, (name thisModel, thisFieldName))]
                 | Some Base => Return []
                 end)
              (match attrs with Some l => l | None => [] end) ;;
  Return (List.concat own).

(** [findVirtual(include, include.model)].  A [Model] reference is
    followed through the registry by its name. *)
Fixpoint findVirtualInclude (ms : models vfield) (from : node)
  (inc : include) {struct inc} : result (list edge) :=
  match inc with
  | Include m _ attrs incs =>
      match lookup m ms with
      | None => Throw TypeError
      | Some includeModel =>
          match findVirtualAttributes from includeModel attrs with
          | Return own =>
              match incs with
              | None => Return own
              | Some l =>
                  (fix each (acc : list edge) (l : list include)
                     : result (list edge) :=
                     match l with
                     | [] => Return acc
                     | i :: l' =>
                         match findVirtualInclude ms from i with
                         | Return es => each (acc ++ es) l'
                         | Throw e => Throw e
                         | OutOfFuel => OutOfFuel
                         end
                     end) own l
              end
          | Throw e => Throw e
          | OutOfFuel => OutOfFuel
          end
      end
  end.

(** [findVirtual(field, model)] on a virtual field. *)
Definition findVirtual (ms : models vfield) (from : node)
  (c : clause) (thisModel : model vfield) : result (list edge) :=
  own <- findVirtualAttributes from thisModel (attributes c) ;;
  nested <- mapM (findVirtualInclude ms from)
                 (match includes c with Some l => l | None => [] end) ;;
  Return (own ++ List.concat nested).

(** The virtual fields of the registry, in [_.forIn] / [_.forEach] order. *)
Definition virtualFields {V} (ms : models V)
  : list (string * string * model V * V) :=
  flat_map (fun '(modelName, m) =>
              flat_map (fun '(fieldName, f) =>
                          match f with
                          | Virtual v => [(modelName, fieldName, m, v)]
                          | Base => []
                          end) (fields m)) ms.

Definition includeDependencies (ms : models vfield) : result (list edge) :=
  ess <- mapM (fun '(modelName, fieldName, m, v) =>
                 findVirtual ms (modelName, fieldName) (fieldClause v) m)
              (virtualFields ms) ;;
  Return (List.concat ess).

(** ** toposort-extended *)

Fixpoint firstSome {A B} (f : A -> option B) (l : list A) : option B :=
  match l with
  | [] => None
  | a :: l' => match f a with Some b => Some b | None => firstSome f l' end
  end.

(** Depth-first walk along the edges with the stack of predecessors: a
    node met again on its own stack closes a cycle. *)
Fixpoint visit (edges : list edge) (fuel : nat) (predecessors : list node)
  (n : node) : option node :=
  if memb n predecessors then Some n
  else
    match fuel with
    | 0 => None
    | S fuel' =>
        firstSome (fun e =>
                     if node_eqb (fst e) n
                     then visit edges fuel' (n :: predecessors) (snd e)
                     else None) edges
    end.

Definition findCycle (edges : list edge) : option node :=
  firstSome (fun e => visit edges (S (List.length edges)) [] (fst e)) edges.

Fixpoint uniqNodes (acc l : list node) : list node :=
  match l with
  | [] => acc
  | x :: l' => uniqNodes (if memb x acc then acc else acc ++ [x]) l'
  end.

(** A dependent is ready once none of its dependencies is still waiting. *)
Definition ready (edges : list edge) (waiting : list node) (n : node) : bool :=
  forallb (fun e => negb (node_eqb (fst e) n) || negb (memb (snd e) waiting))
          edges.

Fixpoint removeNode (n : node) (l : list node) : list node :=
  match l with
  | [] => []
  | x :: l' => if node_eqb x n then l' else x :: removeNode n l'
  end.

Fixpoint sortDependents (edges : list edge) (fuel : nat)
  (waiting : list node) : list node :=
  match fuel with
  | 0 => []
  | S fuel' =>
      match find (ready edges waiting) waiting with
      | None => []
      | Some n => n :: sortDependents edges fuel' (removeNode n waiting)
      end
  end.

(** Modelled from the spec: the toposort-extended package is not part of
    the sources.  Following section 4.2, [toposort.dependents(edges)]
    either reports the node at which a cycle closes, or lists the nodes
    that depend on another one, every dependent before its dependencies
    (the callers reverse the list). *)
Definition toposortDependents (edges : list edge) : node + list node :=
  match findCycle edges with
  | Some n => inl n
  | None =>
      let dependents := uniqNodes [] (map fst edges) in
      inr (rev (sortDependents edges (List.length dependents) dependents))
  end.

(** ** Phases that mutate the registry

    [Failed e s] is an exception thrown with the registry left as [s]:
    every rewrite made before the throw is in it. *)
Inductive outcome (S : Type) : Type :=
| Done (s : S)
| Failed (e : error) (s : S)
| Diverged.

Arguments Done {S} s.
Arguments Failed {S} e s.
Arguments Diverged {S}.

(** A loop over an array whose body rewrites the element in place and
    can throw: the array as the loop leaves it.  [f] is the outcome of
    the body on an element, [kept] the element after a body that
    returned, [left] the element after a body that threw; the elements
    behind that one are not reached. *)
Section LeftBy.

Variables A B : Type.
Variable f : A -> result B.
Variable kept : A -> B -> A.
Variable left : A -> A.

Fixpoint leftBy (l : list A) : list A :=
  match l with
  | [] => []
  | a :: l' =>
      match f a with
      | Return b => kept a b :: leftBy l'
      | _ => left a :: l'
      end
  end.

End LeftBy.

(** [array.splice(i, 1)] *)
Fixpoint removeAt {A} (i : nat) (l : list A) : list A :=
  match l with
  | [] => []
  | x :: l' => match i with 0 => l' | S i' => x :: removeAt i' l' end
  end.

(** ** inheritInclude *)

(** The [for] loop of [mergeVirtual(field, model)]: [i] is the loop index
    and [c] the field in its current state.  The referenced field is read
    from the registry; a field is never its own dependency once the cycle
    check has passed. *)
Fixpoint mergeVirtualAttributes (fuel : nat) (m : model vfield) (i : nat)
  (c : clause) : result clause :=
  match fuel with
  | 0 => OutOfFuel
  | S fuel' =>
      match attributes c with
      | None => Throw TypeError
      | Some attrs =>
          match nth_error attrs i with
          | None => Return c
          | Some a =>
              match fieldAt m a with
              | None => Throw TypeError
              | Some Base => mergeVirtualAttributes fuel' m (S i) c
              | Some (Virtual referencedField) =>
                  mergeVirtualAttributes fuel' m i
                    (mergeClauses
                       (Clause (Some (removeAt i attrs)) (includes c))
                       (fieldClause referencedField))
              end
          end
      end
  end.

(** [mergeVirtual(field, model)]: the loop above, then the same for every
    include against the include's model. *)
Fixpoint mergeVirtual (fuel : nat) (ms : models vfield) (m : model vfield)
  (c : clause) : result clause :=
  match fuel with
  | 0 => OutOfFuel
  | S fuel' =>
      c1 <- mergeVirtualAttributes fuel m 0 c ;;
      match includes c1 with
      | None => Return c1
      | Some incs =>
          incs' <- mapM (fun inc =>
                           match lookup (imodel inc) ms with
                           | None => Throw TypeError
                           | Some includeModel =>
                               c' <- mergeVirtual fuel' ms includeModel
                                       (clauseOf inc) ;;
                               Return (withClause inc c')
                           end) incs ;;
          Return (Clause (attributes c1) (Some incs'))
      end
  end.

(** The field as the loop of [mergeVirtual] leaves it when it stops, at
    its end or at the access that throws. *)
Fixpoint mergeVirtualAttributesLeft (fuel : nat) (m : model vfield) (i : nat)
  (c : clause) : clause :=
  match fuel with
  | 0 => c
  | S fuel' =>
      match attributes c with
      | None => c
      | Some attrs =>
          match nth_error attrs i with
          | None => c
          | Some a =>
              match fieldAt m a with
              | None => c
              | Some Base => mergeVirtualAttributesLeft fuel' m (S i) c
              | Some (Virtual referencedField) =>
                  mergeVirtualAttributesLeft fuel' m i
                    (mergeClauses
                       (Clause (Some (removeAt i attrs)) (includes c))
                       (fieldClause referencedField))
              end
          end
      end
  end.

(** The field, or the include, as a call of [mergeVirtual] that throws
    leaves it: the attributes as the loop left them; or, the loop having
    ended, the includes before the one that throws as rewritten, that one
    as its own call left it, and those behind it as they were. *)
Fixpoint mergeVirtualLeft (fuel : nat) (ms : models vfield)
  (m : model vfield) (c : clause) : clause :=
  match fuel with
  | 0 => c
  | S fuel' =>
      match mergeVirtualAttributes fuel m 0 c with
      | Return c1 =>
          match includes c1 with
          | None => c1
          | Some incs =>
              Clause (attributes c1)
                (Some (leftBy
                         (fun inc =>
                            match lookup (imodel inc) ms with
                            | None => Throw TypeError
                            | Some includeModel =>
                                c' <- mergeVirtual fuel' ms includeModel
                                        (clauseOf inc) ;;
                                Return (withClause inc c')
                            end)
                         (fun _ inc' => inc')
                         (fun inc =>
                            match lookup (imodel inc) ms with
                            | None => inc
                            | Some includeModel =>
                                withClause inc
                                  (mergeVirtualLeft fuel' ms includeModel
                                     (clauseOf inc))
                            end)
                         incs))
          end
      | _ => mergeVirtualAttributesLeft fuel m 0 c
      end
  end.

(** One round of the [_.forEach(dependencies, ...)] of inheritInclude. *)
Definition mergeDependent (fuel : nat) (ms : models vfield)
  (dependent : node) : result (models vfield) :=
  match lookup (fst dependent) ms with
  | None => Throw TypeError
  | Some m =>
      match lookup (snd dependent) (fields m) with
      | Some (Virtual v) =>
          c <- mergeVirtual fuel ms m (fieldClause v) ;;
          Return (setField ms (fst dependent) (snd dependent)
                    (Virtual (withFieldClause v c)))
      | _ => Throw TypeError
      end
  end.

(** The registry as a round of that loop that throws leaves it. *)
Definition mergeDependentLeft (fuel : nat) (ms : models vfield)
  (dependent : node) : models vfield :=
  match lookup (fst dependent) ms with
  | None => ms
  | Some m =>
      match lookup (snd dependent) (fields m) with
      | Some (Virtual v) =>
          setField ms (fst dependent) (snd dependent)
            (Virtual (withFieldClause v
                        (mergeVirtualLeft fuel ms m (fieldClause v))))
      | _ => ms
      end
  end.

(** A [_.forEach] whose body rewrites the registry: [body] is the
    registry after a round that returns, [left] the registry after a
    round that throws. *)
Fixpoint forEachState {A S} (body : S -> A -> result S) (left : S -> A -> S)
  (l : list A) (s : S) : outcome S :=
  match l with
  | [] => Done s
  | a :: l' =>
      match body s a with
      | Return s' => forEachState body left l' s'
      | Throw e => Failed e (left s a)
      | OutOfFuel => Diverged
      end
  end.

Definition inheritInclude (fuel : nat) (ms : models vfield)
  : outcome (models vfield) :=
  match includeDependencies ms with
  | Throw e => Failed e ms
  | OutOfFuel => Diverged
  | Return dependencies =>
      match toposortDependents dependencies with
      | inl edge => Failed (CircularDependency (fst edge) (snd edge)) ms
      | inr dependents =>
          forEachState (mergeDependent fuel) (mergeDependentLeft fuel)
            (rev dependents) ms
      end
  end.

(** ** inheritOrder *)

(** [order.length]: of an array or of a string; [undefined] on an object. *)
Definition orderLength (o : order) : option nat :=
  match o with
  | OArr l => Some (List.length l)
  | OItem (OStr s) => Some (String.length s)
  | OItem _ => None
  end.

(** [order[i]]: an element of an array, a character of a string. *)
Definition orderAt (o : order) (i : nat) : option oitem :=
  match o with
  | OArr l => nth_error l i
  | OItem (OStr s) =>
      match String.get i s with
      | Some c => Some (OStr (String c EmptyString))
      | None => None
      end
  | OItem _ => None
  end.

(** [x.model] *)
Definition modelProperty (x : oitem) : mval :=
  match x with
  | OObj mv _ => mv
  | _ => MAbsent
  end.

(** An item as a string: a plain object prints as [[object Object]], a
    model of the host as [[object SequelizeModel:name]]. *)
Definition itemToString (x : oitem) : string :=
  match x with
  | OStr s => s
  | OModel m => ("[object SequelizeModel:" ++ m ++ "]")%string
  | OObj _ _ => "[object Object]"
  end.

(** The property key that [order[order.length - 2]] is used as. *)
Definition propertyKey (x : option oitem) : string :=
  match x with
  | None => "undefined"
  | Some i => itemToString i
  end.

(** The two expressions shared by both loops of inheritOrder:
    [(order.length > 2) ? order[order.length - 3].model : model] and
    [order[order.length - 2]], up to the access to [.attributes] of the
    former. *)
Definition orderTarget (ms : models vfield) (m : model vfield) (o : order)
  : result (model vfield * string) :=
  let n := orderLength o in
  let fieldName :=
    propertyKey (match n with
                 | Some n => if Nat.leb 2 n then orderAt o (n - 2) else None
                 | None => None
                 end) in
  match n with
  | Some (S (S (S k))) =>
      match orderAt o k with
      | Some x =>
          match modelProperty x with
          | MModel target =>
              match lookup target ms with
              | Some orderModel => Return (orderModel, fieldName)
              | None => Throw TypeError
              end
          | _ => Throw TypeError
          end
      | None => Throw TypeError
      end
  | _ => Return (m, fieldName)
  end.

(** [orderModel.attributes[orderFieldName]], whose [.type] is read next. *)
Definition orderField (ms : models vfield) (m : model vfield) (o : order)
  : result (model vfield * string * field vfield) :=
  t <- orderTarget ms m o ;;
  match fieldAt (fst t) (snd t) with
  | None => Throw TypeError
  | Some f => Return (fst t, snd t, f)
  end.

Definition orderDependencies (ms : models vfield) : result (list edge) :=
  ess <- mapM (fun '(modelName, fieldName, m, v) =>
                 match forder v with
                 | None => Return []
                 | Some orders =>
                     es <- mapM (fun o =>
                                   t <- orderField ms m o ;;
                                   match t with
                                   | (orderModel, orderFieldName, Virtual _) =>
                                       Return
                                         [((modelName, fieldName),
                                           (name orderModel,
                                            orderFieldName))]
                                   | _ => Return []
                                   end) orders ;;
                     Return (List.concat es)
                 end)
              (virtualFields ms) ;;
  Return (List.concat ess).

(** [array.splice(i, 0, x)] *)
Fixpoint insertAt {A} (i : nat) (x : A) (l : list A) : list A :=
  match i, l with
  | S i', y :: l' => y :: insertAt i' x l'
  | _, _ => x :: l
  end.

Fixpoint joinItems (l : list oitem) : string :=
  match l with
  | [] => ""
  | [x] => itemToString x
  | x :: l' => (itemToString x ++ "," ++ joinItems l')%string
  end.

(** [order.slice(0, -2).concat(fromOrder)].  On an array, [concat]
    appends the elements of an array and any other value as one element;
    on a string, [slice] and [concat] are those of strings. *)
Definition concatBase (o fromOrder : order) : result order :=
  match o with
  | OArr l =>
      let orderClauseBase := firstn (List.length l - 2) l in
      Return (OArr (orderClauseBase ++
                    match fromOrder with OArr fl => fl | OItem x => [x] end))
  | OItem (OStr s) =>
      Return (OItem (OStr (String.append
                             (substring 0 (String.length s - 2) s)
                             match fromOrder with
                             | OArr fl => joinItems fl
                             | OItem x => itemToString x
                             end)))
  | OItem _ => Throw TypeError
  end.

(** The [fromOrders.forEach] that splices the new clauses in at [i]. *)
Fixpoint spliceOrders (o : order) (fromOrders : list order) (i : nat)
  (orders : list order) : result (list order * nat) :=
  match fromOrders with
  | [] => Return (orders, i)
  | fromOrder :: rest =>
      c <- concatBase o fromOrder ;;
      spliceOrders o rest (S i) (insertAt i c orders)
  end.

(** The [for] loop over [orders] in inheritOrder, at index [i]. *)
Fixpoint replaceOrders (fuel : nat) (ms : models vfield) (m : model vfield)
  (fieldName : string) (i : nat) (orders : list order)
  : result (list order) :=
  match fuel with
  | 0 => OutOfFuel
  | S fuel' =>
      match nth_error orders i with
      | None => Return orders
      | Some o =>
          t <- orderField ms m o ;;
          match t with
          | (fromModel, fromFieldName, Virtual fromField) =>
              match forder fromField with
              | None | Some [] =>
                  Throw (MissingOrderClause (name m) fieldName
                           (name fromModel) fromFieldName)
              | Some fromOrders =>
                  r <- spliceOrders o fromOrders i (removeAt i orders) ;;
                  replaceOrders fuel' ms m fieldName (snd r) (fst r)
              end
          | _ => replaceOrders fuel' ms m fieldName (S i) orders
          end
      end
  end.

(** The array [orders] as that loop leaves it when it stops, at its end
    or at a throw: the clauses replaced so far are replaced; a clause
    whose [slice] throws has been spliced out by then. *)
Fixpoint replaceOrdersLeft (fuel : nat) (ms : models vfield)
  (m : model vfield) (i : nat) (orders : list order) : list order :=
  match fuel with
  | 0 => orders
  | S fuel' =>
      match nth_error orders i with
      | None => orders
      | Some o =>
          match orderField ms m o with
          | Return (_, _, Virtual fromField) =>
              match forder fromField with
              | None | Some [] => orders
              | Some fromOrders =>
                  match spliceOrders o fromOrders i (removeAt i orders) with
                  | Return r => replaceOrdersLeft fuel' ms m (snd r) (fst r)
                  | _ => removeAt i orders
                  end
              end
          | Return _ => replaceOrdersLeft fuel' ms m (S i) orders
          | _ => orders
          end
      end
  end.

(** One round of the [_.forEach(dependencies, ...)] of inheritOrder. *)
Definition orderDependent (ms : models vfield) (dependent : node)
  : result (models vfield) :=
  match lookup (fst dependent) ms with
  | None => Throw TypeError
  | Some m =>
      match lookup (snd dependent) (fields m) with
      | Some (Virtual v) =>
          match forder v with
          | None => Throw TypeError
          | Some orders =>
              orders' <- replaceOrders (S (List.length orders)) ms m
                           (snd dependent) 0 orders ;;
              Return (setField ms (fst dependent) (snd dependent)
                        (Virtual (VField (fattributes v) (finclude v)
                                         (Some orders'))))
          end
      | _ => Throw TypeError
      end
  end.

(** The registry as a round of that loop that throws leaves it. *)
Definition orderDependentLeft (ms : models vfield) (dependent : node)
  : models vfield :=
  match lookup (fst dependent) ms with
  | None => ms
  | Some m =>
      match lookup (snd dependent) (fields m) with
      | Some (Virtual v) =>
          match forder v with
          | None => ms
          | Some orders =>
              setField ms (fst dependent) (snd dependent)
                (Virtual (VField (fattributes v) (finclude v)
                            (Some (replaceOrdersLeft (S (List.length orders))
                                     ms m 0 orders))))
          end
      | _ => ms
      end
  end.

Definition inheritOrder (ms : models vfield) : outcome (models vfield) :=
  match orderDependencies ms with
  | Throw e => Failed e ms
  | OutOfFuel => Diverged
  | Return dependencies =>
      match toposortDependents dependencies with
      | inl edge => Failed (CircularOrderDependency (fst edge) (snd edge)) ms
      | inr dependents =>
          forEachState orderDependent orderDependentLeft (rev dependents) ms
      end
  end.

(** ** Virtual fields as declared, before parseField *)

(** An entry of [attributes]: a string, or any other value, truthy or
    falsy. *)
Inductive dattr : Type :=
| DString (s : string)
| DOther (truthy : bool).

(** [field.attributes]: missing, a single value, or an array. *)
Inductive dattributes : Type :=
| DNoAttributes
| DAttribute (a : dattr)
| DAttributes (l : list dattr).

(** An entry of [include]: a model name, a [Sequelize.Model], or an
    object; [field.include] is missing, a single entry, or an array. *)
Inductive dinclude : Type :=
| DIString (s : string)
| DIModel (m : string)
| DIObject (model : mval) (as_ : asval) (attributes : dattributes)
           (include_ : option (dinclude + list dinclude)).

(** [field.order]: missing, an array, or a single entry. *)
Inductive dorder : Type :=
| DNoOrder
| DOrders (l : list order)
| DOrder (o : order).

Record dfield : Type := DField {
  dattrs : dattributes;
  dincludes : option (dinclude + list dinclude);
  dorders : dorder
}.

(** Modelled from the spec: [parent.getAssociation(model, as)] belongs to
    the host; section 6 has it as [lookupAssociation(entity, target,
    alias?)], found or not found.  An association matches on its target
    and on its alias, no alias matching [undefined]. *)
Definition getAssociation {V} (parent : model V) (target : string)
  (alias : option string) : bool :=
  existsb (fun a => String.eqb (fst a) target && option_eqb (snd a) alias)
          (associations parent).

(** [item.model.name] of what [sequelize.models[k]] finds on
    [Object.prototype]: the function [Object] under [constructor], an
    object without a name under [__proto__], a function of that name
    otherwise. *)
Definition inheritedName (k : string) : string :=
  if String.eqb k "constructor" then "Object"
  else if String.eqb k "__proto__" then "undefined"
  else k.

(** [parseClause(array, index, clauseType, modelName, fieldName, parent)].
    [item] and [alias] are the [model] and [as] of the item; [bare] says
    that the item was a string or a [Model], which the function wraps as
    [{model: item}].  The result is the model of the item and its [as].
    A string that names no model but a property of [Object.prototype]
    passes the test of line 130 with a value that is no model: [as] is
    checked next, and the parent has no association to such a value. *)
Definition parseClause {V} (ms : models V) (bare : bool) (item : mval)
  (alias : asval) (clauseType modelName fieldName : string)
  (parent : model V) : result (string * model V * option string) :=
  target <-
    match item with
    | MAbsent | MInvalid =>
        Throw (InvalidClause clauseType modelName fieldName)
    | MString s =>
        if negb bare && String.eqb s ""
        then Throw (InvalidClause clauseType modelName fieldName)
        else
          match lookup s ms with
          | None =>
              if inherited s
              then
                match alias with
                | AsInvalid =>
                    Throw (InvalidAs clauseType modelName fieldName)
                | _ =>
                    Throw (InvalidAssociation clauseType modelName fieldName
                             (name parent) (inheritedName s))
                end
              else Throw (UnknownModel clauseType modelName fieldName s)
          | Some m => Return (s, m)
          end
    | MModel s =>
        match lookup s ms with
        | None => Throw TypeError
        | Some m => Return (s, m)
        end
    end ;;
  alias' <-
    match alias with
    | AsUndefined => Return None
    | AsString s => Return (Some s)
    | AsInvalid => Throw (InvalidAs clauseType modelName fieldName)
    end ;;
  if getAssociation parent (fst target) alias'
  then Return (fst target, snd target, alias')
  else Throw (InvalidAssociation clauseType modelName fieldName
                (name parent) (name (snd target))).

(** The attributes part of [parseInclude]. *)
Definition parseAttributes {V} (modelName fieldName : string)
  (parent : model V) (a : dattributes) : result (list string) :=
  match a with
  | DNoAttributes | DAttribute (DString "") | DAttribute (DOther false) =>
      Return []
  | _ =>
      mapM (fun attribute =>
              match attribute with
              | DOther _ => Throw (AttributeNotString modelName fieldName)
              | DString s =>
                  match fieldAt parent s with
                  | None =>
                      Throw (NonexistentField modelName fieldName
                               (name parent) s)
                  | Some _ => Return s
                  end
              end)
           (match a with
            | DAttributes l => l
            | DAttribute x => [x]
            | DNoAttributes => []
            end)
  end.

(** [parseInclude(include, fieldName, modelName, include.model)] after
    [parseClause] on the entry. *)
Fixpoint parseIncludeEntry {V} (ms : models V) (fieldName modelName : string)
  (parent : model V) (entry : dinclude) {struct entry} : result include :=
  match entry with
  | DIString s =>
      match parseClause ms true (MString s) AsUndefined "Include"
                        modelName fieldName parent with
      | Return (m, _, a) => Return (Include m a (Some []) None)
      | Throw e => Throw e
      | OutOfFuel => OutOfFuel
      end
  | DIModel s =>
      match parseClause ms true (MModel s) AsUndefined "Include"
                        modelName fieldName parent with
      | Return (m, _, a) => Return (Include m a (Some []) None)
      | Throw e => Throw e
      | OutOfFuel => OutOfFuel
      end
  | DIObject mv alias attrs incs =>
      match parseClause ms false mv alias "Include"
                        modelName fieldName parent with
      | Return (m, includeModel, a) =>
          match parseAttributes modelName fieldName includeModel attrs with
          | Return attrs' =>
              match incs with
              | None | Some (inl (DIString EmptyString)) =>
                  Return (Include m a (Some attrs') None)
              | Some (inl single) =>
                  match parseIncludeEntry ms fieldName modelName
                                          includeModel single with
                  | Return i => Return (Include m a (Some attrs') (Some [i]))
                  | Throw e => Throw e
                  | OutOfFuel => OutOfFuel
                  end
              | Some (inr l) =>
                  match
                    (fix each (l : list dinclude) : result (list include) :=
                       match l with
                       | [] => Return []
                       | d :: l' =>
                           match parseIncludeEntry ms fieldName modelName
                                                   includeModel d with
                           | Return i =>
                               match each l' with
                               | Return is' => Return (i :: is')
                               | Throw e => Throw e
                               | OutOfFuel => OutOfFuel
                               end
                           | Throw e => Throw e
                           | OutOfFuel => OutOfFuel
                           end
                       end) l
                  with
                  | Return is' => Return (Include m a (Some attrs') (Some is'))
                  | Throw e => Throw e
                  | OutOfFuel => OutOfFuel
                  end
              end
          | Throw e => Throw e
          | OutOfFuel => OutOfFuel
          end
      | Throw e => Throw e
      | OutOfFuel => OutOfFuel
      end
  end.

(** [parseInclude(field, fieldName, model.name, model)] on a virtual
    field. *)
Definition parseInclude {V} (ms : models V) (fieldName modelName : string)
  (parent : model V) (f : dfield) : result clause :=
  attrs <- parseAttributes modelName fieldName parent (dattrs f) ;;
  match dincludes f with
  | None | Some (inl (DIString EmptyString)) =>
      Return (Clause (Some attrs) None)
  | Some entries =>
      incs <- mapM (parseIncludeEntry ms fieldName modelName parent)
                   (match entries with inl i => [i] | inr l => l end) ;;
      Return (Clause (Some attrs) (Some incs))
  end.

(** ** parseOrder *)

(** [String.prototype.toUpperCase] on the letters a to z. *)
Definition upperAscii (c : ascii) : ascii :=
  let n := nat_of_ascii c in
  if Nat.leb 97 n && Nat.leb n 122 then ascii_of_nat (n - 32) else c.

Fixpoint toUpperCase (s : string) : string :=
  match s with
  | EmptyString => EmptyString
  | String c s' => String (upperAscii c) (toUpperCase s')
  end.

Definition isDirection (s : string) : bool :=
  String.eqb s "ASC" || String.eqb s "DESC".

Definition asvalOf (a : option string) : asval :=
  match a with
  | None => AsUndefined
  | Some s => AsString s
  end.

(** The [for] loop of parseOrder over the models that precede the
    attribute: every one is put in [{model: model}] form by [parseClause]
    and becomes the parent of the next. *)
Fixpoint parseOrderPath {V} (ms : models V) (modelName fieldName : string)
  (parent : model V) (path : list oitem) : result (list oitem * model V) :=
  match path with
  | [] => Return ([], parent)
  | x :: rest =>
      r <- match x with
           | OStr s => parseClause ms true (MString s) AsUndefined "Order"
                                   modelName fieldName parent
           | OModel s => parseClause ms true (MModel s) AsUndefined "Order"
                                     modelName fieldName parent
           | OObj mv a => parseClause ms false mv a "Order"
                                      modelName fieldName parent
           end ;;
      rest' <- parseOrderPath ms modelName fieldName (snd (fst r)) rest ;;
      Return (OObj (MModel (fst (fst r))) (asvalOf (snd r)) :: fst rest',
              snd rest')
  end.

(** The sort order of an array of at least two elements: its last element
    in upper case when that is ASC or DESC, otherwise ['ASC'] is pushed. *)
Definition parseDirection (l : list oitem) : result (list oitem) :=
  match last l (OStr "") with
  | OStr d =>
      if isDirection (toUpperCase d)
      then Return (removelast l ++ [OStr (toUpperCase d)])
      else Return (l ++ [OStr "ASC"])
  | _ => Throw TypeError
  end.

(** The body of the [_.forEach(field.order, ...)] of parseOrder. *)
Definition parseOrderEntry {V} (ms : models V) (fieldName : string)
  (m : model V) (o : order) : result order :=
  match o with
  | OItem (OStr _) => Return o
  | _ =>
      l <- match o with
           | OItem x => parseDirection [x; OStr "ASC"]
           | OArr [] => Throw (InvalidOrder (name m) fieldName)
           | OArr [x] => Return [x; OStr "ASC"]
           | OArr l => parseDirection l
           end ;;
      let n := List.length l in
      p <- parseOrderPath ms (name m) fieldName m (firstn (n - 2) l) ;;
      match nth_error l (n - 2) with
      | Some (OStr attribute) =>
          match fieldAt (snd p) attribute with
          | None =>
              Throw (OrderNonexistentField (name m) fieldName
                       (name (snd p)) attribute)
          | Some _ => Return (OArr (fst p ++ skipn (n - 2) l))
          end
      | _ => Return (OArr (fst p ++ skipn (n - 2) l))
      end
  end.

(** [parseOrder(field, fieldName, model)].  A single entry is wrapped as
    [[order]], where [order] is not a variable in scope. *)
Definition parseOrder {V} (ms : models V) (fieldName : string) (m : model V)
  (o : dorder) : result (option (list order)) :=
  match o with
  | DNoOrder | DOrder (OItem (OStr "")) => Return None
  | DOrder _ => Throw ReferenceError
  | DOrders l =>
      l' <- mapM (parseOrderEntry ms fieldName m) l ;;
      Return (Some l')
  end.

(** [parseField(field, fieldName, model)] *)
Definition parseField {V} (ms : models V) (fieldName : string) (m : model V)
  (f : dfield) : result vfield :=
  c <- parseInclude ms fieldName (name m) m f ;;
  o <- parseOrder ms fieldName m (dorders f) ;;
  Return (VField (attributes c) (includes c) o).

(** ** The declared field as parseField leaves it

    parseField rewrites the field while it checks it.  What it has
    rewritten when it throws stays: a single value in an array, a model
    name replaced by the model, ['ASC'] behind an order entry. *)

(** [field.attributes] after lines 52 to 55: an array in every case. *)
Definition attributesLeft (a : dattributes) : dattributes :=
  match a with
  | DNoAttributes | DAttribute (DString "") | DAttribute (DOther false) =>
      DAttributes []
  | DAttribute x => DAttributes [x]
  | DAttributes _ => a
  end.

(** [item.model] after [parseClause], whether it returned or threw: a
    string that names a model has been replaced by the model (line 131),
    a string found on [Object.prototype] by the value found there. *)
Definition modelLeft {V} (ms : models V) (bare : bool) (item : mval) : mval :=
  match item with
  | MString s =>
      if negb bare && String.eqb s "" then item
      else
        match lookup s ms with
        | Some _ => MModel s
        | None => if inherited s then MInvalid else item
        end
  | _ => item
  end.

(** [field.include] after the loop of lines 65 to 73 over it, given what
    the body does to an entry: [f] is its outcome, [left] the entry
    after it. *)
Definition includesLeft (f : dinclude -> result include)
  (left : dinclude -> dinclude) (incs : option (dinclude + list dinclude))
  : option (dinclude + list dinclude) :=
  match incs with
  | None => None
  | Some (inl (DIString EmptyString)) => incs
  | Some (inl single) => Some (inr [left single])
  | Some (inr l) => Some (inr (leftBy f (fun d _ => left d) left l))
  end.

(** An entry of [include] after [parseClause] and [parseInclude] on it,
    whether they returned or threw. *)
Fixpoint includeEntryLeft {V} (ms : models V) (fieldName modelName : string)
  (parent : model V) (entry : dinclude) {struct entry} : dinclude :=
  match entry with
  | DIString s =>
      match parseClause ms true (MString s) AsUndefined "Include"
                        modelName fieldName parent with
      | Return _ =>
          DIObject (modelLeft ms true (MString s)) AsUndefined
                   (DAttributes []) None
      | _ =>
          DIObject (modelLeft ms true (MString s)) AsUndefined
                   DNoAttributes None
      end
  | DIModel s =>
      match parseClause ms true (MModel s) AsUndefined "Include"
                        modelName fieldName parent with
      | Return _ => DIObject (MModel s) AsUndefined (DAttributes []) None
      | _ => DIObject (MModel s) AsUndefined DNoAttributes None
      end
  | DIObject mv alias attrs incs =>
      match parseClause ms false mv alias "Include"
                        modelName fieldName parent with
      | Return (_, includeModel, _) =>
          match parseAttributes modelName fieldName includeModel attrs with
          | Return _ =>
              DIObject (modelLeft ms false mv) alias (attributesLeft attrs)
                (includesLeft
                   (parseIncludeEntry ms fieldName modelName includeModel)
                   (includeEntryLeft ms fieldName modelName includeModel)
                   incs)
          | _ =>
              DIObject (modelLeft ms false mv) alias (attributesLeft attrs)
                       incs
          end
      | _ => DIObject (modelLeft ms false mv) alias attrs incs
      end
  end.

(** [parseClause] on an element of an order array. *)
Definition parseOrderItem {V} (ms : models V) (modelName fieldName : string)
  (parent : model V) (x : oitem)
  : result (string * model V * option string) :=
  match x with
  | OStr s => parseClause ms true (MString s) AsUndefined "Order"
                          modelName fieldName parent
  | OModel s => parseClause ms true (MModel s) AsUndefined "Order"
                            modelName fieldName parent
  | OObj mv a => parseClause ms false mv a "Order"
                             modelName fieldName parent
  end.

(** That element after [parseClause], whether it returned or threw. *)
Definition orderItemLeft {V} (ms : models V) (x : oitem) : oitem :=
  match x with
  | OStr s => OObj (modelLeft ms true (MString s)) AsUndefined
  | OModel s => OObj (MModel s) AsUndefined
  | OObj mv a => OObj (modelLeft ms false mv) a
  end.

(** The models before the attribute after the [for] loop of parseOrder,
    at its end or at the element whose [parseClause] throws. *)
Fixpoint orderPathLeft {V} (ms : models V) (modelName fieldName : string)
  (parent : model V) (path : list oitem) : list oitem :=
  match path with
  | [] => []
  | x :: rest =>
      match parseOrderItem ms modelName fieldName parent x with
      | Return r =>
          orderItemLeft ms x
          :: orderPathLeft ms modelName fieldName (snd (fst r)) rest
      | _ => orderItemLeft ms x :: rest
      end
  end.

(** An entry of [order] after the body of the loop of parseOrder that
    throws on it: the entry is an array with its sort order by then,
    unless that is what fails. *)
Definition orderEntryLeft {V} (ms : models V) (fieldName : string)
  (m : model V) (o : order) : order :=
  match o with
  | OItem (OStr _) => o
  | OItem x => OArr [x; OStr "ASC"]
  | OArr [] => o
  | OArr l =>
      match match l with
            | [x] => Return [x; OStr "ASC"]
            | _ => parseDirection l
            end with
      | Return l' =>
          let n := List.length l' in
          OArr (orderPathLeft ms (name m) fieldName m (firstn (n - 2) l')
                ++ skipn (n - 2) l')
      | _ => o
      end
  end.

(** The field after a call of parseField that throws. *)
Definition parseFieldLeft {V} (ms : models V) (fieldName : string)
  (m : model V) (f : dfield) : dfield :=
  match parseAttributes (name m) fieldName m (dattrs f) with
  | Return _ =>
      let incs :=
        includesLeft (parseIncludeEntry ms fieldName (name m) m)
                     (includeEntryLeft ms fieldName (name m) m)
                     (dincludes f) in
      match parseInclude ms fieldName (name m) m f with
      | Return _ =>
          DField (attributesLeft (dattrs f)) incs
            (match dorders f with
             | DOrders l =>
                 DOrders (leftBy (parseOrderEntry ms fieldName m)
                                 (fun _ o' => o')
                                 (orderEntryLeft ms fieldName m) l)
             | o => o
             end)
      | _ => DField (attributesLeft (dattrs f)) incs (dorders f)
      end
  | _ => DField (attributesLeft (dattrs f)) (dincludes f) (dorders f)
  end.

(** ** initVirtualFields *)

(** While the fields are being parsed, a virtual field of the registry is
    either a declared field, as it was declared or as parseField left it
    when it threw, or already normalised. *)
Definition parsing : Type := (dfield + vfield)%type.

Definition asDeclared (f : field dfield) : field parsing :=
  match f with
  | Base => Base
  | Virtual d => Virtual (inl d)
  end.

Definition asParsed (f : field vfield) : field parsing :=
  match f with
  | Base => Base
  | Virtual v => Virtual (inr v)
  end.

Definition mapFields {V W} (g : field V -> field W) (m : model V) : model W :=
  Model (name m) (map (fun kf => (fst kf, g (snd kf))) (fields m))
        (associations m).

(** A loop over [l] that stops at the first exception: either every
    element was rewritten, or the exception comes with the elements as
    they are at that moment: rewritten before it, the one at which it is
    thrown as the body left it, and untouched after. *)
Fixpoint traverse {A B C} (f : A -> B + error * C) (untouched : A -> C)
  (rewritten : B -> C) (l : list A) : list B + error * list C :=
  match l with
  | [] => inl []
  | a :: l' =>
      match f a with
      | inr (e, c) => inr (e, c :: map untouched l')
      | inl b =>
          match traverse f untouched rewritten l' with
          | inl bs => inl (b :: bs)
          | inr (e, cs) => inr (e, rewritten b :: cs)
          end
      end
  end.

(** The body of [_.forEach(model.attributes, ...)]. *)
Definition parseFieldOf (ms : models dfield) (m : model dfield)
  (kf : string * field dfield)
  : (string * field vfield) + error * (string * field parsing) :=
  match snd kf with
  | Base => inl (fst kf, Base)
  | Virtual d =>
      match parseField ms (fst kf) m d with
      | Return v => inl (fst kf, Virtual v)
      | Throw e =>
          inr (e, (fst kf, Virtual (inl (parseFieldLeft ms (fst kf) m d))))
      | OutOfFuel =>
          inr (TypeError,
               (fst kf, Virtual (inl (parseFieldLeft ms (fst kf) m d))))
      end
  end.

(** The body of [_.forIn(models, ...)]. *)
Definition parseModel (ms : models dfield) (km : string * model dfield)
  : (string * model vfield) + error * (string * model parsing) :=
  let m := snd km in
  match traverse (parseFieldOf ms m)
                 (fun kf => (fst kf, asDeclared (snd kf)))
                 (fun kf => (fst kf, asParsed (snd kf))) (fields m) with
  | inl fs => inl (fst km, Model (name m) fs (associations m))
  | inr (e, fs) => inr (e, (fst km, Model (name m) fs (associations m)))
  end.

Definition parseModels (ms : models dfield)
  : models vfield + error * models parsing :=
  traverse (parseModel ms)
           (fun km => (fst km, mapFields asDeclared (snd km)))
           (fun km => (fst km, mapFields asParsed (snd km))) ms.

(** What a call of [sequelize.initVirtualFields()] ends in: it returns,
    with the registry closed, or it throws, from the parsing of the fields
    or from one of the two inherit passes, with the registry as it is
    then. *)
Inductive initialization : Type :=
| Initialized (ms : models vfield)
| ParseFailed (e : error) (ms : models parsing)
| InheritFailed (e : error) (ms : models vfield)
| InitDiverged.

Definition initVirtualFields (fuel : nat) (ms : models dfield)
  : initialization :=
  match parseModels ms with
  | inr (e, st) => ParseFailed e st
  | inl parsed =>
      match inheritInclude fuel parsed with
      | Failed e st => InheritFailed e st
      | Diverged => InitDiverged
      | Done included =>
          match inheritOrder included with
          | Failed e st => InheritFailed e st
          | Diverged => InitDiverged
          | Done ordered => Initialized ordered
          end
      end
  end.

(** ** The beforeFind hook *)

(** An entry of [options.include] of a find: a bare [Sequelize.Model], or
    an include object.  [virtual_] is its [_virtual.get], the names of the
    virtual fields whose requirements were added to it. *)
Inductive rinclude : Type :=
| RModel (m : string)
| RInclude (model : string) (as_ : option string)
           (attributes : option (list string))
           (include_ : option (list rinclude))
           (virtual_ : list string).

(** The options of a find, or of one of its includes, as
    replaceVirtualFields reads and writes them. *)
Record roptions : Type := ROptions {
  rattributes : option (list string);
  rincludes : option (list rinclude);
  rvirtual : list string
}.

(** Modelled from the spec: part of [shared.mergeClauses] below.
    Section 4.3 has the attributes merged by "set union, preserving
    first-seen order, no duplicates"; a list that the request does not
    give, "all fields" in section 4.5, stays absent, and a virtual field
    without a list adds no name. *)
Definition mergeRequestedAttributes (item fromItem : option (list string))
  : option (list string) :=
  match item with
  | None => None
  | Some a =>
      Some (union a (match fromItem with Some b => b | None => [] end))
  end.

(** Modelled from the spec: part of [shared.mergeClauses] below.  An
    include of a virtual field, as an include of a find. *)
Fixpoint asRequested (i : include) : rinclude :=
  match i with
  | Include m a attrs incs =>
      RInclude m a attrs
        (match incs with
         | None => None
         | Some l => Some (map asRequested l)
         end) []
  end.

(** Modelled from the spec: part of [shared.mergeClauses] below.
    [toInclude.model == fromInclude.model && toInclude.as == fromInclude.as];
    a bare model has neither property. *)
Definition sameRequested (toInclude : rinclude) (fromInclude : include)
  : bool :=
  match toInclude with
  | RModel _ => false
  | RInclude m a _ _ _ =>
      String.eqb m (imodel fromInclude) && option_eqb a (ias fromInclude)
  end.

(** Modelled from the spec: part of [shared.mergeClauses] below; merge
    into the first matching entry, or push. *)
Fixpoint mergeOrPushRequested (merge : rinclude -> rinclude)
  (fromInclude : include) (toIncludes : list rinclude) : list rinclude :=
  match toIncludes with
  | [] => [asRequested fromInclude]
  | t :: rest =>
      if sameRequested t fromInclude then merge t :: rest
      else t :: mergeOrPushRequested merge fromInclude rest
  end.

(** Modelled from the spec: [shared.mergeClauses] is not part of the
    sources.  Section 4.5 has the query expander use the Requirement
    Merger of section 4.3: attributes are united, and an include of the
    virtual field is merged into the include of the find with the same
    model and [as], or appended. *)
Fixpoint mergeRequestedInclude (fromInclude : include) (toInclude : rinclude)
  {struct fromInclude} : rinclude :=
  match fromInclude, toInclude with
  | _, RModel m => RModel m
  | Include _ _ fattrs fincs, RInclude m a attrs incs v =>
      RInclude m a (mergeRequestedAttributes attrs fattrs)
        (match fincs with
         | None => incs
         | Some fl =>
             match incs with
             | None => Some (map asRequested fl)
             | Some tl =>
                 Some ((fix each (fl : list include) (tl : list rinclude)
                          : list rinclude :=
                          match fl with
                          | [] => tl
                          | f :: fl' =>
                              each fl'
                                (mergeOrPushRequested
                                   (mergeRequestedInclude f) f tl)
                          end) fl tl)
             end
         end) v
  end.

(** Modelled from the spec: the loop of [shared.mergeClauses] over the
    includes of the virtual field. *)
Fixpoint eachRequested (fl : list include) (tl : list rinclude)
  : list rinclude :=
  match fl with
  | [] => tl
  | f :: fl' =>
      eachRequested fl'
        (mergeOrPushRequested (mergeRequestedInclude f) f tl)
  end.

(** Modelled from the spec: [shared.mergeClauses(options, field, true)],
    as above, with the options of a find as its target. *)
Definition mergeRequested (options : roptions) (fromItem : clause)
  : roptions :=
  ROptions
    (mergeRequestedAttributes (rattributes options) (attributes fromItem))
    (match includes fromItem with
     | None => rincludes options
     | Some fl =>
         match rincludes options with
         | None => Some (map asRequested fl)
         | Some tl => Some (eachRequested fl tl)
         end
     end)
    (rvirtual options).

(** [addVirtualFieldOptions(options, field, fieldName)] *)
Definition addVirtualFieldOptions (options : roptions) (f : vfield)
  (fieldName : string) : roptions :=
  let merged := mergeRequested options (fieldClause f) in
  ROptions (rattributes merged) (rincludes merged)
           (rvirtual merged ++ [fieldName]).

(** The [for] loop of replaceVirtualFields over [options.attributes], at
    index [i].  Every object is taken to carry its [_virtual.get]. *)
Fixpoint replaceAttributes (fuel : nat) (m : model vfield) (i : nat)
  (options : roptions) : result roptions :=
  match fuel with
  | 0 => OutOfFuel
  | S fuel' =>
      match rattributes options with
      | None => Throw TypeError
      | Some attrs =>
          match nth_error attrs i with
          | None => Return options
          | Some fieldName =>
              match fieldAt m fieldName with
              | None => Throw (FieldDoesNotExist (name m) fieldName)
              | Some Base => replaceAttributes fuel' m (S i) options
              | Some (Virtual f) =>
                  let added := addVirtualFieldOptions options f fieldName in
                  match rattributes added with
                  | None => Throw TypeError
                  | Some attrs' =>
                      replaceAttributes fuel' m i
                        (ROptions (Some (removeAt i attrs'))
                                  (rincludes added) (rvirtual added))
                  end
              end
          end
      end
  end.

(** The [_.forIn] of replaceVirtualFields when no attributes are given. *)
Definition addAllVirtualFields (m : model vfield) (options : roptions)
  : roptions :=
  fold_left (fun o kf =>
               match snd kf with
               | Virtual f => addVirtualFieldOptions o f (fst kf)
               | Base => o
               end) (fields m) options.

(** [replaceVirtualFields(options, model)].  The [{model: include}] made
    for a bare model is given an empty [_virtual.get] as well: the code
    that sets [_virtual] is not part of the sources. *)
Fixpoint replaceVirtualFields (fuel : nat) (ms : models vfield)
  (m : model vfield) (options : roptions) : result roptions :=
  match fuel with
  | 0 => OutOfFuel
  | S fuel' =>
      o1 <- match rattributes options with
            | Some _ => replaceAttributes fuel m 0 options
            | None => Return (addAllVirtualFields m options)
            end ;;
      match rincludes o1 with
      | None => Return o1
      | Some incs =>
          incs' <-
            mapM (fun inc =>
                    match inc with
                    | RModel target =>
                        match lookup target ms with
                        | None => Throw TypeError
                        | Some im =>
                            o <- replaceVirtualFields fuel' ms im
                                   (ROptions None None []) ;;
                            Return (RInclude target None (rattributes o)
                                             (rincludes o) (rvirtual o))
                        end
                    | RInclude target a attrs sub v =>
                        match lookup target ms with
                        | None => Throw TypeError
                        | Some im =>
                            o <- replaceVirtualFields fuel' ms im
                                   (ROptions attrs sub v) ;;
                            Return (RInclude target a (rattributes o)
                                             (rincludes o) (rvirtual o))
                        end
                    end) incs ;;
          Return (ROptions (rattributes o1) (Some incs') (rvirtual o1))
      end
  end.

(** [if (order[i] instanceof Sequelize.Model) order[i] = {model: order[i]}] *)
Definition modelForm (x : oitem) : oitem :=
  match x with
  | OModel m => OObj (MModel m) AsUndefined
  | _ => x
  end.

(** The body of the [_.forEach(orders, ...)] of replaceVirtualOrders. *)
Definition replaceOrderEntry (o : order) : result order :=
  match o with
  | OItem (OStr _) => Return o
  | OItem x => Return (OArr [x; OStr "ASC"])
  | OArr [] => Throw InvalidOrderClause
  | OArr l =>
      let n := List.length l in
      l' <- match nth_error l (n - 2) with
            | Some (OStr _) =>
                if Nat.eqb n 1 then Return (l ++ [OStr "ASC"])
                else
                  match last l (OStr "") with
                  | OStr d => Return (removelast l ++ [OStr (toUpperCase d)])
                  | _ => Throw TypeError
                  end
            | _ => Return (l ++ [OStr "ASC"])
            end ;;
      let n' := List.length l' in
      Return (OArr (map modelForm (firstn (n' - 2) l') ++ skipn (n' - 2) l'))
  end.

Section Hook.

(** [shared.mergeOrders(orders, model)] is not part of the sources. *)
Variable mergeOrders : list order -> model vfield -> result (list order).

(** [replaceVirtualOrders(options, model)], on [options.order]. *)
Definition replaceVirtualOrders (m : model vfield) (o : dorder)
  : result dorder :=
  match o with
  | DNoOrder | DOrder (OItem (OStr "")) => Return o
  | _ =>
      orders <- mapM replaceOrderEntry
                     (match o with
                      | DOrders l => l
                      | DOrder x => [x]
                      | DNoOrder => []
                      end) ;;
      merged <- mergeOrders orders m ;;
      Return (DOrders merged)
  end.

(** The hook on [options] for the model [m]: nothing when the plugin
    is not active. *)
Definition beforeFind (active : bool) (fuel : nat) (ms : models vfield)
  (m : model vfield) (options : roptions) (o : dorder)
  : result (roptions * dorder) :=
  if active then
    options' <- replaceVirtualFields fuel ms m options ;;
    o' <- replaceVirtualOrders m o ;;
    Return (options', o')
  else Return (options, o).

End Hook.

(** ** Definitions that follow the wording of the specification *)

(** "Set union, preserving first-seen order, no duplicates": the first
    occurrence of every name of a list. *)
Fixpoint firstOccurrences (l : list string) : list string :=
  match l with
  | [] => []
  | x :: l' =>
      x :: filter (fun y => negb (String.eqb x y)) (firstOccurrences l')
  end.

(** "The consumer's attributes in their original order, followed by the
    dependency's attributes not already present." *)
Definition orderedUnion (consumer dependency : list string) : list string :=
  firstOccurrences consumer
  ++ filter (fun x => negb (inb x consumer)) (firstOccurrences dependency).

(** What the loop of mergeVirtual relies on for a name of the list: it is
    a field of the model, and when that field is virtual its own
    attributes are present and are all base fields: it has been closed
    before. *)
Definition closedReference (m : model vfield) (k : string) : Prop :=
  match lookup k (fields m) with
  | Some Base => True
  | Some (Virtual v) =>
      exists l, fattributes v = Some l
                /\ forall x, In x l -> lookup x (fields m) = Some Base
  | None => False
  end.

Definition isBase (m : model vfield) (k : string) : Prop :=
  lookup k (fields m) = Some Base.

Definition virtualCount (m : model vfield) (l : list string) : nat :=
  List.length (filter (isVirtual m) l).

(** A diamond: [A] and [B] both read the virtual field [C]. *)
Definition diamond : model vfield :=
  Model "Task"
    [("c1", Base); ("c2", Base);
     ("C", Virtual (VField (Some ["c1"; "c2"]) None None));
     ("A", Virtual (VField (Some ["c1"; "C"]) None None));
     ("B", Virtual (VField (Some ["C"; "c2"]) None None))]
    [].

(** ** Reading the registry *)

Definition fieldOf {V} (ms : models V) (modelName fieldName : string)
  : option (field V) :=
  match lookup modelName ms with
  | Some m => lookup fieldName (fields m)
  | None => None
  end.

Definition orderOf (f : field vfield) : option (list order) :=
  match f with
  | Virtual v => forder v
  | Base => None
  end.

(** The virtual field [modelName.fieldName] once [initVirtualFields] has
    returned. *)
Definition initializedField (r : initialization)
  (modelName fieldName : string) : option vfield :=
  match r with
  | Initialized ms =>
      match fieldOf ms modelName fieldName with
      | Some (Virtual v) => Some v
      | _ => None
      end
  | _ => None
  end.

(** ** Schemas used as examples *)

(** [Task.A] reads the virtual field [Task.B]; each has an order of its
    own. *)
Definition orderedSchema : models dfield :=
  [("Task",
    Model "Task"
      [("name", Base); ("due", Base);
       ("B", Virtual (DField (DAttributes [DString "name"]) None
                        (DOrders [OArr [OStr "name"; OStr "DESC"]])));
       ("A", Virtual (DField (DAttributes [DString "B"]) None
                        (DOrders [OArr [OStr "due"]])))]
      [])].

(** Every field of the registry has the order entries it had. *)
Definition sameOrders (ms ms' : models vfield) : Prop :=
  forall mk fk,
    option_map orderOf (fieldOf ms' mk fk)
    = option_map orderOf (fieldOf ms mk fk).

(** "Each with the original clause's leading join path prepended to the
    substituted clause's path": the clause [fromOrder] behind the
    elements of [clause] that precede its field and direction. *)
Definition prependPath (clause : list oitem) (fromOrder : order) : order :=
  OArr (firstn (List.length clause - 2) clause
        ++ match fromOrder with OArr fl => fl | OItem x => [x] end).

(** "Remove the original clause and insert, at the same position, one
    clause per entry in the referenced field's own order list": what
    takes the place of one structured clause.  A clause on a base field
    stays. *)
Definition expandOrder (ms : models vfield) (m : model vfield) (o : order)
  : option (list order) :=
  match o with
  | OArr clause =>
      match orderField ms m o with
      | Return (_, _, Base) => Some [o]
      | Return (_, _, Virtual f) =>
          match forder f with
          | Some (fromOrder :: fromOrders) =>
              Some (map (prependPath clause) (fromOrder :: fromOrders))
          | _ => None
          end
      | _ => None
      end
  | OItem _ => None
  end.

(** [Task.Title] is ordered by the virtual field [Task.Label]. *)
Definition titleSchema : models dfield :=
  [("Task",
    Model "Task"
      [("name", Base);
       ("Label", Virtual (DField DNoAttributes None
                            (DOrders [OArr [OStr "name"; OStr "DESC"]])));
       ("Title", Virtual (DField DNoAttributes None
                            (DOrders [OArr [OStr "Label"]])))]
      [])].

(** The model [Task] of [titleSchema] once its fields are parsed. *)
Definition titleTask : model vfield :=
  Model "Task"
    [("name", Base);
     ("Label", Virtual (VField (Some []) None
                          (Some [OArr [OStr "name"; OStr "DESC"]])));
     ("Title", Virtual (VField (Some []) None
                          (Some [OArr [OStr "Label"; OStr "ASC"]])))]
    [].

(** [Person {name}], [Task {name, PersonId}] with [Task.belongsTo(Person)]
    and [Person.hasMany(Task)]; [Task.Label] reads [name] and the [name]
    of the person. *)
Definition labelSchema : models dfield :=
  [("Person", Model "Person" [("name", Base)] [("Task", None)]);
   ("Task",
    Model "Task"
      [("name", Base); ("PersonId", Base);
       ("Label",
        Virtual (DField (DAttributes [DString "name"])
                   (Some (inr [DIObject (MString "Person") AsUndefined
                                 (DAttributes [DString "name"]) None]))
                   DNoOrder))]
      [("Person", None)])].

(** The hook run for a find on the model [entityName] of a registry on
    which [initVirtualFields] has returned. *)
Definition expandRequest
  (mergeOrders : list order -> model vfield -> result (list order))
  (fuel : nat) (schema : initialization) (entityName : string)
  (options : roptions) (o : dorder) : result (roptions * dorder) :=
  match schema with
  | Initialized ms =>
      match lookup entityName ms with
      | Some m => beforeFind mergeOrders true fuel ms m options o
      | None => Throw TypeError
      end
  | _ => Throw TypeError
  end.

(** [Task.X] names [name] twice before the virtual fields [V] and [W]. *)
Definition duplicateSchema : models dfield :=
  [("Task",
    Model "Task"
      [("name", Base);
       ("V", Virtual (DField (DAttributes [DString "name"]) None DNoOrder));
       ("W", Virtual (DField (DAttributes [DString "name"]) None DNoOrder));
       ("X", Virtual (DField (DAttributes [DString "name"; DString "name";
                                           DString "V"; DString "W"])
                        None DNoOrder))]
      [])].



(** ** Cycles of the dependency graph *)

(** [a] references [b]: one of the edges. *)
Definition references (edges : list edge) (a b : node) : Prop :=
  In (a, b) edges.

(** The node [n] lies on a cycle: following references from [n], one or
    more, leads back to [n]. *)
Definition onCycle (edges : list edge) (n : node) : Prop :=
  clos_trans node (references edges) n n.

(** ** Which errors a computation can throw *)

Definition throwsOnly {A} (P : error -> Prop) (r : result A) : Prop :=
  match r with
  | Throw e => P e
  | _ => True
  end.

Definition failsOnly {S} (P : error -> Prop) (r : outcome S) : Prop :=
  match r with
  | Failed e _ => P e
  | _ => True
  end.

(** Neither of the two circular dependency errors. *)
Definition notCircular (e : error) : Prop :=
  match e with
  | CircularDependency _ _ | CircularOrderDependency _ _ => False
  | _ => True
  end.

(** [Task.A] reads [Task.B], and [Task.B] is ordered by [Task.A]. *)
Definition mixedSchema : models dfield :=
  [("Task",
    Model "Task"
      [("name", Base);
       ("A", Virtual (DField (DAttributes [DString "B"]) None
                        (DOrders [OArr [OStr "name"]])));
       ("B", Virtual (DField (DAttributes [DString "name"]) None
                        (DOrders [OArr [OStr "A"]])))]
      [])].

(** [mixedSchema] once its fields are parsed. *)
Definition mixedParsed : models vfield :=
  [("Task",
    Model "Task"
      [("name", Base);
       ("A", Virtual (VField (Some ["B"]) None
                        (Some [OArr [OStr "name"; OStr "ASC"]])));
       ("B", Virtual (VField (Some ["name"]) None
                        (Some [OArr [OStr "A"; OStr "ASC"]])))]
      [])].

(** [Task.F] reads itself. *)
Definition selfSchema : models dfield :=
  [("Task",
    Model "Task"
      [("F", Virtual (DField (DAttributes [DString "F"]) None DNoOrder))]
      [])].

Definition selfParsed : models vfield :=
  [("Task",
    Model "Task" [("F", Virtual (VField (Some ["F"]) None None))] [])].

(** [A] reads [B], [B] reads [C], [C] reads [A]. *)
Definition triangleSchema : models dfield :=
  [("Task",
    Model "Task"
      [("A", Virtual (DField (DAttributes [DString "B"]) None DNoOrder));
       ("B", Virtual (DField (DAttributes [DString "C"]) None DNoOrder));
       ("C", Virtual (DField (DAttributes [DString "A"]) None DNoOrder))]
      [])].

(** [Task.P] is ordered by [Task.Q] and [Task.Q] by [Task.P]. *)
Definition orderCycleSchema : models dfield :=
  [("Task",
    Model "Task"
      [("P", Virtual (DField DNoAttributes None
                        (DOrders [OArr [OStr "Q"]])));
       ("Q", Virtual (DField DNoAttributes None
                        (DOrders [OArr [OStr "P"; OStr "desc"]])))]
      [])].

Definition orderCycleParsed : models vfield :=
  [("Task",
    Model "Task"
      [("P", Virtual (VField (Some []) None
                        (Some [OArr [OStr "Q"; OStr "ASC"]])));
       ("Q", Virtual (VField (Some []) None
                        (Some [OArr [OStr "P"; OStr "DESC"]])))]
      [])].

(** The diamond as a declared schema. *)
Definition diamondSchema : models dfield :=
  [("Task",
    Model "Task"
      [("c1", Base); ("c2", Base);
       ("C", Virtual (DField (DAttributes [DString "c1"; DString "c2"]) None
                        DNoOrder));
       ("A", Virtual (DField (DAttributes [DString "c1"; DString "C"]) None
                        DNoOrder));
       ("B", Virtual (DField (DAttributes [DString "C"; DString "c2"]) None
                        DNoOrder))]
      [])].

(** ** What parseField establishes *)

(** An include is well scoped under [parent]: its model is a model of
    the registry that [parent] has an association to under its [as], its
    attributes are present and every one of them is found by
    [model.attributes[name]] on that model, and its own includes are well
    scoped under that model. *)
Fixpoint wellScoped {V} (ms : models V) (parent : model V) (i : include)
  {struct i} : Prop :=
  match i with
  | Include target alias attrs incs =>
      match lookup target ms with
      | None => False
      | Some includeModel =>
          getAssociation parent target alias = true
          /\ (exists l, attrs = Some l
                        /\ forall s, In s l ->
                                     fieldAt includeModel s <> None)
          /\ match incs with
             | None => True
             | Some l =>
                 (fix all (l : list include) : Prop :=
                    match l with
                    | [] => True
                    | x :: l' => wellScoped ms includeModel x /\ all l'
                    end) l
             end
      end
  end.

Fixpoint allScoped {V} (ms : models V) (parent : model V)
  (l : list include) : Prop :=
  match l with
  | [] => True
  | x :: l' => wellScoped ms parent x /\ allScoped ms parent l'
  end.

(** The same for what a virtual field, or the options of an include,
    holds: attributes and includes. *)
Definition wellScopedClause {V} (ms : models V) (parent : model V)
  (c : clause) : Prop :=
  (exists l, attributes c = Some l
             /\ forall s, In s l -> fieldAt parent s <> None)
  /\ match includes c with
     | None => True
     | Some l => allScoped ms parent l
     end.

(** ** Registries of the same shape *)

Definition sameKind {V W} (f : field V) (g : field W) : Prop :=
  match f, g with
  | Base, Base => True
  | Virtual _, Virtual _ => True
  | _, _ => False
  end.

(** The same name, the same associations, and the same fields in the
    same order, base where the other is base. *)
Definition sameModel {V W} (m : model V) (m' : model W) : Prop :=
  name m = name m'
  /\ associations m = associations m'
  /\ Forall2 (fun kf kf' => fst kf = fst kf' /\ sameKind (snd kf) (snd kf'))
             (fields m) (fields m').

Definition sameRegistry {V W} (ms : models V) (ms' : models W) : Prop :=
  Forall2 (fun km km' => fst km = fst km' /\ sameModel (snd km) (snd km'))
          ms ms'.

(** A computation that returns, or throws [e] and nothing else. *)
Definition returnsOrThrows {A} (e : error) (r : result A) : Prop :=
  match r with
  | Return _ => True
  | Throw e' => e' = e
  | OutOfFuel => False
  end.

(** [Task.Label] is ordered by a raw query. *)
Definition rawOrderSchema : models dfield :=
  [("Task",
    Model "Task"
      [("name", Base);
       ("Label", Virtual (DField (DAttributes [DString "name"]) None
                            (DOrders [OItem (OStr "name DESC")])))]
      [])].

(** ** The order clauses parseOrder accepts *)

(** The second half of the body of parseOrder's loop, on an array that
    has its sort order: the models before the attribute are put in
    [{model: model}] form, and the attribute, if a string, must be a
    field of the last of them. *)
Definition checkOrderClause {V} (ms : models V) (fieldName : string)
  (m : model V) (l : list oitem) : result order :=
  let n := List.length l in
  p <- parseOrderPath ms (name m) fieldName m (firstn (n - 2) l) ;;
  match nth_error l (n - 2) with
  | Some (OStr attribute) =>
      match fieldAt (snd p) attribute with
      | None =>
          Throw (OrderNonexistentField (name m) fieldName
                   (name (snd p)) attribute)
      | Some _ => Return (OArr (fst p ++ skipn (n - 2) l))
      end
  | _ => Return (OArr (fst p ++ skipn (n - 2) l))
  end.

(** A model of the registry in [{model: model}] form. *)
Definition isModelForm {V} (ms : models V) (x : oitem) : Prop :=
  exists target a,
    x = OObj (MModel target) (asvalOf a) /\ lookup target ms <> None.

(** An order clause in the form parseOrder leaves it in: models of the
    registry, then the attribute, then ASC or DESC. *)
Definition normalClause {V} (ms : models V) (o : order) : Prop :=
  exists path attribute direction,
    o = OArr (path ++ [attribute; OStr direction])
    /\ (direction = "ASC" \/ direction = "DESC")
    /\ Forall (isModelForm ms) path.

(** [Task.Title] is ordered by [name] and by [Task.Label], which has no
    order. *)
Definition unorderedTask : model vfield :=
  Model "Task"
    [("name", Base);
     ("Label", Virtual (VField (Some ["name"]) None None));
     ("Title",
      Virtual (VField (Some ["name"]) None
                 (Some [OArr [OStr "name"; OStr "ASC"];
                        OArr [OStr "Label"; OStr "ASC"]])))]
    [].

(** What makes two includes the same for [mergeClauses]: model and
    [as]. *)
Definition identity (i : include) : string * option string :=
  (imodel i, ias i).

(** The attributes and includes of a field of the registry. *)
Definition clauseOfField (f : field vfield) : option clause :=
  match f with
  | Virtual v => Some (fieldClause v)
  | Base => None
  end.

(** Every field of the registry has the attributes and includes it
    had. *)
Definition sameClauses (ms ms' : models vfield) : Prop :=
  forall mk fk,
    option_map clauseOfField (fieldOf ms' mk fk)
    = option_map clauseOfField (fieldOf ms mk fk).

(** ** A registry without virtual fields *)

(** Every field of the model is a base field. *)
Definition baseOnly {V} (m : model V) : Prop :=
  Forall (fun kf => snd kf = Base) (fields m).

(** The body of the [_.forEach(includes, ...)] of replaceVirtualFields. *)
Definition replaceInclude (fuel : nat) (ms : models vfield) (inc : rinclude)
  : result rinclude :=
  match inc with
  | RModel target =>
      match lookup target ms with
      | None => Throw TypeError
      | Some im =>
          o <- replaceVirtualFields fuel ms im (ROptions None None []) ;;
          Return (RInclude target None (rattributes o) (rincludes o)
                           (rvirtual o))
      end
  | RInclude target a attrs sub v =>
      match lookup target ms with
      | None => Throw TypeError
      | Some im =>
          o <- replaceVirtualFields fuel ms im (ROptions attrs sub v) ;;
          Return (RInclude target a (rattributes o) (rincludes o)
                           (rvirtual o))
      end
  end.

(** An include of a find with every bare model, at any depth, in
    [{model: model}] form. *)
Fixpoint objectForm (i : rinclude) : rinclude :=
  match i with
  | RModel target => RInclude target None None None []
  | RInclude target a attrs sub v =>
      RInclude target a attrs
        (match sub with
         | None => None
         | Some l => Some (map objectForm l)
         end) v
  end.

(** An include of a find names what exists: its model is in the
    registry, its attributes, if given, are fields of that model, and so
    for its own includes. *)
Fixpoint namedInclude (ms : models vfield) (i : rinclude) {struct i}
  : Prop :=
  match i with
  | RModel target => lookup target ms <> None
  | RInclude target a attrs sub v =>
      match lookup target ms with
      | None => False
      | Some im =>
          (forall l, attrs = Some l ->
                     forall s, In s l -> lookup s (fields im) <> None)
          /\ match sub with
             | None => True
             | Some l =>
                 (fix all (l : list rinclude) : Prop :=
                    match l with
                    | [] => True
                    | x :: l' => namedInclude ms x /\ all l'
                    end) l
             end
      end
  end.

Fixpoint allNamed (ms : models vfield) (l : list rinclude) : Prop :=
  match l with
  | [] => True
  | x :: l' => namedInclude ms x /\ allNamed ms l'
  end.

(** A virtual field whose order is a single value, not an array. *)
Definition singleOrderField : dfield :=
  DField (DAttributes [DString "name"]) None (DOrder (OItem (OStr "name"))).

Definition singleOrderTask : model dfield :=
  Model "Task" [("name", Base); ("Label", Virtual singleOrderField)] [].

(** ** A registry with nothing to inherit *)

(** The include, and every include within it, reads base fields only. *)
Fixpoint readsBase (ms : models vfield) (i : include) {struct i} : Prop :=
  match i with
  | Include target _ attrs incs =>
      match lookup target ms with
      | None => False
      | Some includeModel =>
          (forall l, attrs = Some l ->
                     forall s, In s l -> isBase includeModel s)
          /\ match incs with
             | None => True
             | Some l =>
                 (fix all (l : list include) : Prop :=
                    match l with
                    | [] => True
                    | x :: l' => readsBase ms x /\ all l'
                    end) l
             end
      end
  end.

Fixpoint allReadBase (ms : models vfield) (l : list include) : Prop :=
  match l with
  | [] => True
  | x :: l' => readsBase ms x /\ allReadBase ms l'
  end.

(** No virtual field of the registry reads, or is ordered by, a virtual
    field. *)
Definition nothingToInherit (ms : models vfield) : Prop :=
  forall mn fn m v,
    In (mn, fn, m, v) (virtualFields ms) ->
    (forall l, fattributes v = Some l -> forall s, In s l -> isBase m s)
    /\ (forall l, finclude v = Some l -> allReadBase ms l)
    /\ (forall orders,
           forder v = Some orders ->
           forall o, In o orders ->
                     exists om f, orderField ms m o = Return (om, f, Base)).

(** Two models, each with a virtual field over its own base field and
    that of the other. *)
Definition plainRegistry : models vfield :=
  [("Task",
    Model "Task"
      [("name", Base);
       ("Label",
        Virtual (VField (Some ["name"])
                   (Some [Include "Person" None (Some ["name"]) None])
                   (Some [OArr [OStr "name"; OStr "ASC"]])))]
      [("Person", None)]);
   ("Person", Model "Person" [("name", Base)] [])].

(** ** Schemas on which initVirtualFields throws half way *)




(** [halfOrderedSchema] once its fields are parsed. *)
Definition halfOrderedParsed : models vfield :=
  [("Task",
    Model "Task"
      [("name", Base);
       ("Good", Virtual (VField (Some []) None
                           (Some [OArr [OStr "name"; OStr "DESC"]])));
       ("Label", Virtual (VField (Some []) None None));
       ("Title", Virtual (VField (Some []) None
                            (Some [OArr [OStr "Good"; OStr "ASC"];
                                   OArr [OStr "Label"; OStr "ASC"]])))]
      [])].


(** A diamond, [A] and [B] both reading the virtual field [C], in which
    [A] names [x] twice and reads the virtual field [V] before [C]. *)
Definition duplicateDiamondSchema : models dfield :=
  [("Task",
    Model "Task"
      [("x", Base); ("c1", Base); ("v1", Base);
       ("C", Virtual (DField (DAttributes [DString "c1"]) None DNoOrder));
       ("V", Virtual (DField (DAttributes [DString "v1"]) None DNoOrder));
       ("A", Virtual (DField (DAttributes [DString "x"; DString "x";
                                           DString "V"; DString "C"])
                        None DNoOrder));
       ("B", Virtual (DField (DAttributes [DString "C"]) None DNoOrder))]
      [])].

(** [titleSchema] with a raw query behind the clause of [Title]. *)
Definition rawTitleSchema : models dfield :=
  [("Task",
    Model "Task"
      [("name", Base);
       ("Label", Virtual (DField DNoAttributes None
                            (DOrders [OArr [OStr "name"; OStr "DESC"]])));
       ("Title", Virtual (DField DNoAttributes None
                            (DOrders [OArr [OStr "Label"];
                                      OItem (OStr "RAND()")])))]
      [])].

(** [rawTitleSchema] once its fields are parsed. *)
Definition rawTitleParsed : models vfield :=
  [("Task",
    Model "Task"
      [("name", Base);
       ("Label", Virtual (VField (Some []) None
                            (Some [OArr [OStr "name"; OStr "DESC"]])));
       ("Title", Virtual (VField (Some []) None
                            (Some [OArr [OStr "Label"; OStr "ASC"];
                                   OItem (OStr "RAND()")])))]
      [])].

(** [titleSchema] with an object such as [{raw: ...}] behind the clause
    of [Title]. *)
Definition objectTitleSchema : models dfield :=
  [("Task",
    Model "Task"
      [("name", Base);
       ("Label", Virtual (DField DNoAttributes None
                            (DOrders [OArr [OStr "name"; OStr "DESC"]])));
       ("Title", Virtual (DField DNoAttributes None
                            (DOrders [OArr [OStr "Label"];
                                      OItem (OObj MAbsent AsUndefined)])))]
      [])].

(** [objectTitleSchema] once its fields are parsed. *)
Definition objectTitleParsed : models vfield :=
  [("Task",
    Model "Task"
      [("name", Base);
       ("Label", Virtual (VField (Some []) None
                            (Some [OArr [OStr "name"; OStr "DESC"]])));
       ("Title", Virtual (VField (Some []) None
                            (Some [OArr [OStr "Label"; OStr "ASC"];
                                   OArr [OObj MAbsent AsUndefined;
                                         OStr "ASC"]])))]
      [])].

(** ** The two reference graphs, in the words of the specification *)

(** "One edge per attribute reference from a Derived field to another
    Derived field, recursing into nested joins": [reads ms m attrs incs
    b] says that the requirement set [attrs], [incs], scoped to the
    model [m], refers to the virtual field [b]: a name of [attrs] is a
    virtual field of [m], or the requirement set of one of the includes,
    scoped to the model of that include, refers to [b]. *)
Inductive reads (ms : models vfield)
  : model vfield -> option (list string) -> option (list include) -> node
    -> Prop :=
| reads_attribute m attrs incs l a :
    attrs = Some l -> In a l -> isVirtual m a = true ->
    reads ms m attrs incs (name m, a)
| reads_include m attrs incs l i im b :
    incs = Some l -> In i l -> lookup (imodel i) ms = Some im ->
    reads ms im (iattributes i) (iinclude i) b ->
    reads ms m attrs incs b.

(** The virtual field [a] refers to the virtual field [b] by an
    attribute, its own or one of a nested include. *)
Definition attributeReference (ms : models vfield) (a b : node) : Prop :=
  exists m v,
    In (fst a, snd a, m, v) (virtualFields ms)
    /\ reads ms m (fattributes v) (finclude v) b.

(** The model that the terminal field of a structured clause belongs
    to: the model of the last join of its path, or the model of the
    field that holds the clause when the path is empty. *)
Definition terminalModel (ms : models vfield) (m : model vfield)
  (path : list oitem) : option (model vfield) :=
  match rev path with
  | [] => Some m
  | OObj (MModel target) _ :: _ => lookup target ms
  | _ => None
  end.

(** "One edge per order-clause terminal reference from a Derived field
    to another Derived field": a structured clause of [a], with its
    joins, a field name and a direction, names the virtual field [b]. *)
Definition orderReference (ms : models vfield) (a b : node) : Prop :=
  exists m v orders path f d target,
    In (fst a, snd a, m, v) (virtualFields ms)
    /\ forder v = Some orders
    /\ In (OArr (path ++ [OStr f; d])) orders
    /\ terminalModel ms m path = Some target
    /\ isVirtual target f = true
    /\ b = (name target, f).

(** Every order entry of every virtual field is a structured clause:
    joins in [{model: model}] form, then a field name and a direction,
    the field name being found by [model.attributes[name]] on the model
    of the last join. *)
Definition structuredOrders (ms : models vfield) : Prop :=
  forall mn fn m v orders o,
    In (mn, fn, m, v) (virtualFields ms) ->
    forder v = Some orders ->
    In o orders ->
    exists path f d target,
      o = OArr (path ++ [OStr f; d])
      /\ terminalModel ms m path = Some target
      /\ fieldAt target f <> None.

(** A cycle of a graph given as a relation. *)
Definition cyclic (R : node -> node -> Prop) (n : node) : Prop :=
  clos_trans node R n n.

(** [Task.A] reads, through its include of [Person], the virtual field
    [Person.B], which reads [Task.A] through its include of [Task]. *)
Definition nestedCycleSchema : models dfield :=
  [("Task",
    Model "Task"
      [("name", Base);
       ("A", Virtual (DField DNoAttributes
                        (Some (inr [DIObject (MString "Person") AsUndefined
                                      (DAttributes [DString "B"]) None]))
                        DNoOrder))]
      [("Person", None)]);
   ("Person",
    Model "Person"
      [("name", Base);
       ("B", Virtual (DField DNoAttributes
                        (Some (inr [DIObject (MString "Task") AsUndefined
                                      (DAttributes [DString "A"]) None]))
                        DNoOrder))]
      [("Task", None)])].

(** [nestedCycleSchema] once its fields are parsed. *)
Definition nestedCycleParsed : models vfield :=
  [("Task",
    Model "Task"
      [("name", Base);
       ("A", Virtual (VField (Some [])
                        (Some [Include "Person" None (Some ["B"]) None])
                        None))]
      [("Person", None)]);
   ("Person",
    Model "Person"
      [("name", Base);
       ("B", Virtual (VField (Some [])
                        (Some [Include "Task" None (Some ["A"]) None])
                        None))]
      [("Task", None)])].

(** * Properties *)

(** ** Reading a field of a model *)

Lemma fieldAt_own {V} (m : model V) k f :
  lookup k (fields m) = Some f -> fieldAt m k = Some f.
Proof. unfold fieldAt. now intros ->. Qed.

Lemma fieldAt_virtual {V} (m : model V) k v :
  fieldAt m k = Some (Virtual v) <-> lookup k (fields m) = Some (Virtual v).
Proof.
  unfold fieldAt. destruct (lookup k (fields m)) as [f|]; [tauto|].
  destruct (inherited k); split; discriminate.
Qed.

Lemma fieldAt_None {V} (m : model V) k :
  fieldAt m k = None -> lookup k (fields m) = None.
Proof.
  unfold fieldAt. destruct (lookup k (fields m)); [discriminate | reflexivity].
Qed.

Lemma fieldAt_declared {V} (m : model V) k :
  lookup k (fields m) <> None -> fieldAt m k <> None.
Proof.
  unfold fieldAt. destruct (lookup k (fields m)); [discriminate | tauto].
Qed.

Lemma isVirtual_fieldAt {V} (m : model V) k :
  isVirtual m k
  = match fieldAt m k with Some (Virtual _) => true | _ => false end.
Proof.
  unfold isVirtual, fieldAt. destruct (lookup k (fields m)) as [f|];
    [reflexivity|]. now destruct (inherited k).
Qed.

(** ** [_.union] *)

Lemma inb_In (x : string) (l : list string) : inb x l = true <-> In x l.
Proof.
  unfold inb. rewrite existsb_exists. split.
  - intros [y [Hy He]]. apply String.eqb_eq in He. now subst.
  - intro H. exists x. split; [assumption | apply String.eqb_refl].
Qed.

Lemma inb_false (x : string) (l : list string) : inb x l = false <-> ~ In x l.
Proof.
  rewrite <- inb_In. destruct (inb x l); split; congruence.
Qed.

Lemma inb_app (x : string) (a b : list string) :
  inb x (a ++ b) = inb x a || inb x b.
Proof. unfold inb. apply existsb_app. Qed.

Lemma filter_filter {A} (p q : A -> bool) (l : list A) :
  filter p (filter q l) = filter (fun x => q x && p x) l.
Proof.
  induction l as [|a l IH]; simpl; [reflexivity|].
  destruct (q a); simpl; [destruct (p a)|]; now rewrite IH.
Qed.

Lemma uniqInto_spec (l acc : list string) :
  uniqInto acc l
  = acc ++ filter (fun x => negb (inb x acc)) (firstOccurrences l).
Proof.
  revert acc. induction l as [|x l IH]; intro acc; simpl.
  - now rewrite app_nil_r.
  - rewrite IH. destruct (inb x acc) eqn:Hx; simpl.
    + f_equal. rewrite filter_filter. apply filter_ext. intro y.
      destruct (String.eqb x y) eqn:Hxy; simpl; [|reflexivity].
      apply String.eqb_eq in Hxy. subst. now rewrite Hx.
    + rewrite <- app_assoc. simpl. do 2 f_equal.
      rewrite filter_filter. apply filter_ext. intro y.
      rewrite inb_app. simpl. rewrite orb_false_r, negb_orb.
      rewrite String.eqb_sym. apply andb_comm.
Qed.

Lemma firstOccurrences_In (x : string) (l : list string) :
  In x (firstOccurrences l) <-> In x l.
Proof.
  induction l as [|a l IH]; simpl; [tauto|].
  rewrite filter_In, IH. destruct (String.eqb a x) eqn:E.
  - apply String.eqb_eq in E. subst. simpl. intuition congruence.
  - apply String.eqb_neq in E. simpl. intuition congruence.
Qed.

Lemma NoDup_filter {A} (p : A -> bool) (l : list A) :
  NoDup l -> NoDup (filter p l).
Proof.
  induction 1 as [|a l Ha Hl IH]; simpl; [constructor|].
  destruct (p a); [constructor|]; try assumption.
  rewrite filter_In. tauto.
Qed.

Lemma firstOccurrences_NoDup (l : list string) : NoDup (firstOccurrences l).
Proof.
  induction l as [|a l IH]; simpl; constructor.
  - rewrite filter_In. rewrite String.eqb_refl. simpl. intuition congruence.
  - now apply NoDup_filter.
Qed.

Lemma firstOccurrences_id (l : list string) :
  NoDup l -> firstOccurrences l = l.
Proof.
  induction 1 as [|a l Ha Hl IH]; simpl; [reflexivity|].
  rewrite IH. f_equal. apply forallb_filter_id. apply forallb_forall.
  intros y Hy. destruct (String.eqb a y) eqn:E; [|reflexivity].
  apply String.eqb_eq in E. subst. contradiction.
Qed.

Lemma union_orderedUnion (a b : list string) : union a b = orderedUnion a b.
Proof.
  unfold union, orderedUnion. rewrite (uniqInto_spec a []). simpl.
  rewrite (forallb_filter_id _ (firstOccurrences a))
    by (apply forallb_forall; reflexivity).
  rewrite uniqInto_spec. f_equal. apply filter_ext. intro x. f_equal.
  destruct (inb x a) eqn:E.
  - apply inb_In. apply firstOccurrences_In. now apply inb_In.
  - apply inb_false. rewrite firstOccurrences_In. now apply inb_false.
Qed.

Lemma union_In (x : string) (a b : list string) :
  In x (union a b) <-> In x a \/ In x b.
Proof.
  rewrite union_orderedUnion. unfold orderedUnion.
  rewrite in_app_iff, filter_In, !firstOccurrences_In, negb_true_iff, inb_false.
  destruct (in_dec string_dec x a); tauto.
Qed.

Lemma union_NoDup (a b : list string) : NoDup (union a b).
Proof.
  rewrite union_orderedUnion. unfold orderedUnion.
  apply NoDup_app.
  - apply firstOccurrences_NoDup.
  - apply NoDup_filter, firstOccurrences_NoDup.
  - intros x Hx Hy. apply filter_In in Hy. destruct Hy as [_ Hy].
    apply negb_true_iff, inb_false in Hy. apply Hy.
    now apply firstOccurrences_In.
Qed.

(** ** The loop of mergeVirtual over a list without duplicates *)

Lemma nth_error_here {A} (done : list A) (a : A) (rest : list A) :
  nth_error (done ++ a :: rest) (List.length done) = Some a.
Proof.
  rewrite nth_error_app2 by lia. now rewrite Nat.sub_diag.
Qed.

Lemma nth_error_end {A} (done : list A) :
  nth_error done (List.length done) = None.
Proof. apply nth_error_None. lia. Qed.

Lemma removeAt_here {A} (done : list A) (a : A) (rest : list A) :
  removeAt (List.length done) (done ++ a :: rest) = done ++ rest.
Proof.
  induction done as [|d done IH]; simpl; [reflexivity | now rewrite IH].
Qed.

Lemma union_NoDup_l (a b : list string) :
  NoDup a ->
  union a b = a ++ filter (fun x => negb (inb x a)) (firstOccurrences b).
Proof.
  intro H. rewrite union_orderedUnion. unfold orderedUnion.
  now rewrite firstOccurrences_id.
Qed.

Section ClosedReferences.

Variable m : model vfield.

Lemma virtualCount_app (a b : list string) :
  virtualCount m (a ++ b) = virtualCount m a + virtualCount m b.
Proof. unfold virtualCount. now rewrite filter_app, length_app. Qed.

Lemma virtualCount_base (l : list string) :
  (forall x, In x l -> isBase m x) -> virtualCount m l = 0.
Proof.
  unfold virtualCount. induction l as [|a l IH]; intro H; simpl.
  - reflexivity.
  - unfold isVirtual at 1. rewrite (H a (or_introl eq_refl)).
    apply IH. intros x Hx. apply H. now right.
Qed.

Lemma mergeVirtualAttributes_base fuel done a rest incs :
  isBase m a ->
  mergeVirtualAttributes (S fuel) m (List.length done)
    (Clause (Some (done ++ a :: rest)) incs)
  = mergeVirtualAttributes fuel m (List.length (done ++ [a]))
      (Clause (Some ((done ++ [a]) ++ rest)) incs).
Proof.
  intro Ha. simpl. rewrite nth_error_here, (fieldAt_own m a Ha).
  now rewrite length_app, Nat.add_comm, <- app_assoc.
Qed.

Lemma mergeVirtualAttributes_virtual fuel done a rest incs f l :
  lookup a (fields m) = Some (Virtual f) ->
  fattributes f = Some l ->
  NoDup (done ++ rest) ->
  mergeVirtualAttributes (S fuel) m (List.length done)
    (Clause (Some (done ++ a :: rest)) incs)
  = mergeVirtualAttributes fuel m (List.length done)
      (Clause (Some (done ++ rest
                     ++ filter (fun x => negb (inb x (done ++ rest)))
                               (firstOccurrences l)))
              (mergeIncludes incs (finclude f))).
Proof.
  intros Ha Hl Hnd. simpl.
  rewrite nth_error_here, (fieldAt_own m a Ha), removeAt_here.
  unfold mergeClauses, fieldClause. simpl. rewrite Hl.
  now rewrite (union_NoDup_l _ Hnd), <- app_assoc.
Qed.

Lemma mergeVirtualAttributes_closed (v : nat) :
  forall todo done incs,
    virtualCount m todo = v ->
    NoDup (done ++ todo) ->
    (forall k, In k done -> isBase m k) ->
    (forall k, In k todo -> closedReference m k) ->
    exists fuel u incs',
      (forall fuel', fuel <= fuel' ->
         mergeVirtualAttributes fuel' m (List.length done)
           (Clause (Some (done ++ todo)) incs)
         = Return (Clause (Some u) incs'))
      /\ NoDup u
      /\ (forall x, In x u -> isBase m x)
      /\ incl done u
      /\ (forall k, In k todo ->
            match lookup k (fields m) with
            | Some (Virtual f) =>
                forall l x, fattributes f = Some l -> In x l -> In x u
            | _ => In k u
            end).
Proof.
  induction v as [|v IHv]; induction todo as [|a rest IHrest];
    intros done incs Hv Hnd Hdone Htodo.
  1, 3: exists 1, done, incs; rewrite app_nil_r in *; repeat split;
    [ intros [|f] Hf; [lia|]; simpl; now rewrite nth_error_end
    | assumption | assumption | apply incl_refl | intros k [] ].
  - (* no virtual name left: [a] is a base field *)
    assert (Ha : isBase m a).
    { specialize (Htodo a (or_introl eq_refl)).
      unfold closedReference in Htodo.
      unfold virtualCount in Hv. simpl in Hv. unfold isVirtual at 1 in Hv.
      unfold isBase. destruct (lookup a (fields m)) as [[|f]|];
        [reflexivity | discriminate | contradiction]. }
    destruct (IHrest (done ++ [a]) incs)
      as (fuel & u & incs' & Hrun & Hu & Hb & Hincl & Hin).
    + unfold virtualCount in *. simpl in Hv. unfold isVirtual at 1 in Hv.
      now rewrite Ha in Hv.
    + now rewrite <- app_assoc.
    + intros k Hk. apply in_app_iff in Hk. destruct Hk as [Hk|[<-|[]]]; auto.
    + intros k Hk. apply Htodo. now right.
    + exists (S fuel), u, incs'. repeat split; try assumption.
      * intros [|f] Hf; [lia|].
        rewrite mergeVirtualAttributes_base by assumption.
        apply Hrun. lia.
      * intros k Hk. apply Hincl, in_app_iff. now left.
      * intros k [<-|Hk]; [|now apply Hin].
        rewrite Ha. apply Hincl, in_app_iff. right. now left.
  - (* [a] is a base field, virtual names follow *)
    pose proof (Htodo a (or_introl eq_refl)) as Hca.
    unfold closedReference in Hca.
    destruct (lookup a (fields m)) as [[|f]|] eqn:Ha; [| |contradiction].
    + destruct (IHrest (done ++ [a]) incs)
        as (fuel & u & incs' & Hrun & Hu & Hb & Hincl & Hin).
      * unfold virtualCount in *. simpl in Hv. unfold isVirtual at 1 in Hv.
        now rewrite Ha in Hv.
      * now rewrite <- app_assoc.
      * intros k Hk. apply in_app_iff in Hk.
        destruct Hk as [Hk|[<-|[]]]; auto.
      * intros k Hk. apply Htodo. now right.
      * exists (S fuel), u, incs'. repeat split; try assumption.
        -- intros [|f] Hf; [lia|].
           rewrite mergeVirtualAttributes_base by assumption.
           apply Hrun. lia.
        -- intros k Hk. apply Hincl, in_app_iff. now left.
        -- intros k [<-|Hk]; [|now apply Hin].
           rewrite Ha. apply Hincl, in_app_iff. right. now left.
    + (* [a] is a virtual field: its attributes are merged in *)
      destruct Hca as (l & Hl & Hbase).
      assert (Hnd' : NoDup (done ++ rest)) by now apply NoDup_remove_1 in Hnd.
      set (new := filter (fun x => negb (inb x (done ++ rest)))
                         (firstOccurrences l)).
      assert (Hnew : forall x, In x new -> isBase m x).
      { intros x Hx. apply filter_In in Hx. apply Hbase.
        now apply firstOccurrences_In. }
      destruct (IHv (rest ++ new) done (mergeIncludes incs (finclude f)))
        as (fuel & u & incs' & Hrun & Hu & Hb & Hincl & Hin).
      * rewrite virtualCount_app, (virtualCount_base new Hnew).
        unfold virtualCount in *. simpl in Hv. unfold isVirtual at 1 in Hv.
        rewrite Ha in Hv. simpl in Hv. lia.
      * rewrite app_assoc. unfold new. rewrite <- (union_NoDup_l l Hnd').
        apply union_NoDup.
      * assumption.
      * intros k Hk. apply in_app_iff in Hk. destruct Hk as [Hk|Hk].
        -- apply Htodo. now right.
        -- unfold closedReference. now rewrite (Hnew k Hk).
      * assert (Hbu : forall x, In x (rest ++ new) -> isBase m x -> In x u).
        { intros x Hx Hbx. specialize (Hin x Hx). now rewrite Hbx in Hin. }
        exists (S fuel), u, incs'. repeat split; try assumption.
        -- intros [|f'] Hf; [lia|].
           rewrite (@mergeVirtualAttributes_virtual f' done a rest incs f l
                      Ha Hl Hnd').
           apply Hrun. lia.
        -- intros k [<-|Hk].
           ++ rewrite Ha. intros l0 x Hl0 Hx.
              assert (l0 = l) by congruence. subst l0.
              destruct (inb x (done ++ rest)) eqn:E.
              ** apply inb_In, in_app_iff in E. destruct E as [E|E].
                 --- now apply Hincl.
                 --- apply Hbu; [apply in_app_iff; now left | now apply Hbase].
              ** apply Hbu; [|now apply Hbase]. apply in_app_iff. right.
                 apply filter_In. split.
                 --- now apply firstOccurrences_In.
                 --- now rewrite E.
           ++ apply Hin, in_app_iff. now left.
Qed.

End ClosedReferences.

(** ** Merging attributes *)

(** C4.  When both attribute lists are present, [mergeClauses] leaves the
    ordered set union: the consumer's names in their original order (each
    once), then the dependency's names that the consumer did not have,
    without duplicates; [x, y] merged with [y, z] is [x, y, z].  The
    diamond in which no consumer names a field twice is closed by
    initVirtualFields with the attributes of [C] exactly once in [A] and
    in [B].  In the diamond in which [A] declares [[x, x, V, C]], the
    closure of [A] is [[x, C, v1]]: once [V] is merged, [_.union] has
    dropped the second [x], the loop index is past [C], and no attribute
    of [C] is in the closed list of [A]. *)
Theorem diamond_with_duplicates_left_open :
  (forall item fromItem a b,
      attributes item = Some a ->
      attributes fromItem = Some b ->
      attributes (mergeClauses item fromItem) = Some (orderedUnion a b)
      /\ NoDup (orderedUnion a b)
      /\ (forall x, In x (orderedUnion a b) <-> In x a \/ In x b)
      /\ (NoDup a ->
          orderedUnion a b
          = a ++ filter (fun x => negb (inb x a)) (firstOccurrences b)))
  /\ attributes (mergeClauses (Clause (Some ["x"; "y"]) None)
                              (Clause (Some ["y"; "z"]) None))
     = Some ["x"; "y"; "z"]
  /\ (initializedField (initVirtualFields 5 diamondSchema) "Task" "C"
      = Some (VField (Some ["c1"; "c2"]) None None)
      /\ initializedField (initVirtualFields 5 diamondSchema) "Task" "A"
         = Some (VField (Some ["c1"; "c2"]) None None)
      /\ initializedField (initVirtualFields 5 diamondSchema) "Task" "B"
         = Some (VField (Some ["c2"; "c1"]) None None))
  /\ (initializedField (initVirtualFields 5 duplicateDiamondSchema) "Task" "C"
      = Some (VField (Some ["c1"]) None None)
      /\ initializedField (initVirtualFields 5 duplicateDiamondSchema)
           "Task" "A"
         = Some (VField (Some ["x"; "C"; "v1"]) None None)
      /\ initializedField (initVirtualFields 5 duplicateDiamondSchema)
           "Task" "B"
         = Some (VField (Some ["c1"]) None None)).
Proof.
  split; [|split; [|split]].
  - intros item fromItem a b Ha Hb. unfold mergeClauses. simpl.
    rewrite Ha, Hb. simpl. rewrite union_orderedUnion.
    split; [reflexivity|]. split; [|split].
    + rewrite <- union_orderedUnion. apply union_NoDup.
    + intro x. rewrite <- union_orderedUnion. apply union_In.
    + intro Hnd. rewrite <- union_orderedUnion. now apply union_NoDup_l.
  - reflexivity.
  - repeat split; vm_compute; reflexivity.
  - repeat split; vm_compute; reflexivity.
Qed.

Lemma diamond_with_duplicates_left_open_witness :
  attributes (mergeClauses (Clause (Some ["x"; "y"]) None)
                           (Clause (Some ["y"; "z"]) None))
  = Some (orderedUnion ["x"; "y"] ["y"; "z"])
  /\ NoDup (orderedUnion ["x"; "y"] ["y"; "z"]).
Proof.
  destruct (proj1 diamond_with_duplicates_left_open
              (Clause (Some ["x"; "y"]) None) (Clause (Some ["y"; "z"]) None)
              ["x"; "y"] ["y"; "z"] eq_refl eq_refl) as (H1 & H2 & _).
  split; [exact H1 | exact H2].
Defined.

(** The diamond through initVirtualFields: [A] and [B] both end with the
    attributes of [C], each once. *)
Example diamond_closed :
  initializedField (initVirtualFields 5 diamondSchema) "Task" "A"
  = Some (VField (Some ["c1"; "c2"]) None None)
  /\ initializedField (initVirtualFields 5 diamondSchema) "Task" "B"
     = Some (VField (Some ["c2"; "c1"]) None None).
Proof. split; vm_compute; reflexivity. Qed.

(** C10.  [mergeClauses] on the attribute lists.  A consumer whose list
    is present loses it when the dependency's list is absent; when both
    lists are present the consumer gets their union, its own names
    first; a consumer without a list stays without one whatever the
    dependency has.  So the union is computed only when both lists are
    present. *)
Theorem mergeClauses_absent_attributes_absorb :
  forall item fromItem,
    (forall a, attributes item = Some a -> attributes fromItem = None ->
               attributes (mergeClauses item fromItem) = None)
    /\ (forall a b,
           attributes item = Some a -> attributes fromItem = Some b ->
           attributes (mergeClauses item fromItem) = Some (orderedUnion a b))
    /\ (attributes item = None ->
        attributes (mergeClauses item fromItem) = None).
Proof.
  intros item fromItem. unfold mergeClauses. simpl. split; [|split].
  - intros a Ha Hb. now rewrite Ha, Hb.
  - intros a b Ha Hb. rewrite Ha, Hb. simpl.
    now rewrite union_orderedUnion.
  - intro Ha. now rewrite Ha.
Qed.

Lemma mergeClauses_absent_attributes_absorb_witness :
  attributes (mergeClauses (Clause (Some ["name"]) None) (Clause None None))
  = None
  /\ attributes (mergeClauses (Clause (Some ["x"; "y"]) None)
                              (Clause (Some ["y"; "z"]) None))
     = Some (orderedUnion ["x"; "y"] ["y"; "z"])
  /\ attributes (mergeClauses (Clause None None) (Clause (Some ["name"]) None))
     = None.
Proof.
  pose proof (mergeClauses_absent_attributes_absorb
                (Clause (Some ["name"]) None) (Clause None None))
    as (H1 & _).
  pose proof (mergeClauses_absent_attributes_absorb
                (Clause (Some ["x"; "y"]) None)
                (Clause (Some ["y"; "z"]) None))
    as (_ & H2 & _).
  pose proof (mergeClauses_absent_attributes_absorb
                (Clause None None) (Clause (Some ["name"]) None))
    as (_ & _ & H3).
  split; [|split].
  - apply (H1 ["name"]); reflexivity.
  - apply (H2 ["x"; "y"] ["y"; "z"]); reflexivity.
  - apply H3. reflexivity.
Defined.

(** ** Merging includes *)

Lemma mergeInclude_mergeClauses (fromInclude toInclude : include) :
  mergeInclude fromInclude toInclude
  = withClause toInclude
      (mergeClauses (clauseOf toInclude) (clauseOf fromInclude)).
Proof.
  destruct fromInclude as [fm fa fattrs [fl|]],
    toInclude as [tm ta tattrs [tl|]];
    reflexivity.
Qed.

Lemma sameInclude_iff (t f : include) :
  sameInclude t f = true <-> imodel t = imodel f /\ ias t = ias f.
Proof.
  unfold sameInclude. rewrite andb_true_iff, String.eqb_eq.
  destruct (ias t) as [x|], (ias f) as [y|]; simpl;
    try rewrite String.eqb_eq; intuition congruence.
Qed.





(** ** Order entries are not merged *)

Lemma lookup_update {A} (k k' : string) (v : A) (o : list (string * A)) :
  lookup k (update k' v o)
  = if String.eqb k' k then option_map (fun _ => v) (lookup k o)
    else lookup k o.
Proof.
  induction o as [|[k0 v0] o IH]; simpl.
  - now destruct (String.eqb k' k).
  - destruct (String.eqb k0 k') eqn:E0; simpl.
    + apply String.eqb_eq in E0. subst k0.
      now destruct (String.eqb k' k).
    + destruct (String.eqb k0 k) eqn:E1; simpl.
      * apply String.eqb_eq in E1. subst k0.
        rewrite String.eqb_sym in E0. now rewrite E0.
      * exact IH.
Qed.

Lemma fieldOf_setField (ms : models vfield) mk fk f mk' fk' :
  fieldOf (setField ms mk fk f) mk' fk'
  = if String.eqb mk mk' && String.eqb fk fk'
    then option_map (fun _ => f) (fieldOf ms mk' fk')
    else fieldOf ms mk' fk'.
Proof.
  unfold fieldOf, setField.
  destruct (lookup mk ms) as [m|] eqn:Hm.
  - rewrite lookup_update. destruct (String.eqb mk mk') eqn:E; simpl.
    + apply String.eqb_eq in E. subst mk'. rewrite Hm. simpl.
      rewrite lookup_update. now destruct (String.eqb fk fk').
    + reflexivity.
  - destruct (String.eqb mk mk') eqn:E; simpl; [|reflexivity].
    apply String.eqb_eq in E. subst mk'. rewrite Hm.
    now destruct (String.eqb fk fk').
Qed.

Lemma forEachState_invariant {A S} (R : S -> S -> Prop)
  (body : S -> A -> result S) (left : S -> A -> S) :
  (forall s, R s s) ->
  (forall s1 s2 s3, R s1 s2 -> R s2 s3 -> R s1 s3) ->
  (forall s a s', body s a = Return s' -> R s s') ->
  (forall s a, R s (left s a)) ->
  forall l s,
    match forEachState body left l s with
    | Done s' | Failed _ s' => R s s'
    | Diverged => True
    end.
Proof.
  intros Hrefl Htrans Hbody Hleft.
  induction l as [|a l IH]; intro s; simpl.
  - apply Hrefl.
  - destruct (body s a) as [s'| |] eqn:E; [|apply Hleft|exact I].
    specialize (IH s'). apply Hbody in E.
    destruct (forEachState body left l s'); eauto.
Qed.

Lemma mergeDependent_sameOrders fuel ms dependent ms' :
  mergeDependent fuel ms dependent = Return ms' -> sameOrders ms ms'.
Proof.
  unfold mergeDependent. intro H.
  destruct (lookup (fst dependent) ms) as [m|] eqn:Hm; [|discriminate].
  destruct (lookup (snd dependent) (fields m)) as [[|v]|] eqn:Hf;
    try discriminate.
  destruct (mergeVirtual fuel ms m (fieldClause v)) as [c| |];
    try discriminate.
  simpl in H. injection H as <-. intros mk fk.
  rewrite fieldOf_setField.
  destruct (String.eqb (fst dependent) mk && String.eqb (snd dependent) fk)
    eqn:E; [|reflexivity].
  apply andb_true_iff in E. destruct E as [E1 E2].
  apply String.eqb_eq in E1, E2. subst mk fk.
  unfold fieldOf. now rewrite Hm, Hf.
Qed.

Lemma mergeDependentLeft_sameOrders fuel ms dependent :
  sameOrders ms (mergeDependentLeft fuel ms dependent).
Proof.
  unfold mergeDependentLeft. intros mk fk.
  destruct (lookup (fst dependent) ms) as [m|] eqn:Hm; [|reflexivity].
  destruct (lookup (snd dependent) (fields m)) as [[|v]|] eqn:Hf;
    try reflexivity.
  rewrite fieldOf_setField.
  destruct (String.eqb (fst dependent) mk && String.eqb (snd dependent) fk)
    eqn:E; [|reflexivity].
  apply andb_true_iff in E. destruct E as [E1 E2].
  apply String.eqb_eq in E1, E2. subst mk fk.
  unfold fieldOf. now rewrite Hm, Hf.
Qed.

(** C6, as the claim states it, fails: [Task.A] reads [Task.B], the
    attributes of [B] are merged into [A], and the order of [A] is still
    its own single entry, without the entry of [B] after it. *)
Lemma order_entries_not_appended :
  initializedField (initVirtualFields 5 orderedSchema) "Task" "B"
  = Some (VField (Some ["name"]) None
            (Some [OArr [OStr "name"; OStr "DESC"]]))
  /\ initializedField (initVirtualFields 5 orderedSchema) "Task" "A"
     = Some (VField (Some ["name"]) None
               (Some [OArr [OStr "due"; OStr "ASC"]]))
  /\ initializedField (initVirtualFields 5 orderedSchema) "Task" "A"
     <> Some (VField (Some ["name"]) None
                (Some ([OArr [OStr "due"; OStr "ASC"]]
                       ++ [OArr [OStr "name"; OStr "DESC"]]))).
Proof.
  split; [|split]; [vm_compute; reflexivity | vm_compute; reflexivity |].
  vm_compute. discriminate.
Qed.

(** C6, amended.  The merge done by inheritInclude, whether it returns or
    throws, leaves the order entries of every field of the registry as
    they were: [mergeClauses] merges attributes and includes only. *)
Theorem inheritInclude_keeps_order :
  forall fuel ms ms',
    (inheritInclude fuel ms = Done ms'
     \/ exists e, inheritInclude fuel ms = Failed e ms') ->
    sameOrders ms ms'.
Proof.
  intros fuel ms ms' H. unfold inheritInclude in H.
  assert (Hrefl : sameOrders ms ms) by (intros mk fk; reflexivity).
  destruct (includeDependencies ms) as [deps|e|].
  - destruct (toposortDependents deps) as [n|dependents].
    + destruct H as [H|[e H]]; [discriminate|]. now injection H as _ <-.
    + pose proof (@forEachState_invariant node (models vfield) sameOrders
                    (mergeDependent fuel) (mergeDependentLeft fuel)) as Hinv.
      specialize (Hinv (fun s mk fk => eq_refl)).
      specialize (Hinv (fun s1 s2 s3 H12 H23 mk fk =>
                          eq_trans (H23 mk fk) (H12 mk fk))).
      specialize (Hinv (fun s a s' => @mergeDependent_sameOrders fuel s a s')).
      specialize (Hinv (fun s a => @mergeDependentLeft_sameOrders fuel s a)).
      specialize (Hinv (rev dependents) ms).
      destruct H as [H|[e H]]; rewrite H in Hinv; exact Hinv.
  - destruct H as [H|[e' H]]; [discriminate|]. now injection H as _ <-.
  - destruct H as [H|[e' H]]; discriminate.
Qed.

Lemma inheritInclude_keeps_order_witness :
  sameOrders
    [("Task",
      Model "Task"
        [("name", Base);
         ("B", Virtual (VField (Some ["name"]) None
                          (Some [OArr [OStr "name"; OStr "DESC"]])));
         ("A", Virtual (VField (Some ["B"]) None
                          (Some [OArr [OStr "name"; OStr "ASC"]])))]
        [])]
    [("Task",
      Model "Task"
        [("name", Base);
         ("B", Virtual (VField (Some ["name"]) None
                          (Some [OArr [OStr "name"; OStr "DESC"]])));
         ("A", Virtual (VField (Some ["name"]) None
                          (Some [OArr [OStr "name"; OStr "ASC"]])))]
        [])].
Proof.
  apply (@inheritInclude_keeps_order 5). left. vm_compute. reflexivity.
Defined.

(** ** Normalising the order entries of a find *)

Lemma last_two {A} (path : list A) (a b d : A) :
  last (path ++ [a; b]) d = b.
Proof.
  change (path ++ [a; b]) with (path ++ [a] ++ [b]).
  rewrite app_assoc. apply last_last.
Qed.

Lemma removelast_two {A} (path : list A) (a b : A) :
  removelast (path ++ [a; b]) = path ++ [a].
Proof.
  change (path ++ [a; b]) with (path ++ [a] ++ [b]).
  rewrite app_assoc. apply removelast_last.
Qed.

Lemma firstn_path {A} (path rest : list A) :
  firstn (List.length path) (path ++ rest) = path.
Proof.
  rewrite firstn_app, Nat.sub_diag, firstn_all. simpl. apply app_nil_r.
Qed.

Lemma skipn_path {A} (path rest : list A) :
  skipn (List.length path) (path ++ rest) = rest.
Proof.
  rewrite skipn_app, Nat.sub_diag, skipn_all. reflexivity.
Qed.

Lemma replaceOrderEntry_direction path f d :
  replaceOrderEntry (OArr (path ++ [OStr f; OStr d]))
  = Return (OArr (map modelForm path ++ [OStr f; OStr (toUpperCase d)])).
Proof.
  unfold replaceOrderEntry.
  destruct (path ++ [OStr f; OStr d]) as [|x l] eqn:E.
  { now destruct path. }
  rewrite <- E. clear E x l.
  assert (Hn : List.length (path ++ [OStr f; OStr d]) - 2 = List.length path)
    by (rewrite length_app; simpl; lia).
  rewrite Hn, nth_error_here.
  assert (H1 : Nat.eqb (List.length (path ++ [OStr f; OStr d])) 1 = false)
    by (apply Nat.eqb_neq; rewrite length_app; simpl; lia).
  rewrite H1, last_two, removelast_two. simpl.
  rewrite <- app_assoc. simpl.
  assert (Hn' : List.length (path ++ [OStr f; OStr (toUpperCase d)]) - 2
                = List.length path)
    by (rewrite length_app; simpl; lia).
  now rewrite Hn', firstn_path, skipn_path.
Qed.

Lemma replaceOrderEntry_no_direction path f :
  (path = [] \/ exists p x, path = p ++ [x] /\ forall s, x <> OStr s) ->
  replaceOrderEntry (OArr (path ++ [OStr f]))
  = Return (OArr (map modelForm path ++ [OStr f; OStr "ASC"])).
Proof.
  intros [->|(p & x & -> & Hx)]; [reflexivity|].
  assert (Heq : (p ++ [x]) ++ [OStr f] = p ++ [x; OStr f])
    by now rewrite <- app_assoc.
  rewrite Heq. clear Heq. unfold replaceOrderEntry.
  destruct (p ++ [x; OStr f]) as [|y l] eqn:E.
  { now destruct p. }
  rewrite <- E. clear E y l.
  assert (Hn : List.length (p ++ [x; OStr f]) - 2 = List.length p)
    by (rewrite !length_app; simpl; lia).
  rewrite Hn, nth_error_here.
  assert (Hpush :
            match x with
            | OStr _ =>
                if Nat.eqb (List.length (p ++ [x; OStr f])) 1
                then Return ((p ++ [x; OStr f]) ++ [OStr "ASC"])
                else match last (p ++ [x; OStr f]) (OStr "") with
                     | OStr d0 =>
                         Return (removelast (p ++ [x; OStr f])
                                 ++ [OStr (toUpperCase d0)])
                     | _ => Throw TypeError
                     end
            | _ => Return ((p ++ [x; OStr f]) ++ [OStr "ASC"])
            end = Return ((p ++ [x; OStr f]) ++ [OStr "ASC"])).
  { destruct x; try reflexivity. now destruct (Hx s). }
  rewrite Hpush. simpl.
  replace ((p ++ [x; OStr f]) ++ [OStr "ASC"])
    with ((p ++ [x]) ++ [OStr f; OStr "ASC"])
    by (now rewrite <- !app_assoc).
  assert (Hn' : List.length ((p ++ [x]) ++ [OStr f; OStr "ASC"]) - 2
                = List.length (p ++ [x]))
    by (rewrite !length_app; simpl; lia).
  now rewrite Hn', firstn_path, skipn_path.
Qed.

Lemma parseDirection_spec path f d :
  parseDirection (path ++ [OStr f; OStr d])
  = if isDirection (toUpperCase d)
    then Return (path ++ [OStr f; OStr (toUpperCase d)])
    else Return (path ++ [OStr f; OStr d; OStr "ASC"]).
Proof.
  unfold parseDirection. rewrite last_two, removelast_two.
  destruct (isDirection (toUpperCase d)); now rewrite <- app_assoc.
Qed.

(** C8, as the claim states it, fails: on a direction that is neither ASC
    nor DESC the registration appends ['ASC'], while the hook puts the
    token in upper case and appends nothing. *)
Lemma request_direction_not_as_registered :
  parseDirection [OStr "name"; OStr "up"]
  = Return [OStr "name"; OStr "up"; OStr "ASC"]
  /\ replaceOrderEntry (OArr [OStr "name"; OStr "up"])
     = Return (OArr [OStr "name"; OStr "UP"])
  /\ replaceOrderEntry (OArr [OStr "name"; OStr "up"])
     <> Return (OArr [OStr "name"; OStr "up"; OStr "ASC"]).
Proof.
  split; [|split]; [reflexivity | reflexivity |].
  vm_compute. discriminate.
Qed.

(** C8, amended.  replaceVirtualOrders leaves a raw string as it is and
    wraps any other single value with ['ASC']; it
    appends ['ASC'] to an array whose only element is the field name, or
    whose field name follows a model or an object; and when the field
    name is followed by one more element it puts that element in upper
    case, whatever it is.  This is what the registration does with a
    token that is ASC or DESC in any case; for any other token the
    registration appends ['ASC'] instead.  In both, models before the
    field name are put in [{model: model}] form by the hook. *)
Theorem replaceOrderEntry_normalizes :
  (forall s, replaceOrderEntry (OItem (OStr s)) = Return (OItem (OStr s)))
  /\ (forall x,
         (forall s, x <> OStr s) ->
         replaceOrderEntry (OItem x) = Return (OArr [x; OStr "ASC"]))
  /\ (forall path f,
         (path = [] \/ exists p x, path = p ++ [x] /\ forall s, x <> OStr s) ->
         replaceOrderEntry (OArr (path ++ [OStr f]))
         = Return (OArr (map modelForm path ++ [OStr f; OStr "ASC"])))
  /\ (forall path f d,
         replaceOrderEntry (OArr (path ++ [OStr f; OStr d]))
         = Return (OArr (map modelForm path
                         ++ [OStr f; OStr (toUpperCase d)])))
  /\ (forall path f d,
         isDirection (toUpperCase d) = true ->
         parseDirection (path ++ [OStr f; OStr d])
         = Return (path ++ [OStr f; OStr (toUpperCase d)]))
  /\ (forall path f d,
         isDirection (toUpperCase d) = false ->
         parseDirection (path ++ [OStr f; OStr d])
         = Return (path ++ [OStr f; OStr d; OStr "ASC"])).
Proof.
  split; [reflexivity|].
  split; [intros [s| |] Hx; [now destruct (Hx s) | reflexivity..]|].
  split; [exact replaceOrderEntry_no_direction|].
  split; [exact replaceOrderEntry_direction|].
  split; intros path f d H; now rewrite parseDirection_spec, H.
Qed.

Lemma replaceOrderEntry_normalizes_witness :
  replaceOrderEntry (OArr ([OModel "Person"] ++ [OStr "name"]))
  = Return (OArr (map modelForm [OModel "Person"]
                  ++ [OStr "name"; OStr "ASC"]))
  /\ parseDirection ([] ++ [OStr "name"; OStr "desc"])
     = Return ([] ++ [OStr "name"; OStr (toUpperCase "desc")])
  /\ parseDirection ([] ++ [OStr "name"; OStr "up"])
     = Return ([] ++ [OStr "name"; OStr "up"; OStr "ASC"]).
Proof.
  destruct replaceOrderEntry_normalizes as (_ & _ & H1 & _ & H2 & H3).
  split; [|split].
  - apply H1. right. exists [], (OModel "Person").
    split; [reflexivity | discriminate].
  - apply H2. reflexivity.
  - apply H3. reflexivity.
Defined.

(** ** Order inheritance *)

Lemma insertAt_here {A} (done : list A) (x : A) (rest : list A) :
  insertAt (List.length done) x (done ++ rest) = done ++ x :: rest.
Proof.
  induction done as [|d done IH]; simpl.
  - now destruct rest.
  - now rewrite IH.
Qed.

Lemma spliceOrders_spec clause fromOrders :
  forall done rest,
    spliceOrders (OArr clause) fromOrders (List.length done) (done ++ rest)
    = Return (done ++ map (prependPath clause) fromOrders ++ rest,
              List.length (done ++ map (prependPath clause) fromOrders)).
Proof.
  induction fromOrders as [|fo fos IH]; intros done rest; simpl.
  - now rewrite app_nil_r.
  - rewrite insertAt_here.
    change (OArr (firstn (List.length clause - 2) clause
                  ++ match fo with OArr fl => fl | OItem x => [x] end))
      with (prependPath clause fo).
    specialize (IH (done ++ [prependPath clause fo]) rest).
    rewrite length_app, Nat.add_comm in IH. simpl in IH.
    rewrite <- !app_assoc in IH. simpl in IH. rewrite IH.
    reflexivity.
Qed.

Lemma replaceOrders_expand ms m fieldName :
  forall todo expansions done fuel,
    Forall2 (fun o e => expandOrder ms m o = Some e) todo expansions ->
    List.length todo < fuel ->
    replaceOrders fuel ms m fieldName (List.length done) (done ++ todo)
    = Return (done ++ List.concat expansions).
Proof.
  induction todo as [|o rest IH]; intros expansions done fuel Hexp Hfuel.
  - inversion Hexp. subst. destruct fuel as [|fuel]; [simpl in Hfuel; lia|].
    simpl. rewrite !app_nil_r. now rewrite nth_error_end.
  - inversion Hexp as [|o' e rest' es He Hes]. subst.
    destruct fuel as [|fuel]; [lia|]. simpl in Hfuel.
    cbn [replaceOrders]. rewrite nth_error_here.
    unfold expandOrder in He. destruct o as [x|clause]; [discriminate|].
    destruct (orderField ms m (OArr clause)) as [[[fm fname] [|f]]| |];
      try discriminate; cbn [bind].
    + injection He as <-. simpl.
      specialize (IH es (done ++ [OArr clause]) fuel Hes ltac:(lia)).
      rewrite length_app, Nat.add_comm, <- !app_assoc in IH. exact IH.
    + destruct (forder f) as [[|fo fos]|]; try discriminate.
      injection He as <-. rewrite removeAt_here, spliceOrders_spec.
      cbn [bind fst snd].
      specialize (IH es (done ++ map (prependPath clause) (fo :: fos))
                    fuel Hes ltac:(lia)).
      rewrite <- app_assoc in IH. rewrite IH.
      now rewrite <- app_assoc.
Qed.

(** C7.  Where every clause of the list can be expanded, the loop of
    inheritOrder, with the fuel inheritOrder gives it, returns the list
    in which every clause on a virtual field that has order clauses is
    replaced, where it stood, by the clauses of that field in their
    order, each behind the leading path of the replaced clause, and in
    which every other clause is where it was; and for [Task] with [Label]
    ordered by [['name', 'DESC']] and [Title] ordered by [['Label']],
    initVirtualFields leaves [Title] ordered by [['name', 'DESC']].  With
    a raw query such as ['RAND()'], or an object such as [{raw: ...}],
    behind that clause of [Title], entries that parseOrder accepts, no
    clause is replaced: inheritOrder throws a TypeError while it collects
    the references, and the clause [['Label', 'ASC']] is still there. *)
Theorem raw_entry_stops_order_substitution :
  (forall ms m fieldName orders expansions,
      Forall2 (fun o e => expandOrder ms m o = Some e) orders expansions ->
      replaceOrders (S (List.length orders)) ms m fieldName 0 orders
      = Return (List.concat expansions))
  /\ (forall path field direction fromOrder,
         prependPath (path ++ [field; direction]) fromOrder
         = OArr (path ++ match fromOrder with
                         | OArr fl => fl
                         | OItem x => [x]
                         end))
  /\ initializedField (initVirtualFields 5 titleSchema) "Task" "Title"
     = Some (VField (Some []) None (Some [OArr [OStr "name"; OStr "DESC"]]))
  /\ initVirtualFields 5 rawTitleSchema
     = InheritFailed TypeError rawTitleParsed
  /\ initVirtualFields 5 objectTitleSchema
     = InheritFailed TypeError objectTitleParsed.
Proof.
  split; [|split; [|split; [|split]]].
  - intros ms m fieldName orders expansions H.
    apply (@replaceOrders_expand ms m fieldName orders expansions []
             (S (List.length orders)) H). lia.
  - intros path field direction fromOrder. unfold prependPath.
    assert (Hn : List.length (path ++ [field; direction]) - 2
                 = List.length path)
      by (rewrite length_app; simpl; lia).
    now rewrite Hn, firstn_path.
  - vm_compute. reflexivity.
  - vm_compute. reflexivity.
  - vm_compute. reflexivity.
Qed.

Lemma raw_entry_stops_order_substitution_witness :
  replaceOrders 2 [("Task", titleTask)] titleTask "Title" 0
    [OArr [OStr "Label"; OStr "ASC"]]
  = Return (List.concat [[OArr [OStr "name"; OStr "DESC"]]]).
Proof.
  apply (proj1 raw_entry_stops_order_substitution
           [("Task", titleTask)] titleTask "Title"
           [OArr [OStr "Label"; OStr "ASC"]]
           [[OArr [OStr "name"; OStr "DESC"]]]).
  constructor; [vm_compute; reflexivity | constructor].
Defined.

(** ** The loop of replaceVirtualFields over a list without duplicates *)

Lemma replaceAttributes_base fuel m done a rest incs virt :
  isBase m a ->
  replaceAttributes (S fuel) m (List.length done)
    (ROptions (Some (done ++ a :: rest)) incs virt)
  = replaceAttributes fuel m (List.length (done ++ [a]))
      (ROptions (Some ((done ++ [a]) ++ rest)) incs virt).
Proof.
  intro Ha. simpl. rewrite nth_error_here, (fieldAt_own m a Ha).
  now rewrite length_app, Nat.add_comm, <- app_assoc.
Qed.

Lemma replaceAttributes_closed (m : model vfield) (v : nat) :
  forall todo done incs virt,
    virtualCount m todo = v ->
    NoDup (done ++ todo) ->
    (forall k, In k done -> isBase m k) ->
    (forall k, In k todo -> closedReference m k) ->
    exists fuel u incs' virt',
      (forall fuel', fuel <= fuel' ->
         replaceAttributes fuel' m (List.length done)
           (ROptions (Some (done ++ todo)) incs virt)
         = Return (ROptions (Some u) incs' virt'))
      /\ NoDup u
      /\ (forall x, In x u -> isBase m x).
Proof.
  induction v as [|v IHv]; induction todo as [|a rest IHrest];
    intros done incs virt Hv Hnd Hdone Htodo.
  1, 3: exists 1, done, incs, virt; rewrite app_nil_r in *; repeat split;
    [ intros [|f] Hf; [lia|]; simpl; now rewrite nth_error_end
    | assumption | assumption ].
  all: pose proof (Htodo a (or_introl eq_refl)) as Hca;
    unfold closedReference in Hca;
    destruct (lookup a (fields m)) as [[|f]|] eqn:Ha; [| |contradiction].
  1, 3: destruct (IHrest (done ++ [a]) incs virt)
      as (fuel & u & incs' & virt' & Hrun & Hu & Hb);
    [ unfold virtualCount in *; simpl in Hv; unfold isVirtual at 1 in Hv;
      now rewrite Ha in Hv
    | now rewrite <- app_assoc
    | intros k Hk; apply in_app_iff in Hk;
      destruct Hk as [Hk|[<-|[]]]; auto
    | intros k Hk; apply Htodo; now right
    | exists (S fuel), u, incs', virt'; repeat split; try assumption;
      intros [|f'] Hf; [lia|];
      rewrite replaceAttributes_base by assumption; apply Hrun; lia ].
  - unfold virtualCount in Hv. simpl in Hv. unfold isVirtual at 1 in Hv.
    rewrite Ha in Hv. discriminate.
  - destruct Hca as (l & Hl & Hbase).
    set (new := filter (fun x => negb (inb x (done ++ a :: rest)))
                       (firstOccurrences l)).
    assert (Hnew : forall x, In x new -> isBase m x).
    { intros x Hx. apply filter_In in Hx. apply Hbase.
      now apply firstOccurrences_In. }
    assert (Hincs : forall fuel',
               replaceAttributes (S fuel') m (List.length done)
                 (ROptions (Some (done ++ a :: rest)) incs virt)
               = replaceAttributes fuel' m (List.length done)
                   (ROptions (Some (done ++ rest ++ new))
                      (rincludes (mergeRequested
                                    (ROptions (Some (done ++ a :: rest))
                                              incs virt)
                                    (fieldClause f)))
                      (virt ++ [a]))).
    { intro fuel'. simpl. rewrite nth_error_here, (fieldAt_own m a Ha).
      unfold fieldClause. simpl. rewrite Hl. simpl.
      rewrite (union_NoDup_l _ Hnd), <- app_assoc. simpl.
      now rewrite removeAt_here. }
    destruct (IHv (rest ++ new) done
                (rincludes (mergeRequested
                              (ROptions (Some (done ++ a :: rest)) incs virt)
                              (fieldClause f)))
                (virt ++ [a]))
      as (fuel & u & incs' & virt' & Hrun & Hu & Hb).
    + rewrite virtualCount_app, (@virtualCount_base m new Hnew).
      unfold virtualCount in *. simpl in Hv. unfold isVirtual at 1 in Hv.
      rewrite Ha in Hv. simpl in Hv. lia.
    + assert (Hall : NoDup ((done ++ a :: rest) ++ new)).
      { unfold new. rewrite <- (union_NoDup_l l Hnd). apply union_NoDup. }
      rewrite <- app_assoc in Hall. simpl in Hall.
      now apply NoDup_remove_1 in Hall.
    + assumption.
    + intros k Hk. apply in_app_iff in Hk. destruct Hk as [Hk|Hk].
      * apply Htodo. now right.
      * unfold closedReference. now rewrite (Hnew k Hk).
    + exists (S fuel), u, incs', virt'. repeat split; try assumption.
      intros [|f'] Hf; [lia|]. rewrite Hincs. apply Hrun. lia.
Qed.

(** ** Expanding a find *)

(** C1.  With [Person {name}], [Task {name}] associated to [Person], and
    [Task.Label] declaring attributes [['name']] and an include of
    [Person] with attributes [['name']], a find on [Task] with
    [{attributes: ['Label']}] is rewritten to [{attributes: ['name'],
    include: [{model: Person, attributes: ['name']}]}], and the recorded
    virtual fields are [['Label']]. *)
Theorem expand_label_request :
  forall mergeOrders,
    expandRequest mergeOrders 5 (initVirtualFields 5 labelSchema) "Task"
      (ROptions (Some ["Label"]) None []) DNoOrder
    = Return (ROptions (Some ["name"])
                (Some [RInclude "Person" None (Some ["name"]) None []])
                ["Label"],
              DNoOrder).
Proof. intro mergeOrders. vm_compute. reflexivity. Qed.

(** C2, at the inputs where the code leaves a virtual field behind.
    At schema time, [Task.X] declares [['name', 'name', 'V', 'W']]: once
    [V] is merged, [_.union] drops the second ['name'], the list is one
    shorter than the loop index assumes, and [W], a virtual field, stays
    in the closed list.  At query time, a find with
    [['name', 'name', 'Label']] keeps ['Label'] in the same way: the list
    is shortened by the merge and [splice(i, 1)] then removes nothing. *)
Theorem duplicate_attributes_leave_virtual_field :
  initializedField (initVirtualFields 5 duplicateSchema) "Task" "X"
  = Some (VField (Some ["name"; "W"]) None None)
  /\ initializedField (initVirtualFields 5 duplicateSchema) "Task" "W"
     = Some (VField (Some ["name"]) None None)
  /\ (forall mergeOrders,
         expandRequest mergeOrders 5 (initVirtualFields 5 labelSchema) "Task"
           (ROptions (Some ["name"; "name"; "Label"]) None []) DNoOrder
         = Return (ROptions (Some ["name"; "Label"])
                     (Some [RInclude "Person" None (Some ["name"]) None []])
                     ["Label"],
                   DNoOrder))
  /\ initializedField (initVirtualFields 5 labelSchema) "Task" "Label"
     = Some (VField (Some ["name"])
               (Some [Include "Person" None (Some ["name"]) None]) None).
Proof.
  repeat split; try intro; vm_compute; reflexivity.
Qed.

(** ** The cycle check *)

Lemma node_eqb_eq (a b : node) : node_eqb a b = true <-> a = b.
Proof.
  destruct a as [a1 a2], b as [b1 b2]. unfold node_eqb. simpl.
  rewrite andb_true_iff, !String.eqb_eq. intuition congruence.
Qed.

Lemma memb_In (n : node) (l : list node) : memb n l = true <-> In n l.
Proof.
  unfold memb. rewrite existsb_exists. split.
  - intros [x [Hx He]]. apply node_eqb_eq in He. now subst.
  - intro H. exists n. split; [assumption | now apply node_eqb_eq].
Qed.

Lemma firstSome_Some {A B} (f : A -> option B) (l : list A) (b : B) :
  firstSome f l = Some b -> exists a, In a l /\ f a = Some b.
Proof.
  induction l as [|a l IH]; simpl; [discriminate|].
  destruct (f a) as [b'|] eqn:E.
  - intros [= <-]. exists a. auto.
  - intro H. destruct (IH H) as (a' & Ha & Hf). exists a'. auto.
Qed.

Lemma firstSome_None {A B} (f : A -> option B) (l : list A) :
  firstSome f l = None -> forall a, In a l -> f a = None.
Proof.
  induction l as [|a l IH]; simpl; [contradiction|].
  destruct (f a) eqn:E; [discriminate|].
  intros H a' [<-|Ha]; auto.
Qed.

Section Visit.

Variable edges : list edge.

Lemma visit_sound :
  forall fuel predecessors n c,
    (forall p, In p predecessors ->
               clos_trans node (references edges) p n) ->
    visit edges fuel predecessors n = Some c ->
    onCycle edges c.
Proof.
  induction fuel as [|fuel IH]; intros preds n c Hpath H; simpl in H;
    destruct (memb n preds) eqn:Hm.
  1, 3: injection H as <-; apply memb_In in Hm; now apply Hpath.
  - discriminate.
  - apply firstSome_Some in H. destruct H as ([a b] & He & H).
    simpl in H. destruct (node_eqb a n) eqn:Ea; [|discriminate].
    apply node_eqb_eq in Ea. subst a.
    apply (IH (n :: preds) b c); [|exact H].
    intros p [<-|Hp].
    + now apply t_step.
    + apply t_trans with n; [now apply Hpath | now apply t_step].
Qed.

Lemma visit_deeper n predecessors fuel :
  In n (map fst edges) ->
  NoDup predecessors ->
  ~ In n predecessors ->
  incl predecessors (map fst edges) ->
  List.length edges < List.length predecessors + fuel ->
  exists fuel',
    fuel = S fuel'
    /\ visit edges fuel predecessors n
       = firstSome (fun e =>
                      if node_eqb (fst e) n
                      then visit edges fuel' (n :: predecessors) (snd e)
                      else None) edges.
Proof.
  intros Hout Hnd Hn Hincl Hfuel.
  assert (Hlen : List.length (n :: predecessors) <= List.length edges).
  { apply Nat.le_trans with (List.length (map fst edges)).
    - apply NoDup_incl_length.
      + now constructor.
      + intros x [<-|Hx]; auto.
    - now rewrite length_map. }
  destruct fuel as [|fuel]; [simpl in *; lia|].
  exists fuel. split; [reflexivity|]. simpl.
  destruct (memb n predecessors) eqn:Hm; [|reflexivity].
  apply memb_In in Hm. contradiction.
Qed.

Lemma visit_found fuel predecessors t :
  In t predecessors -> visit edges fuel predecessors t = Some t.
Proof.
  intro H. apply memb_In in H. destruct fuel; simpl; now rewrite H.
Qed.

Lemma visit_complete :
  forall n t,
    clos_trans_1n node (references edges) n t ->
    forall fuel predecessors,
      NoDup predecessors ->
      ~ In n predecessors ->
      incl predecessors (map fst edges) ->
      List.length edges < List.length predecessors + fuel ->
      In t (n :: predecessors) ->
      visit edges fuel predecessors n <> None.
Proof.
  intros n t Hpath.
  induction Hpath as [n t Hstep | n y t Hstep Hrest IH];
    intros fuel preds Hnd Hn Hincl Hfuel Ht.
  - assert (Hout : In n (map fst edges))
      by (apply in_map_iff; now exists (n, t)).
    destruct (@visit_deeper n preds fuel Hout Hnd Hn Hincl Hfuel)
      as (fuel' & -> & ->).
    intro Hnone. apply (firstSome_None _ _ Hnone) in Hstep. simpl in Hstep.
    rewrite (proj2 (node_eqb_eq n n) eq_refl) in Hstep.
    now rewrite (@visit_found fuel' (n :: preds) t Ht) in Hstep.
  - assert (Hout : In n (map fst edges))
      by (apply in_map_iff; now exists (n, y)).
    destruct (@visit_deeper n preds fuel Hout Hnd Hn Hincl Hfuel)
      as (fuel' & -> & ->).
    intro Hnone. apply (firstSome_None _ _ Hnone) in Hstep. simpl in Hstep.
    rewrite (proj2 (node_eqb_eq n n) eq_refl) in Hstep.
    assert (Hy : ~ In y (n :: preds)).
    { intro Hy. now rewrite (@visit_found fuel' (n :: preds) y Hy) in Hstep. }
    revert Hstep. apply IH.
    + now constructor.
    + exact Hy.
    + intros x [<-|Hx]; auto.
    + simpl in *. lia.
    + now right.
Qed.

Lemma findCycle_sound (c : node) :
  findCycle edges = Some c -> onCycle edges c.
Proof.
  unfold findCycle. intro H. apply firstSome_Some in H.
  destruct H as (e & _ & H).
  apply (@visit_sound (S (List.length edges)) [] (fst e) c); [|exact H].
  intros p [].
Qed.

Lemma findCycle_complete (n : node) :
  onCycle edges n -> exists c, findCycle edges = Some c.
Proof.
  intro H. apply clos_trans_t1n in H.
  assert (Hout : exists t, In (n, t) edges)
    by (inversion H; subst; eauto).
  destruct Hout as (t & Ht).
  destruct (findCycle edges) as [c|] eqn:E; [now exists c|].
  unfold findCycle in E. apply (firstSome_None _ _ E) in Ht. simpl in Ht.
  exfalso. revert Ht.
  apply (@visit_complete n n H (S (List.length edges)) []).
  - constructor.
  - intros [].
  - intros x [].
  - simpl. lia.
  - now left.
Qed.

End Visit.

(** ** Only the cycle check reports a circular dependency *)

Lemma throwsOnly_bind {A B} P (r : result A) (k : A -> result B) :
  throwsOnly P r -> (forall a, throwsOnly P (k a)) -> throwsOnly P (bind r k).
Proof. destruct r; simpl; auto. Qed.

Lemma throwsOnly_mapM {A B} P (f : A -> result B) (l : list A) :
  (forall a, throwsOnly P (f a)) -> throwsOnly P (mapM f l).
Proof.
  intro Hf. induction l as [|a l IH]; simpl; [exact I|].
  apply throwsOnly_bind; [apply Hf|]. intro b.
  apply throwsOnly_bind; [exact IH|]. intro bs. exact I.
Qed.

Lemma failsOnly_forEachState {A S} P (body : S -> A -> result S)
  (left : S -> A -> S) :
  (forall s a, throwsOnly P (body s a)) ->
  forall l s, failsOnly P (forEachState body left l s).
Proof.
  intros Hb. induction l as [|a l IH]; intro s; simpl; [exact I|].
  specialize (Hb s a). destruct (body s a); simpl in *; auto.
Qed.

Lemma include_induction (P : include -> Prop) :
  (forall m a attrs incs,
      match incs with Some l => Forall P l | None => True end ->
      P (Include m a attrs incs)) ->
  forall i, P i.
Proof.
  intro H. fix IH 1. intros [m a attrs incs]. apply H.
  destruct incs as [l|]; [|exact I].
  induction l as [|i l IHl]; constructor; [apply IH | exact IHl].
Qed.

Lemma dinclude_induction (P : dinclude -> Prop) :
  (forall s, P (DIString s)) ->
  (forall m, P (DIModel m)) ->
  (forall mv a attrs incs,
      match incs with
      | None => True
      | Some (inl d) => P d
      | Some (inr l) => Forall P l
      end ->
      P (DIObject mv a attrs incs)) ->
  forall d, P d.
Proof.
  intros Hs Hm Ho. fix IH 1.
  intros [s|m|mv a attrs incs]; [apply Hs | apply Hm |].
  apply Ho. destruct incs as [[d|l]|]; [apply IH | | exact I].
  induction l as [|d l IHl]; constructor; [apply IH | exact IHl].
Qed.

Lemma findVirtualAttributes_throws from thisModel attrs :
  throwsOnly notCircular (findVirtualAttributes from thisModel attrs).
Proof.
  unfold findVirtualAttributes. apply throwsOnly_bind; [|intro; exact I].
  apply throwsOnly_mapM. intro a.
  destruct (fieldAt thisModel a) as [[|v]|]; exact I.
Qed.

Lemma findVirtualInclude_throws ms from (i : include) :
  throwsOnly notCircular (findVirtualInclude ms from i).
Proof.
  induction i as [m a attrs incs IH] using include_induction. simpl.
  destruct (lookup m ms) as [includeModel|]; [|exact I].
  pose proof (findVirtualAttributes_throws from includeModel attrs) as Hown.
  destruct (findVirtualAttributes from includeModel attrs) as [own| |];
    [|exact Hown|exact I].
  destruct incs as [l|]; [|exact I].
  clear Hown. revert own. induction l as [|i l IHl]; intro own; [exact I|].
  inversion IH as [|? ? Hi Hl]. subst.
  destruct (findVirtualInclude ms from i) as [es| |]; [|exact Hi|exact I].
  now apply IHl.
Qed.

Lemma includeDependencies_throws ms :
  throwsOnly notCircular (includeDependencies ms).
Proof.
  unfold includeDependencies. apply throwsOnly_bind; [|intro; exact I].
  apply throwsOnly_mapM. intros [[[mn fn] m] v]. unfold findVirtual.
  apply throwsOnly_bind; [apply findVirtualAttributes_throws|]. intro own.
  apply throwsOnly_bind; [|intro; exact I].
  apply throwsOnly_mapM. intro i. apply findVirtualInclude_throws.
Qed.

Lemma mergeVirtualAttributes_throws fuel m :
  forall i c, throwsOnly notCircular (mergeVirtualAttributes fuel m i c).
Proof.
  induction fuel as [|fuel IH]; intros i c; simpl; [exact I|].
  destruct (attributes c) as [attrs|]; [|exact I].
  destruct (nth_error attrs i) as [a|]; [|exact I].
  destruct (fieldAt m a) as [[|f]|]; [apply IH | apply IH | exact I].
Qed.

Lemma mergeVirtual_throws fuel ms :
  forall m c, throwsOnly notCircular (mergeVirtual fuel ms m c).
Proof.
  induction fuel as [|fuel IH]; intros m c; [exact I|].
  cbn [mergeVirtual]. apply throwsOnly_bind.
  - apply mergeVirtualAttributes_throws.
  - intro c1. destruct (includes c1) as [incs|]; [|exact I].
    apply throwsOnly_bind; [|intro; exact I].
    apply throwsOnly_mapM. intro inc.
    destruct (lookup (imodel inc) ms) as [im|]; [|exact I].
    apply throwsOnly_bind; [apply IH | intro; exact I].
Qed.

Lemma mergeDependent_throws fuel ms dependent :
  throwsOnly notCircular (mergeDependent fuel ms dependent).
Proof.
  unfold mergeDependent.
  destruct (lookup (fst dependent) ms) as [m|]; [|exact I].
  destruct (lookup (snd dependent) (fields m)) as [[|v]|]; try exact I.
  apply throwsOnly_bind; [apply mergeVirtual_throws | intro; exact I].
Qed.

Lemma orderField_throws ms m o : throwsOnly notCircular (orderField ms m o).
Proof.
  unfold orderField. apply throwsOnly_bind.
  - unfold orderTarget. destruct (orderLength o) as [[|[|[|k]]]|]; try exact I.
    destruct (orderAt o k) as [x|]; [|exact I].
    destruct (modelProperty x) as [| |target|]; try exact I.
    destruct (lookup target ms); exact I.
  - intro t. destruct (fieldAt (fst t) (snd t)); exact I.
Qed.

Lemma orderDependencies_throws ms :
  throwsOnly notCircular (orderDependencies ms).
Proof.
  unfold orderDependencies. apply throwsOnly_bind; [|intro; exact I].
  apply throwsOnly_mapM. intros [[[mn fn] m] v].
  destruct (forder v) as [orders|]; [|exact I].
  apply throwsOnly_bind; [|intro; exact I].
  apply throwsOnly_mapM. intro o.
  apply throwsOnly_bind; [apply orderField_throws|].
  intros [[om ofn] [|f]]; exact I.
Qed.

Lemma spliceOrders_throws o fromOrders :
  forall i orders, throwsOnly notCircular (spliceOrders o fromOrders i orders).
Proof.
  induction fromOrders as [|fo fos IH]; intros i orders; simpl; [exact I|].
  apply throwsOnly_bind; [|intro; apply IH].
  destruct o as [[s|mm|mv a]|l]; exact I.
Qed.

Lemma replaceOrders_throws fuel ms m fieldName :
  forall i orders,
    throwsOnly notCircular (replaceOrders fuel ms m fieldName i orders).
Proof.
  induction fuel as [|fuel IH]; intros i orders; [exact I|].
  cbn [replaceOrders]. destruct (nth_error orders i) as [o|]; [|exact I].
  apply throwsOnly_bind; [apply orderField_throws|].
  intros [[fm fname] [|f]]; [apply IH|].
  destruct (forder f) as [[|fo fos]|]; try exact I.
  apply throwsOnly_bind; [apply spliceOrders_throws | intro; apply IH].
Qed.

Lemma orderDependent_throws ms dependent :
  throwsOnly notCircular (orderDependent ms dependent).
Proof.
  unfold orderDependent.
  destruct (lookup (fst dependent) ms) as [m|]; [|exact I].
  destruct (lookup (snd dependent) (fields m)) as [[|v]|]; try exact I.
  destruct (forder v) as [orders|]; [|exact I].
  apply throwsOnly_bind; [apply replaceOrders_throws | intro; exact I].
Qed.

Lemma inheritInclude_cycle fuel ms edges c :
  includeDependencies ms = Return edges ->
  findCycle edges = Some c ->
  inheritInclude fuel ms = Failed (CircularDependency (fst c) (snd c)) ms.
Proof.
  intros He Hc. unfold inheritInclude, toposortDependents. now rewrite He, Hc.
Qed.

Lemma inheritInclude_no_cycle fuel ms edges :
  includeDependencies ms = Return edges ->
  findCycle edges = None ->
  failsOnly notCircular (inheritInclude fuel ms).
Proof.
  intros He Hc. unfold inheritInclude, toposortDependents. rewrite He, Hc.
  apply failsOnly_forEachState. intros s a. apply mergeDependent_throws.
Qed.

Lemma inheritOrder_cycle ms edges c :
  orderDependencies ms = Return edges ->
  findCycle edges = Some c ->
  inheritOrder ms = Failed (CircularOrderDependency (fst c) (snd c)) ms.
Proof.
  intros He Hc. unfold inheritOrder, toposortDependents. now rewrite He, Hc.
Qed.

Lemma inheritOrder_no_cycle ms edges :
  orderDependencies ms = Return edges ->
  findCycle edges = None ->
  failsOnly notCircular (inheritOrder ms).
Proof.
  intros He Hc. unfold inheritOrder, toposortDependents. rewrite He, Hc.
  apply failsOnly_forEachState. intros s a. apply orderDependent_throws.
Qed.

Lemma inheritOrder_not_attribute_cycle ms mn fn st :
  inheritOrder ms <> Failed (CircularDependency mn fn) st.
Proof.
  unfold inheritOrder.
  pose proof (orderDependencies_throws ms) as Hd.
  destruct (orderDependencies ms) as [edges|e|].
  - destruct (toposortDependents edges) as [c|dependents]; [discriminate|].
    pose proof (@failsOnly_forEachState node (models vfield) notCircular
                  orderDependent orderDependentLeft
                  (fun s a => orderDependent_throws s a)
                  (rev dependents) ms) as Hf.
    intro H. rewrite H in Hf. exact Hf.
  - intro H. injection H as -> _. exact Hd.
  - discriminate.
Qed.

Lemma findCycle_None_acyclic edges :
  findCycle edges = None -> forall n, ~ onCycle edges n.
Proof.
  intros H n Hn. apply findCycle_complete in Hn. destruct Hn as (c & Hc).
  congruence.
Qed.

(** C3, as the claim states it, fails: with [A] reading [B] and [B]
    ordered by [A], the references of both kinds together form the cycle
    [A -> B -> A], and initVirtualFields returns: each of the two checks
    sees one edge only. *)
Lemma mixed_cycle_not_detected :
  parseModels mixedSchema = inl mixedParsed
  /\ includeDependencies mixedParsed = Return [(("Task", "A"), ("Task", "B"))]
  /\ orderDependencies mixedParsed = Return [(("Task", "B"), ("Task", "A"))]
  /\ onCycle ([(("Task", "A"), ("Task", "B"))]
              ++ [(("Task", "B"), ("Task", "A"))]) ("Task", "A")
  /\ initVirtualFields 5 mixedSchema
     = Initialized
         [("Task",
           Model "Task"
             [("name", Base);
              ("A", Virtual (VField (Some ["name"]) None
                               (Some [OArr [OStr "name"; OStr "ASC"]])));
              ("B", Virtual (VField (Some ["name"]) None
                               (Some [OArr [OStr "name"; OStr "ASC"]])))]
             [])].
Proof.
  split; [vm_compute; reflexivity|].
  split; [vm_compute; reflexivity|].
  split; [vm_compute; reflexivity|].
  split; [|vm_compute; reflexivity].
  apply t_trans with ("Task", "B"); apply t_step; unfold references; simpl;
    auto.
Qed.

(** The circular dependency errors, in terms of the edges that the two
    passes collect. *)
Lemma initVirtualFields_cycle_of_edges :
  forall fuel ms parsed,
    parseModels ms = inl parsed ->
    (forall edges,
        includeDependencies parsed = Return edges ->
        ((exists n, onCycle edges n) <->
         (exists mn fn,
             initVirtualFields fuel ms
             = InheritFailed (CircularDependency mn fn) parsed))
        /\ (forall mn fn st,
               initVirtualFields fuel ms
               = InheritFailed (CircularDependency mn fn) st ->
               onCycle edges (mn, fn)))
    /\ (forall included edges,
           inheritInclude fuel parsed = Done included ->
           orderDependencies included = Return edges ->
           ((exists n, onCycle edges n) <->
            (exists mn fn,
                initVirtualFields fuel ms
                = InheritFailed (CircularOrderDependency mn fn) included))
           /\ (forall mn fn st,
                  initVirtualFields fuel ms
                  = InheritFailed (CircularOrderDependency mn fn) st ->
                  onCycle edges (mn, fn))).
Proof.
  intros fuel ms parsed Hp. unfold initVirtualFields. rewrite Hp. split.
  - intros edges He. destruct (findCycle edges) as [c|] eqn:Hc.
    + rewrite (@inheritInclude_cycle fuel parsed edges c He Hc).
      pose proof (@findCycle_sound edges c Hc) as Hon. repeat split.
      * intros _. now exists (fst c), (snd c).
      * intros _. now exists c.
      * intros mn fn st [= <- <- _]. now destruct c.
    + pose proof (@inheritInclude_no_cycle fuel parsed edges He Hc) as Hf.
      pose proof (@findCycle_None_acyclic edges Hc) as Hac.
      assert (Hno : forall mn fn st,
                 match inheritInclude fuel parsed with
                 | Done included =>
                     match inheritOrder included with
                     | Done ordered => Initialized ordered
                     | Failed e st => InheritFailed e st
                     | Diverged => InitDiverged
                     end
                 | Failed e st => InheritFailed e st
                 | Diverged => InitDiverged
                 end <> InheritFailed (CircularDependency mn fn) st).
      { intros mn fn st.
        destruct (inheritInclude fuel parsed) as [inc|e st'|];
          [|intros [= -> _]; exact Hf|discriminate].
        pose proof (@inheritOrder_not_attribute_cycle inc mn fn st) as Hio.
        destruct (inheritOrder inc); try discriminate.
        intros [= -> ->]. now apply Hio. }
      repeat split.
      * intros (n & Hn). now apply Hac in Hn.
      * intros (mn & fn & H). now apply Hno in H.
      * intros mn fn st H. now apply Hno in H.
  - intros included edges Hi He. rewrite Hi.
    destruct (findCycle edges) as [c|] eqn:Hc.
    + rewrite (@inheritOrder_cycle included edges c He Hc).
      pose proof (@findCycle_sound edges c Hc) as Hon. repeat split.
      * intros _. now exists (fst c), (snd c).
      * intros _. now exists c.
      * intros mn fn st [= <- <- _]. now destruct c.
    + pose proof (@inheritOrder_no_cycle included edges He Hc) as Hf.
      pose proof (@findCycle_None_acyclic edges Hc) as Hac.
      repeat split.
      * intros (n & Hn). now apply Hac in Hn.
      * intros (mn & fn & H).
        destruct (inheritOrder included); try discriminate.
        injection H as -> _. destruct Hf.
      * intros mn fn st H.
        destruct (inheritOrder included); try discriminate.
        injection H as -> _. destruct Hf.
Qed.

(** The longer cycle [A -> B -> C -> A] is reported as well. *)
Example triangle_is_circular :
  exists mn fn st,
    initVirtualFields 5 triangleSchema
    = InheritFailed (CircularDependency mn fn) st.
Proof. do 3 eexists. vm_compute. reflexivity. Qed.

(** ** Errors during initVirtualFields *)


















(** * Further properties of the code *)

(** ** Loops that stop at the first exception *)

Lemma mapM_Return {A B} (f : A -> result B) :
  forall l l',
    mapM f l = Return l' -> Forall2 (fun a b => f a = Return b) l l'.
Proof.
  induction l as [|a l IH]; intros l' H; simpl in H.
  - injection H as <-. constructor.
  - destruct (f a) as [b| |] eqn:Ha; try discriminate. simpl in H.
    destruct (mapM f l) as [bs| |] eqn:Hl; try discriminate. simpl in H.
    injection H as <-. constructor; auto.
Qed.

Lemma mapM_all {A B} (f : A -> result B) :
  forall l l',
    Forall2 (fun a b => f a = Return b) l l' -> mapM f l = Return l'.
Proof.
  induction 1 as [|a b l l' Ha Hl IH]; simpl; [reflexivity|].
  now rewrite Ha, IH.
Qed.

Lemma mapM_first_throw {A B} (f : A -> result B) pre bs x post e :
  Forall2 (fun a b => f a = Return b) pre bs ->
  f x = Throw e ->
  mapM f (pre ++ x :: post) = Throw e.
Proof.
  intros Hpre Hx. induction Hpre as [|a b l l' Ha Hl IH]; simpl.
  - now rewrite Hx.
  - now rewrite Ha, IH.
Qed.

(** ** parseInclude: the attributes *)

(** X1.  Every name that the attributes part of parseInclude returns,
    from whatever form of [attributes], is found by
    [parent.attributes[name]]: it is a field of the parent, or a name
    that every object inherits from [Object.prototype].  An array of
    names is returned as it is exactly when every name is found so; so a
    name such as [constructor], which the parent does not declare, is
    accepted as an attribute. *)
Theorem parseAttributes_found_names :
  forall V modelName fieldName (parent : model V),
    (forall a l,
        parseAttributes modelName fieldName parent a = Return l ->
        forall s, In s l -> fieldAt parent s <> None)
    /\ (forall l,
           (forall s, In s l -> fieldAt parent s <> None) <->
           parseAttributes modelName fieldName parent
             (DAttributes (map DString l))
           = Return l)
    /\ (forall s,
           lookup s (fields parent) = None ->
           In s objectPrototype ->
           parseAttributes modelName fieldName parent
             (DAttributes [DString s])
           = Return [s]).
Proof.
  intros V modelName fieldName parent.
  set (check := fun attribute =>
                  match attribute with
                  | DOther _ => Throw (AttributeNotString modelName fieldName)
                  | DString s =>
                      match fieldAt parent s with
                      | None =>
                          Throw (NonexistentField modelName fieldName
                                   (name parent) s)
                      | Some _ => Return s
                      end
                  end).
  assert (Hpost : forall entries l,
             mapM check entries = Return l ->
             forall s, In s l -> fieldAt parent s <> None).
  { intros entries l H. apply mapM_Return in H.
    induction H as [|a b es l' Hab _ IH]; intros s Hs; [destruct Hs|].
    destruct Hs as [<-|Hs]; [|now apply IH].
    unfold check in Hab. destruct a as [s'|t]; [|discriminate].
    destruct (fieldAt parent s') eqn:E; [|discriminate].
    injection Hab as <-. congruence. }
  assert (Hall : forall l,
             (forall s, In s l -> fieldAt parent s <> None) ->
             parseAttributes modelName fieldName parent
               (DAttributes (map DString l))
             = Return l).
  { intros l Hl. unfold parseAttributes. fold check. apply mapM_all.
    induction l as [|s l IH]; simpl; constructor.
    - unfold check. destruct (fieldAt parent s) eqn:E;
        [reflexivity|]. exfalso. apply (Hl s); [now left | exact E].
    - apply IH. intros s' Hs'. apply Hl. now right. }
  split; [|split].
  - intros a l H. unfold parseAttributes in H. fold check in H.
    destruct a as [|[[|c s0]|[|]]|entries];
      try (injection H as <-; intros s []);
      now apply (Hpost _ _ H).
  - intro l. split; [apply Hall|].
    intro H. unfold parseAttributes in H. fold check in H.
    now apply (Hpost _ _ H).
  - intros s Hs Hin. apply (Hall [s]). intros s' [<-|[]].
    unfold fieldAt. rewrite Hs.
    assert (Hb : inherited s = true).
    { unfold inherited, inb. apply existsb_exists. exists s.
      split; [exact Hin | apply String.eqb_refl]. }
    rewrite Hb. discriminate.
Qed.

Lemma parseAttributes_found_names_witness :
  parseAttributes "Task" "Label"
    (Model "Task" [("name", @Base dfield); ("due", Base)] [])
    (DAttributes [DString "constructor"])
  = Return ["constructor"].
Proof.
  apply (proj2 (proj2 (@parseAttributes_found_names dfield "Task" "Label"
                         (Model "Task" [("name", Base); ("due", Base)] [])))).
  - reflexivity.
  - simpl. auto.
Defined.

(** X2.  The attributes are checked in order and the first offending
    entry decides the error: an entry that is not a string, or a string
    that [parent.attributes[name]] does not find (neither a field of the
    parent nor a name inherited from [Object.prototype]), after entries
    that are all found. *)
Theorem parseAttributes_first_error :
  forall V modelName fieldName (parent : model V) pre post,
    (forall s, In s pre -> fieldAt parent s <> None) ->
    (forall truthy,
        parseAttributes modelName fieldName parent
          (DAttributes (map DString pre ++ DOther truthy :: post))
        = Throw (AttributeNotString modelName fieldName))
    /\ (forall s,
           fieldAt parent s = None ->
           parseAttributes modelName fieldName parent
             (DAttributes (map DString pre ++ DString s :: post))
           = Throw (NonexistentField modelName fieldName (name parent) s)).
Proof.
  intros V modelName fieldName parent pre post Hpre.
  assert (Hok : Forall2
                  (fun a b =>
                     match a with
                     | DOther _ =>
                         Throw (AttributeNotString modelName fieldName)
                     | DString s =>
                         match fieldAt parent s with
                         | None =>
                             Throw (NonexistentField modelName fieldName
                                      (name parent) s)
                         | Some _ => Return s
                         end
                     end = Return b) (map DString pre) pre).
  { induction pre as [|s pre IH]; simpl; constructor.
    - destruct (fieldAt parent s) eqn:E; [reflexivity|].
      exfalso. apply (Hpre s); [now left | exact E].
    - apply IH. intros s' Hs'. apply Hpre. now right. }
  split.
  - intro truthy. unfold parseAttributes.
    now apply mapM_first_throw with (bs := pre).
  - intros s Hs. unfold parseAttributes.
    apply mapM_first_throw with (bs := pre); [exact Hok|]. now rewrite Hs.
Qed.

Lemma parseAttributes_first_error_witness :
  parseAttributes "Task" "Label"
    (Model "Task" [("name", @Base dfield)] [])
    (DAttributes (map DString ["name"; "toString"] ++ DString "nam"
                  :: [DOther true]))
  = Throw (NonexistentField "Task" "Label" "Task" "nam").
Proof.
  apply (proj2 (@parseAttributes_first_error dfield "Task" "Label"
                  (Model "Task" [("name", Base)] []) ["name"; "toString"]
                  [DOther true]
                  ltac:(intros s [<-|[<-|[]]]; discriminate))).
  reflexivity.
Defined.

(** ** parseInclude: the includes *)

Lemma wellScoped_unfold {V} (ms : models V) parent target alias attrs incs :
  wellScoped ms parent (Include target alias attrs incs)
  = match lookup target ms with
    | None => False
    | Some includeModel =>
        getAssociation parent target alias = true
        /\ (exists l, attrs = Some l
                      /\ forall s, In s l -> fieldAt includeModel s <> None)
        /\ match incs with
           | None => True
           | Some l => allScoped ms includeModel l
           end
    end.
Proof.
  simpl. destruct (lookup target ms) as [im|]; [|reflexivity].
  destruct incs as [l|]; [|reflexivity].
  f_equal. f_equal. induction l as [|x l IH]; simpl; [reflexivity|].
  now rewrite IH.
Qed.

Lemma parseClause_sound {V} (ms : models V) bare item alias clauseType
  modelName fieldName parent target includeModel a :
  parseClause ms bare item alias clauseType modelName fieldName parent
  = Return (target, includeModel, a) ->
  lookup target ms = Some includeModel
  /\ getAssociation parent target a = true
  /\ alias = asvalOf a.
Proof.
  unfold parseClause. intro H.
  assert (Htail : forall t tm,
             lookup t ms = Some tm ->
             bind (match alias with
                   | AsUndefined => Return None
                   | AsString s => Return (Some s)
                   | AsInvalid =>
                       Throw (InvalidAs clauseType modelName fieldName)
                   end)
                  (fun alias' =>
                     if getAssociation parent t alias'
                     then Return (t, tm, alias')
                     else Throw (InvalidAssociation clauseType modelName
                                   fieldName (name parent) (name tm)))
             = Return (target, includeModel, a) ->
             lookup target ms = Some includeModel
             /\ getAssociation parent target a = true
             /\ alias = asvalOf a).
  { intros t tm Hl Ht. destruct alias as [|s|]; simpl in Ht; try discriminate.
    - destruct (getAssociation parent t None) eqn:G; [|discriminate].
      injection Ht as <- <- <-. auto.
    - destruct (getAssociation parent t (Some s)) eqn:G; [|discriminate].
      injection Ht as <- <- <-. auto. }
  destruct item as [|s|s|]; simpl in H; try discriminate.
  - destruct (negb bare && String.eqb s ""); [discriminate|].
    destruct (lookup s ms) as [m|] eqn:E.
    + now apply (Htail s m E).
    + destruct (inherited s); [destruct alias|]; simpl in H; discriminate.
  - destruct (lookup s ms) as [m|] eqn:E; [|discriminate].
    now apply (Htail s m E).
Qed.

Lemma parseAttributes_fields {V} modelName fieldName (parent : model V) a l :
  parseAttributes modelName fieldName parent a = Return l ->
  forall s, In s l -> fieldAt parent s <> None.
Proof.
  intro H.
  assert (Hpost : forall entries l0,
             mapM (fun attribute =>
                     match attribute with
                     | DOther _ =>
                         Throw (AttributeNotString modelName fieldName)
                     | DString s =>
                         match fieldAt parent s with
                         | None =>
                             Throw (NonexistentField modelName fieldName
                                      (name parent) s)
                         | Some _ => Return s
                         end
                     end) entries = Return l0 ->
             forall s, In s l0 -> fieldAt parent s <> None).
  { intros entries l0 H0. apply mapM_Return in H0.
    induction H0 as [|x b es l' Hab _ IH]; intros s Hs; [destruct Hs|].
    destruct Hs as [<-|Hs]; [|now apply IH].
    destruct x as [s'|t]; [|discriminate].
    destruct (fieldAt parent s') eqn:E; [|discriminate].
    injection Hab as <-. congruence. }
  unfold parseAttributes in H.
  destruct a as [|[[|c s0]|[|]]|entries];
    try (injection H as <-; intros s []);
    now apply (Hpost _ _ H).
Qed.

Lemma parseIncludeEntry_scoped {V} (ms : models V) fieldName modelName :
  forall entry parent i,
    parseIncludeEntry ms fieldName modelName parent entry = Return i ->
    wellScoped ms parent i.
Proof.
  induction entry as [s|m|mv alias attrs incs IH] using dinclude_induction;
    intros parent i H; simpl in H.
  - destruct (parseClause ms true (MString s) AsUndefined "Include"
                modelName fieldName parent) as [[[t tm] a]| |] eqn:Hc;
      try discriminate.
    injection H as <-. apply parseClause_sound in Hc.
    destruct Hc as (Hl & Hg & _). rewrite wellScoped_unfold, Hl.
    repeat split; auto. exists []. split; [reflexivity | intros s0 []].
  - destruct (parseClause ms true (MModel m) AsUndefined "Include"
                modelName fieldName parent) as [[[t tm] a]| |] eqn:Hc;
      try discriminate.
    injection H as <-. apply parseClause_sound in Hc.
    destruct Hc as (Hl & Hg & _). rewrite wellScoped_unfold, Hl.
    repeat split; auto. exists []. split; [reflexivity | intros s0 []].
  - destruct (parseClause ms false mv alias "Include"
                modelName fieldName parent) as [[[t tm] a]| |] eqn:Hc;
      try discriminate.
    apply parseClause_sound in Hc. destruct Hc as (Hl & Hg & _).
    destruct (parseAttributes modelName fieldName tm attrs)
      as [attrs'| |] eqn:Ha; try discriminate.
    pose proof (parseAttributes_fields _ _ _ _ Ha) as Hf.
    assert (Hattrs : exists l, Some attrs' = Some l
                               /\ forall s, In s l ->
                                            fieldAt tm s <> None)
      by (exists attrs'; auto).
    destruct incs as [[single|l]|].
    + assert (Hrec : forall i',
                 parseIncludeEntry ms fieldName modelName tm single
                 = Return i' ->
                 wellScoped ms parent
                   (Include t a (Some attrs') (Some [i']))).
      { intros i' Hi. rewrite wellScoped_unfold, Hl.
        split; [exact Hg|]. split; [exact Hattrs|].
        simpl. split; [now apply IH | exact I]. }
      destruct single as [[|c s]|m|mv' a' attrs0 incs0].
      * injection H as <-. rewrite wellScoped_unfold, Hl. repeat split; auto.
      * destruct (parseIncludeEntry ms fieldName modelName tm
                    (DIString (String c s))) as [i'| |] eqn:Hi;
          try discriminate.
        injection H as <-. now apply Hrec.
      * destruct (parseIncludeEntry ms fieldName modelName tm (DIModel m))
          as [i'| |] eqn:Hi; try discriminate.
        injection H as <-. now apply Hrec.
      * destruct (parseIncludeEntry ms fieldName modelName tm
                    (DIObject mv' a' attrs0 incs0)) as [i'| |] eqn:Hi;
          try discriminate.
        injection H as <-. now apply Hrec.
    + match type of H with
      | match ?e with _ => _ end = _ => destruct e as [is'| |] eqn:He
      end; try discriminate.
      injection H as <-. rewrite wellScoped_unfold, Hl.
      repeat split; auto.
      clear - IH He. revert is' He.
      induction l as [|d l IHl]; intros is' He.
      * injection He as <-. exact I.
      * inversion IH as [|? ? Hd Hrest]. subst.
        destruct (parseIncludeEntry ms fieldName modelName tm d)
          as [i'| |] eqn:Hi; try discriminate.
        match type of He with
        | match ?e with _ => _ end = _ => destruct e as [is0| |] eqn:He0
        end; try discriminate.
        injection He as <-. simpl. split; [now apply Hd | now apply IHl].
    + injection H as <-. rewrite wellScoped_unfold, Hl. repeat split; auto.
Qed.

Lemma parseInclude_scoped {V} (ms : models V) fieldName (m : model V) d c :
  parseInclude ms fieldName (name m) m d = Return c ->
  wellScopedClause ms m c.
Proof.
  unfold parseInclude. intro H.
  destruct (parseAttributes (name m) fieldName m (dattrs d))
    as [attrs| |] eqn:Ha; try discriminate. simpl in H.
  pose proof (parseAttributes_fields _ _ _ _ Ha) as Hf.
  assert (Hnone : wellScopedClause ms m (Clause (Some attrs) None))
    by (split; [exists attrs; auto | exact I]).
  assert (Hsome : forall entries incs,
             mapM (parseIncludeEntry ms fieldName (name m) m) entries
             = Return incs ->
             wellScopedClause ms m (Clause (Some attrs) (Some incs))).
  { intros entries incs Hm. split; [exists attrs; auto|]. simpl.
    apply mapM_Return in Hm.
    induction Hm as [|e i es is' Hei _ IH]; simpl; [exact I|].
    split; [now apply parseIncludeEntry_scoped in Hei | exact IH]. }
  destruct (dincludes d) as [[single|l]|].
  - destruct single as [[|ch s]|mm|mv a attrs0 incs0];
      try (injection H as <-; exact Hnone);
      match type of H with
      | bind ?e _ = _ => destruct e as [incs| |] eqn:Hm
      end; try discriminate; injection H as <-; now apply (Hsome _ _ Hm).
  - destruct (mapM (parseIncludeEntry ms fieldName (name m) m) l)
      as [incs| |] eqn:Hm; try discriminate.
    injection H as <-. now apply (Hsome _ _ Hm).
  - injection H as <-. exact Hnone.
Qed.

(** X3.  A virtual field that parseField accepts is well scoped: its
    attributes are present and each of them is found by
    [model.attributes[name]] on its model (a field of the model, or a
    name inherited from [Object.prototype]), and every include, at any
    depth, is on a model of the registry to which its parent has an
    association under the include's [as], with attributes that are
    present and found in the same way on that model. *)
Theorem parseField_well_scoped :
  forall V (ms : models V) fieldName (m : model V) d v,
    parseField ms fieldName m d = Return v ->
    wellScopedClause ms m (fieldClause v).
Proof.
  intros V ms fieldName m d v H. unfold parseField in H.
  destruct (parseInclude ms fieldName (name m) m d) as [c| |] eqn:Hc;
    try discriminate. simpl in H.
  destruct (parseOrder ms fieldName m (dorders d)) as [o| |];
    try discriminate. simpl in H. injection H as <-.
  apply parseInclude_scoped in Hc. destruct c. exact Hc.
Qed.

Lemma parseField_well_scoped_witness :
  wellScopedClause labelSchema
    (Model "Task"
       [("name", Base); ("PersonId", Base);
        ("Label",
         Virtual (DField (DAttributes [DString "name"])
                    (Some (inr [DIObject (MString "Person") AsUndefined
                                  (DAttributes [DString "name"]) None]))
                    DNoOrder))]
       [("Person", None)])
    (fieldClause
       (VField (Some ["name"])
          (Some [Include "Person" None (Some ["name"]) None]) None)).
Proof.
  apply (@parseField_well_scoped dfield labelSchema "Label" _
           (DField (DAttributes [DString "name"])
              (Some (inr [DIObject (MString "Person") AsUndefined
                            (DAttributes [DString "name"]) None]))
              DNoOrder)).
  reflexivity.
Defined.

(** ** The shape of the registry *)

Lemma traverse_done {A B C} (f : A -> B + error * C) untouched rewritten :
  forall l bs,
    traverse f untouched rewritten l = inl bs ->
    Forall2 (fun a b => f a = inl b) l bs.
Proof.
  induction l as [|a l IH]; intros bs H; simpl in H.
  - injection H as <-. constructor.
  - destruct (f a) as [b|[e c]] eqn:Ha; [|discriminate].
    destruct (traverse f untouched rewritten l) as [bs'|[e cs]];
      [|discriminate].
    injection H as <-. constructor; auto.
Qed.

Lemma lookup_same {A B} (o : list (string * A)) (o' : list (string * B))
  (R : A -> B -> Prop) :
  Forall2 (fun kv kv' => fst kv = fst kv' /\ R (snd kv) (snd kv')) o o' ->
  forall k,
    match lookup k o, lookup k o' with
    | Some v, Some v' => R v v'
    | None, None => True
    | _, _ => False
    end.
Proof.
  induction 1 as [|[k0 v0] [k0' v0'] o o' [Hk Hv] _ IH]; intro k; simpl.
  - exact I.
  - simpl in Hk, Hv. subst k0'. destruct (String.eqb k0 k); [exact Hv|].
    apply IH.
Qed.

Lemma sameRegistry_lookup {V W} (ms : models V) (ms' : models W) k m :
  sameRegistry ms ms' ->
  lookup k ms = Some m ->
  exists m', lookup k ms' = Some m' /\ sameModel m m'.
Proof.
  intros H Hm. pose proof (@lookup_same _ _ ms ms' _ H k) as Hk.
  rewrite Hm in Hk.
  destruct (lookup k ms') as [m'|]; [|contradiction]. now exists m'.
Qed.

Lemma sameModel_field {V W} (m : model V) (m' : model W) s :
  sameModel m m' ->
  lookup s (fields m) <> None ->
  lookup s (fields m') <> None.
Proof.
  intros (_ & _ & H) Hs.
  pose proof (@lookup_same _ _ (fields m) (fields m') _ H s) as Hk.
  destruct (lookup s (fields m)); [|now destruct Hs].
  destruct (lookup s (fields m')); [discriminate | destruct Hk].
Qed.

Lemma sameModel_fieldAt {V W} (m : model V) (m' : model W) s :
  sameModel m m' ->
  fieldAt m s <> None ->
  fieldAt m' s <> None.
Proof.
  intros (_ & _ & H) Hs. unfold fieldAt in *.
  pose proof (@lookup_same _ _ (fields m) (fields m') _ H s) as Hk.
  set (x := lookup s (fields m)) in *. set (y := lookup s (fields m')) in *.
  destruct x, y; try discriminate; try (now destruct Hk).
  destruct (inherited s); [discriminate | now destruct Hs].
Qed.

Lemma sameModel_getAssociation {V W} (m : model V) (m' : model W) t a :
  sameModel m m' -> getAssociation m' t a = getAssociation m t a.
Proof. intros (_ & H & _). unfold getAssociation. now rewrite H. Qed.

Lemma wellScoped_same {V W} (ms : models V) (ms' : models W) :
  sameRegistry ms ms' ->
  forall i parent parent',
    sameModel parent parent' ->
    wellScoped ms parent i -> wellScoped ms' parent' i.
Proof.
  intro Hr.
  induction i as [t a attrs incs IH] using include_induction.
  intros parent parent' Hp H. rewrite wellScoped_unfold in H.
  rewrite wellScoped_unfold.
  destruct (lookup t ms) as [im|] eqn:Ht; [|destruct H].
  destruct (@sameRegistry_lookup _ _ ms ms' t im Hr Ht) as (im' & Ht' & Him).
  rewrite Ht'. destruct H as (Hg & (l & -> & Hl) & Hincs).
  split; [now rewrite (@sameModel_getAssociation _ _ parent parent' t a Hp)|].
  split; [exists l; split; [reflexivity|];
          intros s Hs; apply (@sameModel_fieldAt _ _ im im' s Him); auto|].
  destruct incs as [incs|]; [|exact I].
  induction incs as [|x incs IHincs]; simpl in *; [exact I|].
  inversion IH as [|? ? Hx Hrest]. subst. destruct Hincs as [H1 H2].
  split; [now apply (Hx im im') | now apply IHincs].
Qed.

Lemma parseFieldOf_done (ms : models dfield) m kf kf' :
  parseFieldOf ms m kf = inl kf' ->
  fst kf = fst kf'
  /\ match snd kf, snd kf' with
     | Base, Base => True
     | Virtual d, Virtual v => parseField ms (fst kf) m d = Return v
     | _, _ => False
     end.
Proof.
  unfold parseFieldOf. destruct (snd kf) as [|d].
  - intros [= <-]. simpl. auto.
  - destruct (parseField ms (fst kf) m d) as [v| |] eqn:E; try discriminate.
    intros [= <-]. simpl. auto.
Qed.

Lemma parseModel_done (ms : models dfield) km km' :
  parseModel ms km = inl km' ->
  fst km = fst km'
  /\ name (snd km) = name (snd km')
  /\ associations (snd km) = associations (snd km')
  /\ Forall2 (fun kf kf' => parseFieldOf ms (snd km) kf = inl kf')
             (fields (snd km)) (fields (snd km')).
Proof.
  unfold parseModel. intro H.
  match type of H with
  | match ?t with _ => _ end = _ => destruct t as [fs|[err fs]] eqn:Ht
  end; [|discriminate].
  injection H as <-. simpl. repeat split. now apply traverse_done in Ht.
Qed.

Lemma parseModel_sameModel (ms : models dfield) km km' :
  parseModel ms km = inl km' ->
  fst km = fst km' /\ sameModel (snd km) (snd km').
Proof.
  intro H. apply parseModel_done in H.
  destruct H as (Hk & Hn & Ha & Hf). split; [exact Hk|].
  split; [exact Hn|]. split; [exact Ha|].
  eapply Forall2_impl; [|exact Hf]. intros kf kf' Hkf.
  apply parseFieldOf_done in Hkf. destruct Hkf as [Hfst Hsnd].
  split; [exact Hfst|]. unfold sameKind.
  destruct (snd kf), (snd kf'); auto.
Qed.

Lemma parseModels_sameRegistry (ms : models dfield) parsed :
  parseModels ms = inl parsed -> sameRegistry ms parsed.
Proof.
  unfold parseModels. intro H. apply traverse_done in H.
  eapply Forall2_impl; [|exact H]. intros km km' Hkm.
  now apply (@parseModel_sameModel ms km km').
Qed.

(** X4.  Parsing keeps the shape of the registry: the same models in the
    same order under the same names, with the same associations, and in
    every model the same fields in the same order, each base or virtual
    as it was declared. *)
Theorem parseModels_keeps_shape :
  forall ms parsed,
    parseModels ms = inl parsed ->
    sameRegistry ms parsed
    /\ map fst parsed = map fst ms
    /\ (forall k m,
           lookup k ms = Some m ->
           exists m', lookup k parsed = Some m'
                      /\ name m' = name m
                      /\ associations m' = associations m
                      /\ map fst (fields m') = map fst (fields m)
                      /\ forall s, isVirtual m' s = isVirtual m s).
Proof.
  intros ms parsed H. apply parseModels_sameRegistry in H.
  split; [exact H|]. split.
  - clear - H. induction H as [|km km' l l' [Hk _] _ IH]; simpl;
      [reflexivity|]. now rewrite IH, Hk.
  - intros k m Hm.
    destruct (@sameRegistry_lookup _ _ ms parsed k m H Hm)
      as (m' & Hm' & Hn & Ha & Hf).
    exists m'. repeat split; auto.
    + clear - Hf. induction Hf as [|kf kf' l l' [Hk _] _ IH]; simpl;
        [reflexivity|]. now rewrite IH, Hk.
    + intro s. unfold isVirtual.
      pose proof (@lookup_same _ _ (fields m) (fields m') _ Hf s) as Hs.
      destruct (lookup s (fields m)) as [[|d]|],
               (lookup s (fields m')) as [[|v]|];
        simpl in Hs; try reflexivity; destruct Hs.
Qed.

Lemma parseModels_keeps_shape_witness :
  sameRegistry labelSchema
    [("Person", Model "Person" [("name", Base)] [("Task", None)]);
     ("Task",
      Model "Task"
        [("name", Base); ("PersonId", Base);
         ("Label",
          Virtual (VField (Some ["name"])
                     (Some [Include "Person" None (Some ["name"]) None])
                     None))]
        [("Person", None)])].
Proof.
  apply (proj1 (@parseModels_keeps_shape labelSchema _ eq_refl)).
Defined.

(** ** The graph of inheritInclude after a successful parse *)

Lemma mapM_exists {A B} (f : A -> result B) (l : list A) :
  (forall a, In a l -> exists b, f a = Return b) ->
  exists bs, mapM f l = Return bs.
Proof.
  induction l as [|a l IH]; intro H; simpl.
  - now exists [].
  - destruct (H a (or_introl eq_refl)) as (b & Hb).
    destruct IH as (bs & Hbs); [intros x Hx; apply H; now right|].
    exists (b :: bs). now rewrite Hb, Hbs.
Qed.

Lemma Forall2_In_r {A B} (P : A -> B -> Prop) l l' b :
  Forall2 P l l' -> In b l' -> exists a, In a l /\ P a b.
Proof.
  induction 1 as [|x y l l' Hxy _ IH]; intros Hb; [destruct Hb|].
  destruct Hb as [<-|Hb].
  - exists x. split; [now left | exact Hxy].
  - destruct (IH Hb) as (a & Ha & Hp). exists a. split; [now right | exact Hp].
Qed.

Lemma findVirtualAttributes_returns from (m : model vfield) attrs :
  (forall l, attrs = Some l ->
             forall s, In s l -> fieldAt m s <> None) ->
  exists es, findVirtualAttributes from m attrs = Return es.
Proof.
  intro H. unfold findVirtualAttributes.
  match goal with
  | |- context [mapM ?f ?l] =>
      destruct (@mapM_exists _ _ f l) as (own & Hown)
  end.
  - intros s Hs. destruct attrs as [l|]; [|destruct Hs].
    specialize (H l eq_refl s Hs).
    destruct (fieldAt m s) as [[|v]|]; eauto. now destruct H.
  - rewrite Hown. simpl. eauto.
Qed.

Lemma findVirtualInclude_returns (ms : models vfield) from :
  forall i parent,
    wellScoped ms parent i ->
    exists es, findVirtualInclude ms from i = Return es.
Proof.
  induction i as [t a attrs incs IH] using include_induction.
  intros parent H. rewrite wellScoped_unfold in H. simpl.
  destruct (lookup t ms) as [im|]; [|destruct H].
  destruct H as (_ & (l & -> & Hl) & Hincs).
  destruct (@findVirtualAttributes_returns from im (Some l)) as (own & Hown).
  { intros l0 [= <-]. exact Hl. }
  rewrite Hown. destruct incs as [incs|]; [|eauto].
  clear Hown. revert own.
  induction incs as [|x incs IHincs]; intro own; [eauto|].
  inversion IH as [|? ? Hx Hrest]. subst. simpl in Hincs.
  destruct Hincs as [H1 H2]. destruct (Hx im H1) as (es & Hes).
  rewrite Hes. now apply IHincs.
Qed.

Lemma findVirtual_returns (ms : models vfield) from c m :
  wellScopedClause ms m c ->
  exists es, findVirtual ms from c m = Return es.
Proof.
  intros [(l & Hattrs & Hl) Hincs]. unfold findVirtual.
  destruct (@findVirtualAttributes_returns from m (attributes c))
    as (own & Hown).
  { intros l0 Hl0. rewrite Hattrs in Hl0. injection Hl0 as <-. exact Hl. }
  rewrite Hown. simpl.
  destruct (@mapM_exists include (list edge) (findVirtualInclude ms from)
              (match includes c with Some l0 => l0 | None => [] end))
    as (nested & Hnested).
  - intros i Hi. destruct (includes c) as [incs|]; [|destruct Hi].
    induction incs as [|x incs IH]; [destruct Hi|]. simpl in Hincs.
    destruct Hincs as [H1 H2]. destruct Hi as [<-|Hi].
    + now apply (findVirtualInclude_returns ms from x m).
    + now apply IH.
  - rewrite Hnested. simpl. eauto.
Qed.

Lemma wellScopedClause_same {V W} (ms : models V) (ms' : models W)
  parent parent' c :
  sameRegistry ms ms' ->
  sameModel parent parent' ->
  wellScopedClause ms parent c -> wellScopedClause ms' parent' c.
Proof.
  intros Hr Hp [(l & Hattrs & Hl) Hincs]. split.
  - exists l. split; [exact Hattrs|]. intros s Hs.
    apply (@sameModel_fieldAt _ _ parent parent' s Hp). now apply Hl.
  - destruct (includes c) as [incs|]; [|exact I].
    induction incs as [|x incs IH]; simpl in *; [exact I|].
    destruct Hincs as [H1 H2]. split; [|now apply IH].
    now apply (@wellScoped_same _ _ ms ms' Hr x parent parent').
Qed.

Lemma parsed_virtualFields (ms : models dfield) parsed mn fn m' v :
  parseModels ms = inl parsed ->
  In (mn, fn, m', v) (virtualFields parsed) ->
  exists m d, sameModel m m' /\ parseField ms fn m d = Return v.
Proof.
  intros Hp Hin. unfold parseModels in Hp. apply traverse_done in Hp.
  unfold virtualFields in Hin. apply in_flat_map in Hin.
  destruct Hin as ([k pm] & Hkm & Hin). apply in_flat_map in Hin.
  destruct Hin as ([fk pf] & Hkf & Hin).
  destruct pf as [|pv]; [destruct Hin|].
  destruct Hin as [Heq|[]]. injection Heq as -> -> -> ->.
  destruct (Forall2_In_r _ Hp Hkm) as ([k0 m] & _ & Hmodel).
  pose proof (@parseModel_sameModel ms _ _ Hmodel) as [_ Hsame].
  apply parseModel_done in Hmodel. destruct Hmodel as (_ & _ & _ & Hfields).
  simpl in *. destruct (Forall2_In_r _ Hfields Hkf) as ([fk0 df] & _ & Hf).
  apply parseFieldOf_done in Hf. simpl in Hf. destruct Hf as [-> Hf].
  destruct df as [|d]; [destruct Hf|]. now exists m, d.
Qed.

Lemma parseField_scoped {V} (ms : models V) fieldName (m : model V) d v :
  parseField ms fieldName m d = Return v ->
  wellScopedClause ms m (fieldClause v).
Proof.
  intro H. unfold parseField in H.
  destruct (parseInclude ms fieldName (name m) m d) as [c| |] eqn:Hc;
    try discriminate. simpl in H.
  destruct (parseOrder ms fieldName m (dorders d)) as [o| |];
    try discriminate. simpl in H. injection H as <-.
  apply parseInclude_scoped in Hc. destruct c. exact Hc.
Qed.

Lemma includeDependencies_parsed ms parsed :
  parseModels ms = inl parsed ->
  exists edges, includeDependencies parsed = Return edges.
Proof.
  intro Hp. unfold includeDependencies.
  match goal with
  | |- context [mapM ?f ?l] =>
      destruct (@mapM_exists _ _ f l) as (ess & Hess)
  end.
  - intros [[[mn fn] m'] v] Hin.
    destruct (@parsed_virtualFields ms parsed mn fn m' v Hp Hin)
      as (m & d & Hsame & Hd).
    apply findVirtual_returns.
    apply (@wellScopedClause_same _ _ ms parsed m m' (fieldClause v)).
    + now apply parseModels_sameRegistry.
    + exact Hsame.
    + now apply (@parseField_scoped _ ms fn m d v).
  - rewrite Hess. simpl. eauto.
Qed.

(** X5.  Once every virtual field has been parsed, the first loop of
    inheritInclude finds every field and every model it reads: the
    dependencies are built without an exception, so inheritInclude gets
    as far as its sort. *)
Theorem parsed_registry_dependencies_built :
  forall ms parsed,
    parseModels ms = inl parsed ->
    exists edges, includeDependencies parsed = Return edges.
Proof. intros ms parsed. apply includeDependencies_parsed. Qed.

Lemma parsed_registry_dependencies_built_witness :
  exists edges, includeDependencies mixedParsed = Return edges.
Proof.
  apply (@parsed_registry_dependencies_built mixedSchema mixedParsed).
  vm_compute. reflexivity.
Defined.

(** ** Raw strings in the order of a virtual field *)

Lemma returnsOrThrows_bind {A B} e (r : result A) (k : A -> result B) :
  returnsOrThrows e r -> (forall a, returnsOrThrows e (k a)) ->
  returnsOrThrows e (bind r k).
Proof. destruct r; simpl; auto. Qed.

Lemma returnsOrThrows_mapM {A B} e (f : A -> result B) (l : list A) :
  (forall a, returnsOrThrows e (f a)) -> returnsOrThrows e (mapM f l).
Proof.
  intro Hf. induction l as [|a l IH]; simpl; [exact I|].
  apply returnsOrThrows_bind; [apply Hf|]. intro b.
  apply returnsOrThrows_bind; [exact IH|]. intro bs. exact I.
Qed.

Lemma mapM_some_throw {A B} e (f : A -> result B) (l : list A) x :
  (forall a, returnsOrThrows e (f a)) ->
  In x l -> f x = Throw e -> mapM f l = Throw e.
Proof.
  intros Hf Hx Hthrow. induction l as [|a l IH]; [destruct Hx|]. simpl.
  pose proof (Hf a) as Ha. destruct (f a) as [b|e'|] eqn:E; simpl in *.
  - destruct Hx as [->|Hx]; [congruence|]. now rewrite (IH Hx).
  - now subst.
  - destruct Ha.
Qed.

Lemma orderField_TypeError ms m o :
  returnsOrThrows TypeError (orderField ms m o).
Proof.
  unfold orderField. apply returnsOrThrows_bind.
  - unfold orderTarget. destruct (orderLength o) as [[|[|[|k]]]|]; try exact I.
    destruct (orderAt o k) as [x|]; [|reflexivity].
    destruct (modelProperty x) as [| |target|]; try reflexivity.
    destruct (lookup target ms); [exact I | reflexivity].
  - intro t. destruct (fieldAt (fst t) (snd t));
      [exact I | reflexivity].
Qed.

Lemma orderField_raw_string ms m s :
  2 < String.length s ->
  orderField ms m (OItem (OStr s)) = Throw TypeError.
Proof.
  intro H. unfold orderField, orderTarget, orderLength.
  destruct (String.length s) as [|[|[|k]]] eqn:E; try lia.
  unfold orderAt. destruct (String.get k s); reflexivity.
Qed.

Lemma orderDependencies_raw_string ms mn fn m v orders s :
  In (mn, fn, m, v) (virtualFields ms) ->
  forder v = Some orders ->
  In (OItem (OStr s)) orders ->
  2 < String.length s ->
  orderDependencies ms = Throw TypeError.
Proof.
  intros Hin Ho Hs Hlen. unfold orderDependencies.
  match goal with
  | |- bind (mapM ?f ?l) _ = _ =>
      assert (Hm : mapM f l = Throw TypeError)
  end.
  - apply mapM_some_throw with (x := (mn, fn, m, v)); [|exact Hin|].
    + intros [[[mn0 fn0] m0] v0]. destruct (forder v0) as [os|]; [|exact I].
      apply returnsOrThrows_bind; [|intro; exact I].
      apply returnsOrThrows_mapM. intro o.
      apply returnsOrThrows_bind; [apply orderField_TypeError|].
      intros [[om ofn] [|f]]; exact I.
    + rewrite Ho.
      match goal with
      | |- bind (mapM ?f ?l) _ = _ =>
          assert (Hm : mapM f l = Throw TypeError)
      end.
      * apply mapM_some_throw with (x := OItem (OStr s)); [|exact Hs|].
        -- intro o. apply returnsOrThrows_bind; [apply orderField_TypeError|].
           intros [[om ofn] [|f]]; exact I.
        -- now rewrite orderField_raw_string.
      * now rewrite Hm.
  - now rewrite Hm.
Qed.

Lemma lookup_Forall2 {A B} (P : string * A -> string * B -> Prop) o o' :
  Forall2 P o o' ->
  (forall x y, P x y -> fst x = fst y) ->
  forall k v,
    lookup k o = Some v ->
    exists v', lookup k o' = Some v' /\ P (k, v) (k, v').
Proof.
  intros H Hfst. induction H as [|[k0 v0] [k0' v0'] o o' Hp _ IH];
    intros k v Hk; simpl in *; [discriminate|].
  pose proof (Hfst _ _ Hp) as Hk0. simpl in Hk0. subst k0'.
  destruct (String.eqb k0 k) eqn:E.
  - apply String.eqb_eq in E. subst k0. injection Hk as <-. now exists v0'.
  - now apply IH.
Qed.

Lemma parsed_field (ms : models dfield) parsed mk m fk d :
  parseModels ms = inl parsed ->
  lookup mk ms = Some m ->
  lookup fk (fields m) = Some (Virtual d) ->
  exists m' v,
    lookup mk parsed = Some m'
    /\ lookup fk (fields m') = Some (Virtual v)
    /\ parseField ms fk m d = Return v.
Proof.
  intros Hp Hm Hf. unfold parseModels in Hp. apply traverse_done in Hp.
  destruct (@lookup_Forall2 _ _
              (fun km km' => parseModel ms km = inl km') ms parsed Hp)
    with (k := mk) (v := m) as (m' & Hm' & Hmodel); [|exact Hm|].
  { intros x y Hxy. now apply parseModel_done in Hxy. }
  apply parseModel_done in Hmodel. simpl in Hmodel.
  destruct Hmodel as (_ & _ & _ & Hfields).
  destruct (@lookup_Forall2 _ _
              (fun kf kf' => parseFieldOf ms m kf = inl kf')
              (fields m) (fields m') Hfields)
    with (k := fk) (v := @Virtual dfield d) as (f' & Hf' & Hfield);
    [|exact Hf|].
  { intros x y Hxy. now apply parseFieldOf_done in Hxy. }
  apply parseFieldOf_done in Hfield. simpl in Hfield.
  destruct Hfield as [_ Hfield]. destruct f' as [|v]; [destruct Hfield|].
  now exists m', v.
Qed.

Lemma parseField_keeps_raw_string {V} (ms : models V) fk (m : model V) d v
  orders s :
  parseField ms fk m d = Return v ->
  dorders d = DOrders orders ->
  In (OItem (OStr s)) orders ->
  exists orders', forder v = Some orders' /\ In (OItem (OStr s)) orders'.
Proof.
  intros H Ho Hs. unfold parseField in H.
  destruct (parseInclude ms fk (name m) m d) as [c| |]; try discriminate.
  simpl in H. rewrite Ho in H. unfold parseOrder in H.
  destruct (mapM (parseOrderEntry ms fk m) orders) as [orders'| |] eqn:Hm;
    try discriminate.
  simpl in H. injection H as <-. exists orders'. split; [reflexivity|].
  apply mapM_Return in Hm. clear - Hm Hs.
  induction Hm as [|o o' l l' Ho _ IH]; [destruct Hs|].
  destruct Hs as [->|Hs]; [|right; now apply IH].
  simpl in Ho. injection Ho as <-. now left.
Qed.

Lemma inheritInclude_sameOrders fuel ms ms' :
  inheritInclude fuel ms = Done ms' -> sameOrders ms ms'.
Proof.
  intro H. unfold inheritInclude in H.
  destruct (includeDependencies ms) as [deps| |]; try discriminate.
  destruct (toposortDependents deps) as [n|dependents]; [discriminate|].
  pose proof (@forEachState_invariant node (models vfield) sameOrders
                (mergeDependent fuel) (mergeDependentLeft fuel)
                (fun s mk fk => eq_refl)
                (fun s1 s2 s3 H12 H23 mk fk =>
                   eq_trans (H23 mk fk) (H12 mk fk))
                (fun s a s' => @mergeDependent_sameOrders fuel s a s')
                (fun s a => @mergeDependentLeft_sameOrders fuel s a)
                (rev dependents) ms) as Hinv.
  now rewrite H in Hinv.
Qed.

Lemma lookup_In {A} k (v : A) o : lookup k o = Some v -> In (k, v) o.
Proof.
  induction o as [|[k0 v0] o IH]; simpl; [discriminate|].
  destruct (String.eqb k0 k) eqn:E.
  - apply String.eqb_eq in E. subst. intros [= <-]. now left.
  - intro H. right. now apply IH.
Qed.

Lemma fieldOf_virtualFields {V} (ms : models V) mk fk v :
  fieldOf ms mk fk = Some (Virtual v) ->
  exists m, In (mk, fk, m, v) (virtualFields ms).
Proof.
  unfold fieldOf. destruct (lookup mk ms) as [m|] eqn:Hm; [|discriminate].
  intro Hf. exists m. unfold virtualFields. apply in_flat_map.
  exists (mk, m). split; [now apply lookup_In|].
  apply in_flat_map. exists (fk, Virtual v).
  split; [now apply lookup_In | now left].
Qed.

(** X6.  A raw string of more than two characters in the order of a
    virtual field, which parseOrder leaves alone, stops initVirtualFields:
    when the parse and inheritInclude get through, inheritOrder reads
    [.model] of one character of the string and throws a TypeError; no
    call on such a registry returns. *)
Theorem raw_order_string_stops_initialization :
  forall fuel ms mk m fk d orders s,
    lookup mk ms = Some m ->
    lookup fk (fields m) = Some (Virtual d) ->
    dorders d = DOrders orders ->
    In (OItem (OStr s)) orders ->
    2 < String.length s ->
    (forall closed, initVirtualFields fuel ms <> Initialized closed)
    /\ (forall parsed included,
           parseModels ms = inl parsed ->
           inheritInclude fuel parsed = Done included ->
           initVirtualFields fuel ms = InheritFailed TypeError included).
Proof.
  intros fuel ms mk m fk d orders s Hm Hf Ho Hs Hlen.
  assert (Hfail : forall parsed included,
             parseModels ms = inl parsed ->
             inheritInclude fuel parsed = Done included ->
             inheritOrder included = Failed TypeError included).
  { intros parsed included Hp Hi.
    destruct (@parsed_field ms parsed mk m fk d Hp Hm Hf)
      as (m' & v & Hm' & Hf' & Hv).
    destruct (@parseField_keeps_raw_string _ ms fk m d v orders s Hv Ho Hs)
      as (orders' & Hov & Hs').
    pose proof (@inheritInclude_sameOrders fuel parsed included Hi mk fk)
      as Hsame.
    unfold fieldOf in Hsame at 2. rewrite Hm', Hf' in Hsame.
    simpl in Hsame. rewrite Hov in Hsame.
    destruct (fieldOf included mk fk) as [[|v'']|] eqn:Hfo;
      simpl in Hsame; try discriminate.
    injection Hsame as Hov''.
    destruct (@fieldOf_virtualFields _ included mk fk v'' Hfo) as (m'' & Hin).
    unfold inheritOrder.
    now rewrite (@orderDependencies_raw_string included mk fk m'' v''
                   orders' s Hin Hov'' Hs' Hlen). }
  split.
  - intros closed H. unfold initVirtualFields in H.
    destruct (parseModels ms) as [parsed|[e st]] eqn:Hp; [|discriminate].
    destruct (inheritInclude fuel parsed) as [included| |] eqn:Hi;
      try discriminate.
    now rewrite (Hfail parsed included eq_refl Hi) in H.
  - intros parsed included Hp Hi. unfold initVirtualFields.
    now rewrite Hp, Hi, (Hfail parsed included Hp Hi).
Qed.

Lemma raw_order_string_stops_initialization_witness :
  initVirtualFields 5 rawOrderSchema
  = InheritFailed TypeError
      [("Task",
        Model "Task"
          [("name", Base);
           ("Label", Virtual (VField (Some ["name"]) None
                                (Some [OItem (OStr "name DESC")])))]
          [])].
Proof.
  apply (proj2 (@raw_order_string_stops_initialization 5 rawOrderSchema
                  "Task"
                  (Model "Task"
                     [("name", Base);
                      ("Label",
                       Virtual (DField (DAttributes [DString "name"]) None
                                  (DOrders [OItem (OStr "name DESC")])))]
                     [])
                  "Label"
                  (DField (DAttributes [DString "name"]) None
                     (DOrders [OItem (OStr "name DESC")]))
                  [OItem (OStr "name DESC")] "name DESC"
                  eq_refl eq_refl eq_refl (or_introl eq_refl)
                  ltac:(simpl; lia))
           [("Task",
             Model "Task"
               [("name", Base);
                ("Label", Virtual (VField (Some ["name"]) None
                                     (Some [OItem (OStr "name DESC")])))]
               [])]);
    vm_compute; reflexivity.
Defined.

(** ** parseOrder *)

Lemma parseOrderEntry_cases {V} (ms : models V) fieldName (m : model V) o :
  parseOrderEntry ms fieldName m o
  = match o with
    | OItem (OStr _) => Return o
    | OItem x => checkOrderClause ms fieldName m [x; OStr "ASC"]
    | OArr [] => Throw (InvalidOrder (name m) fieldName)
    | OArr [x] => checkOrderClause ms fieldName m [x; OStr "ASC"]
    | OArr l => l' <- parseDirection l ;; checkOrderClause ms fieldName m l'
    end.
Proof.
  destruct o as [[s|mm|mv a]|[|x [|y l]]]; reflexivity.
Qed.

Lemma split_last_two {A} (l : list A) :
  2 <= List.length l -> exists path a b, l = path ++ [a; b].
Proof.
  induction l as [|x l IH]; simpl; [lia|]. intro H.
  destruct l as [|y l]; [simpl in H; lia|].
  destruct l as [|z l].
  - now exists [], x, y.
  - destruct IH as (path & a & b & E); [simpl; lia|].
    exists (x :: path), a, b. simpl. now rewrite E.
Qed.

Lemma toUpperCase_direction d :
  isDirection (toUpperCase d) = true ->
  toUpperCase d = "ASC" \/ toUpperCase d = "DESC".
Proof.
  unfold isDirection. intro H. apply orb_true_iff in H.
  destruct H as [H|H]; apply String.eqb_eq in H; auto.
Qed.

Lemma parseDirection_normal l l' :
  2 <= List.length l ->
  parseDirection l = Return l' ->
  exists path a direction,
    l' = path ++ [a; OStr direction]
    /\ (direction = "ASC" \/ direction = "DESC").
Proof.
  intros Hlen H. destruct (split_last_two l Hlen) as (path & a & b & ->).
  unfold parseDirection in H. rewrite last_two, removelast_two in H.
  destruct b as [d| |]; try discriminate.
  destruct (isDirection (toUpperCase d)) eqn:E; injection H as <-.
  - exists path, a, (toUpperCase d). rewrite <- app_assoc. simpl.
    split; [reflexivity | now apply toUpperCase_direction].
  - exists (path ++ [a]), (OStr d), "ASC". rewrite <- !app_assoc. simpl.
    auto.
Qed.

Lemma parseOrderPath_normal {V} (ms : models V) modelName fieldName :
  forall path parent path' parent',
    parseOrderPath ms modelName fieldName parent path
    = Return (path', parent') ->
    Forall (isModelForm ms) path'
    /\ parseOrderPath ms modelName fieldName parent path'
       = Return (path', parent').
Proof.
  induction path as [|x path IH]; intros parent path' parent' H; simpl in H.
  - injection H as <- <-. split; [constructor | reflexivity].
  - match type of H with
    | bind ?c _ = _ => destruct c as [[[t tm] a]| |] eqn:Hc
    end; try discriminate. simpl in H.
    destruct (parseOrderPath ms modelName fieldName tm path)
      as [[rest' p']| |] eqn:Hrest; try discriminate.
    simpl in H. injection H as <- <-.
    destruct (IH tm rest' p' Hrest) as [Hall Hagain].
    assert (Hs : lookup t ms = Some tm
                 /\ getAssociation parent t a = true).
    { destruct x as [s|s|mv al]; apply parseClause_sound in Hc; tauto. }
    destruct Hs as [Hl Hg]. split.
    + constructor; [|exact Hall]. exists t, a. split; [reflexivity|].
      congruence.
    + simpl. unfold parseClause. rewrite Hl. simpl.
      destruct a as [al|]; simpl; rewrite Hg; simpl; now rewrite Hagain.
Qed.

Lemma checkOrderClause_normal {V} (ms : models V) fieldName (m : model V)
  path a direction o' :
  checkOrderClause ms fieldName m (path ++ [a; OStr direction]) = Return o' ->
  exists path',
    o' = OArr (path' ++ [a; OStr direction])
    /\ Forall (isModelForm ms) path'
    /\ checkOrderClause ms fieldName m (path' ++ [a; OStr direction])
       = Return o'.
Proof.
  unfold checkOrderClause. intro H.
  assert (Hn : forall p : list oitem,
             List.length (p ++ [a; OStr direction]) - 2 = List.length p)
    by (intro p; rewrite length_app; simpl; lia).
  rewrite Hn, firstn_path, nth_error_here, skipn_path in H.
  destruct (parseOrderPath ms (name m) fieldName m path)
    as [[path' parent']| |] eqn:Hp; try discriminate.
  destruct (parseOrderPath_normal _ _ _ _ _ Hp) as [Hall Hagain].
  exists path'. rewrite Hn, firstn_path, nth_error_here, skipn_path, Hagain.
  simpl in *. destruct a as [attribute|mm|mv al].
  - destruct (fieldAt parent' attribute); [|discriminate].
    injection H as <-. auto.
  - injection H as <-. auto.
  - injection H as <-. auto.
Qed.

Lemma parseOrderEntry_twice {V} (ms : models V) fieldName (m : model V)
  path a direction :
  direction = "ASC" \/ direction = "DESC" ->
  parseOrderEntry ms fieldName m (OArr (path ++ [a; OStr direction]))
  = checkOrderClause ms fieldName m (path ++ [a; OStr direction]).
Proof.
  intro Hd. rewrite parseOrderEntry_cases.
  assert (Hdir : parseDirection (path ++ [a; OStr direction])
                 = Return (path ++ [a; OStr direction])).
  { unfold parseDirection. rewrite last_two, removelast_two.
    destruct Hd as [-> | ->]; simpl; now rewrite <- app_assoc. }
  destruct path as [|x [|y path]]; simpl in *.
  - now rewrite Hdir.
  - now rewrite Hdir.
  - now rewrite Hdir.
Qed.

Lemma parseOrderEntry_result {V} (ms : models V) fieldName (m : model V)
  o o' :
  parseOrderEntry ms fieldName m o = Return o' ->
  ((exists s, o = OItem (OStr s)) /\ o' = o
   \/ normalClause ms o')
  /\ parseOrderEntry ms fieldName m o' = Return o'.
Proof.
  intro H. rewrite parseOrderEntry_cases in H.
  assert (Hcheck : forall path a direction,
             direction = "ASC" \/ direction = "DESC" ->
             checkOrderClause ms fieldName m (path ++ [a; OStr direction])
             = Return o' ->
             normalClause ms o'
             /\ parseOrderEntry ms fieldName m o' = Return o').
  { intros path a direction Hd Hc.
    destruct (checkOrderClause_normal _ _ _ _ _ _ Hc)
      as (path' & -> & Hall & Hagain).
    split; [now exists path', a, direction|].
    now rewrite parseOrderEntry_twice. }
  assert (Hdir : forall l,
             2 <= List.length l ->
             bind (parseDirection l) (checkOrderClause ms fieldName m)
             = Return o' ->
             normalClause ms o'
             /\ parseOrderEntry ms fieldName m o' = Return o').
  { intros l Hlen Hb.
    destruct (parseDirection l) as [l'| |] eqn:Hp; try discriminate.
    destruct (parseDirection_normal l Hlen Hp) as (path & a & d & -> & Hd).
    now apply (Hcheck path a d). }
  destruct o as [[s|mm|mv al]|[|x [|y l]]].
  - injection H as <-. split; [left; eauto | reflexivity].
  - destruct (Hcheck [] (OModel mm) "ASC" (or_introl eq_refl) H); auto.
  - destruct (Hcheck [] (OObj mv al) "ASC" (or_introl eq_refl) H); auto.
  - discriminate.
  - destruct (Hcheck [] x "ASC" (or_introl eq_refl) H); auto.
  - destruct (Hdir (x :: y :: l) ltac:(simpl; lia) H); auto.
Qed.

(** X7.  An order entry that parseOrder accepts is either a raw string,
    left as it is, or ends up as an array of models of the registry in
    [{model: model}] form, followed by the attribute and by ASC or
    DESC. *)
Theorem parseOrderEntry_normal_form :
  forall V (ms : models V) fieldName (m : model V) o o',
    parseOrderEntry ms fieldName m o = Return o' ->
    (exists s, o = OItem (OStr s)) /\ o' = o
    \/ normalClause ms o'.
Proof.
  intros V ms fieldName m o o' H.
  now destruct (parseOrderEntry_result _ _ _ _ H).
Qed.

Lemma parseOrderEntry_normal_form_witness :
  (exists s, OArr [OModel "Person"; OStr "name"; OStr "desc"] = OItem (OStr s))
  /\ OArr [OObj (MModel "Person") AsUndefined; OStr "name"; OStr "DESC"]
     = OArr [OModel "Person"; OStr "name"; OStr "desc"]
  \/ normalClause labelSchema
       (OArr [OObj (MModel "Person") AsUndefined; OStr "name"; OStr "DESC"]).
Proof.
  apply (@parseOrderEntry_normal_form dfield labelSchema "Label"
           (Model "Task" [("name", Base)] [("Person", None)])).
  reflexivity.
Defined.

(** X8.  parseOrder is idempotent on an entry: parsing again what it
    returned returns the same entry. *)
Theorem parseOrderEntry_idempotent :
  forall V (ms : models V) fieldName (m : model V) o o',
    parseOrderEntry ms fieldName m o = Return o' ->
    parseOrderEntry ms fieldName m o' = Return o'.
Proof.
  intros V ms fieldName m o o' H.
  now destruct (parseOrderEntry_result _ _ _ _ H).
Qed.

Lemma parseOrderEntry_idempotent_witness :
  parseOrderEntry labelSchema "Label"
    (Model "Task" [("name", @Base dfield)] [("Person", None)])
    (OArr [OObj (MModel "Person") AsUndefined; OStr "name"; OStr "DESC"])
  = Return (OArr [OObj (MModel "Person") AsUndefined; OStr "name";
                  OStr "DESC"]).
Proof.
  apply (@parseOrderEntry_idempotent dfield labelSchema "Label"
           (Model "Task" [("name", Base)] [("Person", None)])
           (OArr [OModel "Person"; OStr "name"; OStr "desc"])).
  reflexivity.
Defined.

(** ** The loop of inheritOrder ends *)

Lemma removeAt_length {A} (l : list A) :
  forall i, i < List.length l ->
            List.length (removeAt i l) = List.length l - 1.
Proof.
  induction l as [|x l IH]; intros i Hi; [simpl in Hi; lia|].
  destruct i as [|i]; simpl; [lia|].
  simpl in Hi. rewrite IH by lia. lia.
Qed.

Lemma insertAt_length {A} (x : A) (l : list A) :
  forall i, List.length (insertAt i x l) = S (List.length l).
Proof.
  induction l as [|y l IH]; intros [|i]; simpl; auto.
Qed.

Lemma spliceOrders_lengths o fromOrders :
  forall i orders,
    match spliceOrders o fromOrders i orders with
    | Return (orders', i') =>
        List.length orders' = List.length orders + List.length fromOrders
        /\ i' = i + List.length fromOrders
    | Throw _ => True
    | OutOfFuel => False
    end.
Proof.
  induction fromOrders as [|fo fos IH]; intros i orders; simpl.
  - split; lia.
  - destruct (concatBase o fo) as [c| |] eqn:Hc; simpl.
    + specialize (IH (S i) (insertAt i c orders)).
      destruct (spliceOrders o fos (S i) (insertAt i c orders))
        as [[orders' i']| |]; auto.
      rewrite insertAt_length in IH. lia.
    + exact I.
    + destruct o as [[s|mm|mv a]|l]; discriminate.
Qed.

Lemma replaceOrders_ends ms m fieldName :
  forall fuel i orders,
    List.length orders - i < fuel ->
    replaceOrders fuel ms m fieldName i orders <> OutOfFuel.
Proof.
  induction fuel as [|fuel IH]; intros i orders Hfuel; [lia|].
  cbn [replaceOrders].
  destruct (nth_error orders i) as [o|] eqn:Hn; [|discriminate].
  assert (Hi : i < List.length orders)
    by (apply nth_error_Some; congruence).
  pose proof (orderField_TypeError ms m o) as Hof.
  destruct (orderField ms m o) as [[[fm fname] [|f]]|e|]; simpl in *;
    try discriminate.
  - apply IH. lia.
  - destruct (forder f) as [[|fo fos]|]; try discriminate.
    pose proof (spliceOrders_lengths o (fo :: fos) i (removeAt i orders))
      as Hs.
    destruct (spliceOrders o (fo :: fos) i (removeAt i orders))
      as [[orders' i']| |]; simpl; try discriminate.
    + apply IH. destruct Hs as [Hl ->].
      rewrite Hl, removeAt_length by exact Hi. simpl. lia.
    + destruct Hs.
  - destruct Hof.
Qed.

Lemma orderDependencies_TypeError ms :
  returnsOrThrows TypeError (orderDependencies ms).
Proof.
  unfold orderDependencies. apply returnsOrThrows_bind; [|intro; exact I].
  apply returnsOrThrows_mapM. intros [[[mn fn] m] v].
  destruct (forder v) as [os|]; [|exact I].
  apply returnsOrThrows_bind; [|intro; exact I].
  apply returnsOrThrows_mapM. intro o.
  apply returnsOrThrows_bind; [apply orderField_TypeError|].
  intros [[om ofn] [|f]]; exact I.
Qed.

(** X9.  The loop of inheritOrder over the clauses of a field ends: it
    never needs more rounds than one for each clause from the index on
    and one to leave, whatever is spliced in on the way; and inheritOrder
    as a whole returns or throws. *)
Theorem inheritOrder_ends :
  (forall ms m fieldName fuel i orders,
      List.length orders - i < fuel ->
      replaceOrders fuel ms m fieldName i orders <> OutOfFuel)
  /\ (forall ms, inheritOrder ms <> Diverged).
Proof.
  split; [intros; now apply replaceOrders_ends|].
  intro ms. unfold inheritOrder.
  pose proof (orderDependencies_TypeError ms) as Hd.
  destruct (orderDependencies ms) as [deps|e|]; [|discriminate|destruct Hd].
  destruct (toposortDependents deps) as [c|dependents]; [discriminate|].
  generalize (rev dependents) ms. clear.
  induction l as [|a l IH]; intro ms; simpl; [discriminate|].
  assert (Hbody : orderDependent ms a <> OutOfFuel).
  { unfold orderDependent.
    destruct (lookup (fst a) ms) as [m|]; [|discriminate].
    destruct (lookup (snd a) (fields m)) as [[|v]|]; try discriminate.
    destruct (forder v) as [orders|]; [|discriminate].
    pose proof (@replaceOrders_ends ms m (snd a) (S (List.length orders)) 0
                  orders ltac:(lia)) as Hr.
    destruct (replaceOrders (S (List.length orders)) ms m (snd a) 0 orders);
      simpl; congruence. }
  destruct (orderDependent ms a) as [s'|e|]; [apply IH | discriminate |].
  now destruct Hbody.
Qed.

Lemma inheritOrder_ends_witness :
  replaceOrders 2 [("Task", titleTask)] titleTask "Title" 0
    [OArr [OStr "Label"; OStr "ASC"]]
  <> OutOfFuel.
Proof.
  apply (proj1 inheritOrder_ends). simpl. lia.
Defined.

(** ** A virtual field without order *)

Lemma replaceOrders_prefix ms m fieldName :
  forall pre expansions done rest k,
    Forall2 (fun o e => expandOrder ms m o = Some e) pre expansions ->
    replaceOrders (List.length pre + k) ms m fieldName (List.length done)
      (done ++ pre ++ rest)
    = replaceOrders k ms m fieldName
        (List.length (done ++ List.concat expansions))
        ((done ++ List.concat expansions) ++ rest).
Proof.
  induction pre as [|o pre IH]; intros expansions done rest k Hexp.
  - inversion Hexp. subst. simpl. now rewrite !app_nil_r.
  - inversion Hexp as [|o' e pre' es He Hes]. subst.
    cbn [List.length Nat.add replaceOrders app].
    rewrite nth_error_here.
    unfold expandOrder in He. destruct o as [x|clause]; [discriminate|].
    destruct (orderField ms m (OArr clause)) as [[[fm fname] [|f]]| |];
      try discriminate; cbn [bind].
    + injection He as <-.
      specialize (IH es (done ++ [OArr clause]) rest k Hes).
      replace (List.length (done ++ [OArr clause]))
        with (S (List.length done)) in IH
        by (rewrite length_app; simpl; lia).
      replace ((done ++ [OArr clause]) ++ pre ++ rest)
        with (done ++ OArr clause :: pre ++ rest) in IH
        by (now rewrite <- app_assoc).
      replace ((done ++ [OArr clause]) ++ List.concat es)
        with (done ++ List.concat ([OArr clause] :: es)) in IH
        by (simpl; now rewrite <- app_assoc).
      exact IH.
    + destruct (forder f) as [[|fo fos]|]; try discriminate.
      injection He as <-. rewrite removeAt_here, spliceOrders_spec.
      cbn [bind fst snd].
      specialize (IH es (done ++ map (prependPath clause) (fo :: fos))
                    rest k Hes).
      replace ((done ++ map (prependPath clause) (fo :: fos)) ++ pre ++ rest)
        with (done ++ map (prependPath clause) (fo :: fos) ++ pre ++ rest)
        in IH by (now rewrite <- app_assoc).
      replace ((done ++ map (prependPath clause) (fo :: fos))
               ++ List.concat es)
        with (done
              ++ List.concat (map (prependPath clause) (fo :: fos) :: es))
        in IH by (cbn [List.concat]; now rewrite <- app_assoc).
      exact IH.
Qed.

(** X10.  When the clauses before it can all be replaced or kept, the
    first clause on a virtual field that has no order, or an empty one,
    makes the loop of inheritOrder throw, naming the field being closed
    and the field referred to. *)
Theorem replaceOrders_missing_order :
  forall ms m fieldName pre expansions clause rest fuel fromModel
         fromFieldName fromField,
    Forall2 (fun o e => expandOrder ms m o = Some e) pre expansions ->
    orderField ms m (OArr clause)
    = Return (fromModel, fromFieldName, Virtual fromField) ->
    forder fromField = None \/ forder fromField = Some [] ->
    List.length pre < fuel ->
    replaceOrders fuel ms m fieldName 0 (pre ++ OArr clause :: rest)
    = Throw (MissingOrderClause (name m) fieldName (name fromModel)
               fromFieldName).
Proof.
  intros ms m fieldName pre expansions clause rest fuel fromModel
         fromFieldName fromField Hexp Hof Hno Hfuel.
  replace fuel with (List.length pre + (fuel - List.length pre)) by lia.
  pose proof (@replaceOrders_prefix ms m fieldName pre expansions []
                (OArr clause :: rest) (fuel - List.length pre) Hexp) as Hp.
  cbn [app List.length] in Hp. rewrite Hp. clear Hp.
  destruct (fuel - List.length pre) as [|k] eqn:E; [lia|].
  cbn [replaceOrders]. rewrite nth_error_here, Hof. cbn [bind].
  destruct Hno as [-> | ->]; reflexivity.
Qed.

Lemma replaceOrders_missing_order_witness :
  replaceOrders 2 [("Task", unorderedTask)] unorderedTask "Title" 0
    ([OArr [OStr "name"; OStr "ASC"]]
     ++ OArr [OStr "Label"; OStr "ASC"] :: [])
  = Throw (MissingOrderClause (name unorderedTask) "Title"
             (name unorderedTask) "Label").
Proof.
  apply (@replaceOrders_missing_order [("Task", unorderedTask)]
           unorderedTask "Title"
           [OArr [OStr "name"; OStr "ASC"]]
           [[OArr [OStr "name"; OStr "ASC"]]]
           [OStr "Label"; OStr "ASC"] [] 2 unorderedTask "Label"
           (VField (Some ["name"]) None None)).
  - constructor; [vm_compute; reflexivity | constructor].
  - vm_compute. reflexivity.
  - now left.
  - simpl. lia.
Defined.

(** ** Lists without duplicates *)

(** X11.  On an attribute list without duplicates whose virtual fields
    are closed, the loop of mergeVirtual ends, and the list it leaves
    has base fields only, no duplicates, and every base field the list
    had. *)
Theorem mergeVirtual_loop_closes :
  forall (m : model vfield) attrs incs,
    NoDup attrs ->
    (forall k, In k attrs -> closedReference m k) ->
    exists fuel u incs',
      (forall fuel', fuel <= fuel' ->
         mergeVirtualAttributes fuel' m 0 (Clause (Some attrs) incs)
         = Return (Clause (Some u) incs'))
      /\ NoDup u
      /\ (forall x, In x u -> isBase m x)
      /\ (forall k, In k attrs -> isBase m k -> In k u).
Proof.
  intros m attrs incs Hnd Hclosed.
  destruct (@mergeVirtualAttributes_closed m (virtualCount m attrs)
              attrs [] incs eq_refl Hnd)
    as (fuel & u & incs' & Hrun & Hu & Hb & _ & Hin).
  - intros k [].
  - exact Hclosed.
  - exists fuel, u, incs'. repeat split; try assumption.
    intros k Hk Hbase. specialize (Hin k Hk). unfold isBase in Hbase.
    now rewrite Hbase in Hin.
Qed.

Lemma mergeVirtual_loop_closes_witness :
  exists fuel u incs',
    (forall fuel', fuel <= fuel' ->
       mergeVirtualAttributes fuel' diamond 0
         (Clause (Some ["c1"; "C"]) None)
       = Return (Clause (Some u) incs'))
    /\ NoDup u
    /\ (forall x, In x u -> isBase diamond x)
    /\ (forall k, In k ["c1"; "C"] -> isBase diamond k -> In k u).
Proof.
  apply (@mergeVirtual_loop_closes diamond ["c1"; "C"] None).
  - repeat constructor; simpl; intuition discriminate.
  - intros k [<-|[<-|[]]]; unfold closedReference; simpl; [exact I|].
    exists ["c1"; "c2"]. split; [reflexivity|].
    intros x [<-|[<-|[]]]; reflexivity.
Defined.

Lemma replaceAttributes_records (m : model vfield) (v : nat) :
  forall todo done incs virt,
    virtualCount m todo = v ->
    NoDup (done ++ todo) ->
    (forall k, In k done -> isBase m k) ->
    (forall k, In k todo -> closedReference m k) ->
    exists fuel u incs',
      (forall fuel', fuel <= fuel' ->
         replaceAttributes fuel' m (List.length done)
           (ROptions (Some (done ++ todo)) incs virt)
         = Return (ROptions (Some u) incs'
                     (virt ++ filter (isVirtual m) todo)))
      /\ NoDup u
      /\ (forall x, In x u -> isBase m x)
      /\ incl done u
      /\ (forall k, In k todo -> isBase m k -> In k u).
Proof.
  induction v as [|v IHv]; induction todo as [|a rest IHrest];
    intros done incs virt Hv Hnd Hdone Htodo.
  1, 3: exists 1, done, incs; rewrite app_nil_r in *; repeat split;
    [ intros [|f] Hf; [lia|]; simpl; now rewrite nth_error_end, app_nil_r
    | assumption | assumption | apply incl_refl | intros k [] ].
  all: pose proof (Htodo a (or_introl eq_refl)) as Hca;
    unfold closedReference in Hca;
    destruct (lookup a (fields m)) as [[|f]|] eqn:Ha; [| |contradiction].
  1, 3: destruct (IHrest (done ++ [a]) incs virt)
      as (fuel & u & incs' & Hrun & Hu & Hb & Hincl & Hin);
    [ unfold virtualCount in *; simpl in Hv; unfold isVirtual at 1 in Hv;
      now rewrite Ha in Hv
    | now rewrite <- app_assoc
    | intros k Hk; apply in_app_iff in Hk;
      destruct Hk as [Hk|[<-|[]]]; auto
    | intros k Hk; apply Htodo; now right
    | exists (S fuel), u, incs'; repeat split; try assumption;
      [ intros [|f'] Hf; [lia|];
        rewrite (@replaceAttributes_base f' m done a rest incs virt Ha);
        simpl; unfold isVirtual at 1; rewrite Ha; apply Hrun; lia
      | intros k Hk; apply Hincl, in_app_iff; now left
      | intros k [<-|Hk] Hbk;
        [apply Hincl, in_app_iff; right; now left | now apply Hin] ] ].
  - unfold virtualCount in Hv. simpl in Hv. unfold isVirtual at 1 in Hv.
    rewrite Ha in Hv. discriminate.
  - destruct Hca as (l & Hl & Hbase).
    set (new := filter (fun x => negb (inb x (done ++ a :: rest)))
                       (firstOccurrences l)).
    assert (Hnew : forall x, In x new -> isBase m x).
    { intros x Hx. apply filter_In in Hx. apply Hbase.
      now apply firstOccurrences_In. }
    assert (Hincs : forall fuel',
               replaceAttributes (S fuel') m (List.length done)
                 (ROptions (Some (done ++ a :: rest)) incs virt)
               = replaceAttributes fuel' m (List.length done)
                   (ROptions (Some (done ++ rest ++ new))
                      (rincludes (mergeRequested
                                    (ROptions (Some (done ++ a :: rest))
                                              incs virt)
                                    (fieldClause f)))
                      (virt ++ [a]))).
    { intro fuel'. simpl. rewrite nth_error_here, (fieldAt_own m a Ha).
      unfold fieldClause. simpl. rewrite Hl. simpl.
      rewrite (union_NoDup_l _ Hnd), <- app_assoc. simpl.
      now rewrite removeAt_here. }
    destruct (IHv (rest ++ new) done
                (rincludes (mergeRequested
                              (ROptions (Some (done ++ a :: rest)) incs virt)
                              (fieldClause f)))
                (virt ++ [a]))
      as (fuel & u & incs' & Hrun & Hu & Hb & Hincl & Hin).
    + rewrite virtualCount_app, (@virtualCount_base m new Hnew).
      unfold virtualCount in *. simpl in Hv. unfold isVirtual at 1 in Hv.
      rewrite Ha in Hv. simpl in Hv. lia.
    + assert (Hall : NoDup ((done ++ a :: rest) ++ new)).
      { unfold new. rewrite <- (union_NoDup_l l Hnd). apply union_NoDup. }
      rewrite <- app_assoc in Hall. simpl in Hall.
      now apply NoDup_remove_1 in Hall.
    + assumption.
    + intros k Hk. apply in_app_iff in Hk. destruct Hk as [Hk|Hk].
      * apply Htodo. now right.
      * unfold closedReference. now rewrite (Hnew k Hk).
    + exists (S fuel), u, incs'. repeat split; try assumption.
      * intros [|f'] Hf; [lia|]. rewrite Hincs.
        rewrite (Hrun f' ltac:(lia)). do 2 f_equal.
        rewrite filter_app. simpl. unfold isVirtual at 3. rewrite Ha.
        assert (Hfn : filter (isVirtual m) new = []).
        { pose proof (@virtualCount_base m new Hnew) as Hc.
          unfold virtualCount in Hc.
          now destruct (filter (isVirtual m) new). }
        rewrite Hfn, app_nil_r, <- app_assoc. reflexivity.
      * intros k [<-|Hk] Hbk.
        -- unfold isBase in Hbk. congruence.
        -- apply Hin; [apply in_app_iff; now left | exact Hbk].
Qed.

(** X12.  For a find whose attributes have no duplicates and whose
    virtual fields are closed, the loop of replaceVirtualFields ends; it
    leaves base fields only, without duplicates, with every base field
    that was asked for, and it records the virtual fields that were
    asked for, in their order, behind those recorded before. *)
Theorem replaceAttributes_expands :
  forall (m : model vfield) attrs incs virt,
    NoDup attrs ->
    (forall k, In k attrs -> closedReference m k) ->
    exists fuel u incs',
      (forall fuel', fuel <= fuel' ->
         replaceAttributes fuel' m 0 (ROptions (Some attrs) incs virt)
         = Return (ROptions (Some u) incs'
                     (virt ++ filter (isVirtual m) attrs)))
      /\ NoDup u
      /\ (forall x, In x u -> isBase m x)
      /\ (forall k, In k attrs -> isBase m k -> In k u).
Proof.
  intros m attrs incs virt Hnd Hclosed.
  destruct (@replaceAttributes_records m (virtualCount m attrs)
              attrs [] incs virt eq_refl Hnd)
    as (fuel & u & incs' & Hrun & Hu & Hb & _ & Hin).
  - intros k [].
  - exact Hclosed.
  - exists fuel, u, incs'. repeat split; assumption.
Qed.

Lemma replaceAttributes_expands_witness :
  exists fuel u incs',
    (forall fuel', fuel <= fuel' ->
       replaceAttributes fuel' diamond 0
         (ROptions (Some ["c1"; "C"]) None [])
       = Return (ROptions (Some u) incs'
                   ([] ++ filter (isVirtual diamond) ["c1"; "C"])))
    /\ NoDup u
    /\ (forall x, In x u -> isBase diamond x)
    /\ (forall k, In k ["c1"; "C"] -> isBase diamond k -> In k u).
Proof.
  apply (@replaceAttributes_expands diamond ["c1"; "C"] None []).
  - repeat constructor; simpl; intuition discriminate.
  - intros k [<-|[<-|[]]]; unfold closedReference; simpl; [exact I|].
    exists ["c1"; "c2"]. split; [reflexivity|].
    intros x [<-|[<-|[]]]; reflexivity.
Defined.

Lemma inherited_In k : In k objectPrototype -> inherited k = true.
Proof.
  intro H. unfold inherited, inb. apply existsb_exists. exists k.
  split; [exact H | apply String.eqb_refl].
Qed.

Lemma replaceAttributes_skip fuel (m : model vfield) done a rest incs virt :
  fieldAt m a = Some Base ->
  replaceAttributes (S fuel) m (List.length done)
    (ROptions (Some (done ++ a :: rest)) incs virt)
  = replaceAttributes fuel m (List.length (done ++ [a]))
      (ROptions (Some ((done ++ [a]) ++ rest)) incs virt).
Proof.
  intro Ha. simpl. rewrite nth_error_here, Ha.
  now rewrite length_app, Nat.add_comm, <- app_assoc.
Qed.

Lemma replaceAttributes_skips (m : model vfield) incs virt :
  forall pre done rest k,
    (forall s, In s pre -> fieldAt m s = Some Base) ->
    replaceAttributes (List.length pre + k) m (List.length done)
      (ROptions (Some (done ++ pre ++ rest)) incs virt)
    = replaceAttributes k m (List.length (done ++ pre))
        (ROptions (Some ((done ++ pre) ++ rest)) incs virt).
Proof.
  induction pre as [|a pre IH]; intros done rest k Hpre.
  - simpl. now rewrite !app_nil_r.
  - cbn [List.length Nat.add app].
    rewrite replaceAttributes_skip by (apply Hpre; now left).
    rewrite (IH (done ++ [a]) rest k)
      by (intros s Hs; apply Hpre; now right).
    now rewrite <- !app_assoc.
Qed.

(** X13.  An attribute of a find that [model.attributes[name]] does not
    find, being neither a field of the model nor a name inherited from
    [Object.prototype], makes replaceVirtualFields throw, naming the
    model and the attribute, when the attributes before it are found and
    are no virtual fields.  A name that the model does not declare and
    [Object.prototype] holds, such as [toString], is passed over instead
    and stays in the list. *)
Theorem replaceAttributes_unknown_field :
  forall (m : model vfield) pre x post incs virt fuel,
    (forall s, In s pre -> fieldAt m s = Some Base) ->
    List.length pre < fuel ->
    (fieldAt m x = None ->
     replaceAttributes fuel m 0 (ROptions (Some (pre ++ x :: post)) incs virt)
     = Throw (FieldDoesNotExist (name m) x))
    /\ (lookup x (fields m) = None ->
        In x objectPrototype ->
        post = [] ->
        replaceAttributes (S fuel) m 0
          (ROptions (Some (pre ++ x :: post)) incs virt)
        = Return (ROptions (Some (pre ++ x :: post)) incs virt)).
Proof.
  intros m pre x post incs virt fuel Hpre Hfuel. split.
  - intro Hx.
    replace fuel with (List.length pre + S (fuel - S (List.length pre)))
      by lia.
    rewrite (@replaceAttributes_skips m incs virt pre [] (x :: post) _ Hpre).
    simpl. now rewrite nth_error_here, Hx.
  - intros Hx Hin ->.
    assert (Hb : fieldAt m x = Some Base).
    { unfold fieldAt. now rewrite Hx, (inherited_In Hin). }
    replace (S fuel)
      with (List.length pre + S (S (fuel - S (List.length pre))))
      by lia.
    rewrite (@replaceAttributes_skips m incs virt pre [] [x] _ Hpre).
    cbn [app]. rewrite (@replaceAttributes_skip _ m pre x [] incs virt Hb).
    simpl. rewrite app_nil_r. now rewrite nth_error_end.
Qed.

Lemma replaceAttributes_unknown_field_witness :
  replaceAttributes 2 diamond 0
    (ROptions (Some (["c1"] ++ "c3" :: ["C"])) None [])
  = Throw (FieldDoesNotExist (name diamond) "c3")
  /\ replaceAttributes 3 diamond 0
       (ROptions (Some (["c1"] ++ "toString" :: [])) None [])
     = Return (ROptions (Some (["c1"] ++ "toString" :: [])) None []).
Proof.
  assert (Hpre : forall s, In s ["c1"] -> fieldAt diamond s = Some Base)
    by (intros s [<-|[]]; reflexivity).
  split.
  - apply (proj1 (@replaceAttributes_unknown_field diamond ["c1"] "c3" ["C"]
                    None [] 2 Hpre ltac:(simpl; lia))).
    reflexivity.
  - apply (proj2 (@replaceAttributes_unknown_field diamond ["c1"] "toString"
                    [] None [] 2 Hpre ltac:(simpl; lia)));
      [reflexivity | simpl; tauto | reflexivity].
Defined.

(** X14.  When a find gives no attributes, replaceVirtualFields records
    every virtual field of the model, in the order of the fields, behind
    those recorded before, and the attributes stay absent. *)
Theorem addAllVirtualFields_records_all :
  forall (m : model vfield) options,
    rattributes options = None ->
    rattributes (addAllVirtualFields m options) = None
    /\ rvirtual (addAllVirtualFields m options)
       = rvirtual options
         ++ map fst (filter (fun kf => match snd kf with
                                       | Virtual _ => true
                                       | Base => false
                                       end) (fields m)).
Proof.
  intros m. unfold addAllVirtualFields.
  induction (fields m) as [|[k f] fs IH]; intros options Ho; simpl.
  - split; [exact Ho | now rewrite app_nil_r].
  - destruct f as [|v]; simpl; [now apply IH|].
    destruct (IH (addVirtualFieldOptions options v k)) as [Ha Hv].
    + unfold addVirtualFieldOptions, mergeRequested. simpl. now rewrite Ho.
    + split; [exact Ha|]. rewrite Hv. unfold addVirtualFieldOptions. simpl.
      now rewrite <- app_assoc.
Qed.

Lemma addAllVirtualFields_records_all_witness :
  rattributes (addAllVirtualFields diamond (ROptions None None [])) = None
  /\ rvirtual (addAllVirtualFields diamond (ROptions None None []))
     = rvirtual (ROptions None None [])
       ++ map fst (filter (fun kf => match snd kf with
                                     | Virtual _ => true
                                     | Base => false
                                     end) (fields diamond)).
Proof.
  apply addAllVirtualFields_records_all. reflexivity.
Defined.

(** ** The includes of the consumer after a merge *)

Lemma mergeInclude_identity f t : identity (mergeInclude f t) = identity t.
Proof. rewrite mergeInclude_mergeClauses. now destruct t. Qed.

Lemma sameInclude_identity t f :
  sameInclude t f = true <-> identity t = identity f.
Proof.
  rewrite sameInclude_iff. unfold identity. split.
  - intros [-> ->]. reflexivity.
  - intros [= -> ->]. auto.
Qed.

Lemma mergeOrPush_identities merge f tl :
  (forall t, identity (merge t) = identity t) ->
  exists added,
    map identity (mergeOrPush merge f tl) = map identity tl ++ added
    /\ (added = [] \/ added = [identity f])
    /\ In (identity f) (map identity (mergeOrPush merge f tl)).
Proof.
  intro Hm. induction tl as [|t tl IH]; simpl.
  - exists [identity f]. simpl. auto.
  - destruct (sameInclude t f) eqn:E; simpl.
    + exists []. rewrite app_nil_r, Hm. repeat split; auto.
      left. now apply sameInclude_identity.
    + destruct IH as (added & Heq & Hadded & Hin).
      exists added. rewrite Heq. repeat split; auto.
      right. now rewrite <- Heq.
Qed.

Lemma eachInclude_identities fl :
  forall tl,
    exists added,
      map identity (eachInclude fl tl) = map identity tl ++ added
      /\ incl added (map identity fl)
      /\ forall f, In f fl ->
                   In (identity f) (map identity (eachInclude fl tl)).
Proof.
  induction fl as [|f fl IH]; intro tl; simpl.
  - exists []. rewrite app_nil_r. repeat split; [intros x []|intros f []].
  - destruct (@mergeOrPush_identities (mergeInclude f) f tl
                (mergeInclude_identity f))
      as (a1 & H1 & Ha1 & Hin1).
    destruct (IH (mergeOrPush (mergeInclude f) f tl))
      as (a2 & H2 & Ha2 & Hin2).
    exists (a1 ++ a2). rewrite H2, H1, <- app_assoc. repeat split.
    + intros x Hx. apply in_app_iff in Hx. destruct Hx as [Hx|Hx].
      * destruct Ha1 as [-> | ->]; [destruct Hx|].
        destruct Hx as [<-|[]]. now left.
      * right. now apply Ha2.
    + intros g [<-|Hg].
      * rewrite H1 in Hin1. apply in_app_iff in Hin1.
        rewrite app_assoc. apply in_app_iff. left.
        now apply in_app_iff.
      * specialize (Hin2 g Hg). now rewrite H2, H1, <- app_assoc in Hin2.
Qed.

(** X15.  A merge never drops, moves or renames an include of the
    consumer: the includes it had are still there in their order, by
    model and [as], in front of any that were added; those added are
    includes of the dependency, and every include of the dependency is
    found in the result by model and [as]. *)
Theorem mergeClauses_keeps_includes :
  forall item fromItem tl fl,
    includes item = Some tl ->
    includes fromItem = Some fl ->
    exists tl' added,
      includes (mergeClauses item fromItem) = Some tl'
      /\ map identity tl' = map identity tl ++ added
      /\ incl added (map identity fl)
      /\ forall f, In f fl -> In (identity f) (map identity tl').
Proof.
  intros item fromItem tl fl Ht Hf. unfold mergeClauses. simpl.
  rewrite Ht, Hf. simpl.
  destruct (eachInclude_identities fl tl) as (added & H1 & H2 & H3).
  exists (eachInclude fl tl), added. auto.
Qed.

Lemma mergeClauses_keeps_includes_witness :
  exists tl' added,
    includes (mergeClauses
                (Clause None
                   (Some [Include "Person" (Some "owner") None None]))
                (Clause None
                   (Some [Include "Person" None None None;
                          Include "Person" (Some "owner") None None])))
    = Some tl'
    /\ map identity tl'
       = map identity [Include "Person" (Some "owner") None None] ++ added
    /\ incl added
         (map identity [Include "Person" None None None;
                        Include "Person" (Some "owner") None None])
    /\ forall f,
         In f [Include "Person" None None None;
               Include "Person" (Some "owner") None None] ->
         In (identity f) (map identity tl').
Proof.
  apply mergeClauses_keeps_includes; reflexivity.
Defined.

(** ** Merging attributes more than once *)

Lemma inb_ext (l l' : list string) :
  (forall x, In x l <-> In x l') -> forall x, inb x l = inb x l'.
Proof.
  intros H x. destruct (inb x l') eqn:E.
  - apply inb_In. apply H. now apply inb_In.
  - apply inb_false. rewrite H. now apply inb_false.
Qed.

Lemma firstOccurrences_app (a b : list string) :
  firstOccurrences (a ++ b)
  = firstOccurrences a
    ++ filter (fun x => negb (inb x a)) (firstOccurrences b).
Proof.
  induction a as [|x a IH]; simpl.
  - symmetry. apply forallb_filter_id. apply forallb_forall. reflexivity.
  - f_equal. rewrite IH, filter_app. f_equal.
    rewrite filter_filter. apply filter_ext. intro y.
    unfold inb. simpl. rewrite (String.eqb_sym y x).
    now destruct (String.eqb x y), (existsb (String.eqb y) a).
Qed.

Lemma union_firstOccurrences (a b : list string) :
  union a b = firstOccurrences (a ++ b).
Proof.
  now rewrite union_orderedUnion, firstOccurrences_app.
Qed.

Lemma firstOccurrences_app_l (a b : list string) :
  firstOccurrences (firstOccurrences a ++ b) = firstOccurrences (a ++ b).
Proof.
  rewrite !firstOccurrences_app.
  rewrite (firstOccurrences_id (firstOccurrences_NoDup a)). f_equal.
  apply filter_ext. intro x. f_equal. apply inb_ext.
  intro y. apply firstOccurrences_In.
Qed.

Lemma firstOccurrences_app_r (a b : list string) :
  firstOccurrences (a ++ firstOccurrences b) = firstOccurrences (a ++ b).
Proof.
  rewrite !firstOccurrences_app.
  now rewrite (firstOccurrences_id (firstOccurrences_NoDup b)).
Qed.

Lemma union_assoc (a b c : list string) :
  union (union a b) c = union a (union b c).
Proof.
  rewrite !union_firstOccurrences.
  now rewrite firstOccurrences_app_l, firstOccurrences_app_r, app_assoc.
Qed.

Lemma filter_none {A} (p : A -> bool) (l : list A) :
  (forall x, In x l -> p x = false) -> filter p l = [].
Proof.
  induction l as [|x l IH]; intro H; simpl; [reflexivity|].
  rewrite (H x (or_introl eq_refl)). apply IH. intros y Hy. apply H.
  now right.
Qed.

Lemma union_again (a b : list string) : union (union a b) b = union a b.
Proof.
  rewrite (union_firstOccurrences (union a b) b), union_firstOccurrences.
  rewrite firstOccurrences_app_l, firstOccurrences_app.
  rewrite filter_none; [apply app_nil_r|].
  intros x Hx. apply negb_false_iff, inb_In, in_app_iff. right.
  now apply firstOccurrences_In.
Qed.

(** X16.  Merging is associative on attributes, an absent list
    absorbing: merging a third set into the merge of two leaves the
    attributes that merging the first with the merge of the other two
    leaves.  Merging the same set a second time changes no attribute. *)
Theorem mergeClauses_attributes_associative :
  forall x y z,
    attributes (mergeClauses (mergeClauses x y) z)
    = attributes (mergeClauses x (mergeClauses y z))
    /\ attributes (mergeClauses (mergeClauses x y) y)
       = attributes (mergeClauses x y).
Proof.
  intros x y z. unfold mergeClauses. simpl.
  destruct (attributes x) as [a|], (attributes y) as [b|],
           (attributes z) as [c|]; simpl;
    (split; [rewrite ?union_assoc | rewrite ?union_again]; reflexivity).
Qed.

(** ** What the inherit passes leave alone *)

Lemma sameKind_refl {V} (f : field V) : sameKind f f.
Proof. now destruct f. Qed.

Lemma sameKind_trans {U V W} (f : field U) (g : field V) (h : field W) :
  sameKind f g -> sameKind g h -> sameKind f h.
Proof. destruct f, g, h; simpl; auto. Qed.

Lemma Forall2_refl {A} (R : A -> A -> Prop) (l : list A) :
  (forall a, R a a) -> Forall2 R l l.
Proof. intro H. induction l; constructor; auto. Qed.

Lemma Forall2_trans {A B C} (P : A -> B -> Prop) (Q : B -> C -> Prop)
  (R : A -> C -> Prop) l1 l2 l3 :
  (forall a b c, P a b -> Q b c -> R a c) ->
  Forall2 P l1 l2 -> Forall2 Q l2 l3 -> Forall2 R l1 l3.
Proof.
  intros H H12. revert l3.
  induction H12 as [|a b l1 l2 Hab _ IH]; intros l3 H23;
    inversion H23; subst; constructor; eauto.
Qed.

Lemma sameModel_refl {V} (m : model V) : sameModel m m.
Proof.
  repeat split. apply Forall2_refl. intro kf.
  split; [reflexivity | apply sameKind_refl].
Qed.

Lemma sameModel_trans {U V W} (m1 : model U) (m2 : model V) (m3 : model W) :
  sameModel m1 m2 -> sameModel m2 m3 -> sameModel m1 m3.
Proof.
  intros (Hn & Ha & Hf) (Hn' & Ha' & Hf').
  split; [congruence|]. split; [congruence|].
  eapply Forall2_trans; [|exact Hf|exact Hf'].
  intros a b c [H1 H2] [H3 H4].
  split; [congruence | eapply sameKind_trans; eauto].
Qed.

Lemma sameRegistry_refl {V} (ms : models V) : sameRegistry ms ms.
Proof.
  apply Forall2_refl. intro km. split; [reflexivity | apply sameModel_refl].
Qed.

Lemma sameRegistry_trans {U V W} (a : models U) (b : models V)
  (c : models W) :
  sameRegistry a b -> sameRegistry b c -> sameRegistry a c.
Proof.
  intros Hab Hbc. eapply Forall2_trans; [|exact Hab|exact Hbc].
  intros x y z [H1 H2] [H3 H4].
  split; [congruence | eapply sameModel_trans; eauto].
Qed.

Lemma update_shape {A} (R : A -> A -> Prop) k v (o : list (string * A)) :
  (forall a, R a a) ->
  (forall v0, lookup k o = Some v0 -> R v0 v) ->
  Forall2 (fun kv kv' => fst kv = fst kv' /\ R (snd kv) (snd kv'))
          o (update k v o).
Proof.
  intros Hrefl. induction o as [|[k0 v0] o IH]; intro Hv; simpl.
  - constructor.
  - simpl in Hv. destruct (String.eqb k0 k) eqn:E.
    + constructor; [split; [reflexivity | now apply Hv]|].
      apply Forall2_refl. intro kv. auto.
    + constructor; [split; [reflexivity | apply Hrefl]|]. now apply IH.
Qed.

Lemma setField_shape (ms : models vfield) mk fk m v v' :
  lookup mk ms = Some m ->
  lookup fk (fields m) = Some (Virtual v) ->
  sameRegistry ms (setField ms mk fk (Virtual v')).
Proof.
  intros Hm Hf. unfold setField. rewrite Hm.
  apply (@update_shape (model vfield) sameModel).
  - apply sameModel_refl.
  - intros m0 Hm0. rewrite Hm in Hm0. injection Hm0 as <-.
    split; [reflexivity|]. split; [reflexivity|]. simpl.
    apply (@update_shape (field vfield) sameKind).
    + apply sameKind_refl.
    + intros f0 Hf0. rewrite Hf in Hf0. now injection Hf0 as <-.
Qed.

Lemma mergeDependent_shape fuel ms dependent ms' :
  mergeDependent fuel ms dependent = Return ms' -> sameRegistry ms ms'.
Proof.
  unfold mergeDependent. intro H.
  destruct (lookup (fst dependent) ms) as [m|] eqn:Hm; [|discriminate].
  destruct (lookup (snd dependent) (fields m)) as [[|v]|] eqn:Hf;
    try discriminate.
  destruct (mergeVirtual fuel ms m (fieldClause v)) as [c| |];
    try discriminate.
  simpl in H. injection H as <-. now apply setField_shape with m v.
Qed.

Lemma orderDependent_shape ms dependent ms' :
  orderDependent ms dependent = Return ms' ->
  sameRegistry ms ms' /\ sameClauses ms ms'.
Proof.
  unfold orderDependent. intro H.
  destruct (lookup (fst dependent) ms) as [m|] eqn:Hm; [|discriminate].
  destruct (lookup (snd dependent) (fields m)) as [[|v]|] eqn:Hf;
    try discriminate.
  destruct (forder v) as [orders|]; [|discriminate].
  destruct (replaceOrders (S (List.length orders)) ms m (snd dependent) 0
              orders) as [orders'| |]; try discriminate.
  simpl in H. injection H as <-. split.
  - now apply setField_shape with m v.
  - intros mk fk. rewrite fieldOf_setField.
    destruct (String.eqb (fst dependent) mk && String.eqb (snd dependent) fk)
      eqn:E; [|reflexivity].
    apply andb_true_iff in E. destruct E as [E1 E2].
    apply String.eqb_eq in E1, E2. subst mk fk.
    unfold fieldOf. now rewrite Hm, Hf.
Qed.

Lemma mergeDependentLeft_shape fuel ms dependent :
  sameRegistry ms (mergeDependentLeft fuel ms dependent).
Proof.
  unfold mergeDependentLeft.
  destruct (lookup (fst dependent) ms) as [m|] eqn:Hm;
    [|apply sameRegistry_refl].
  destruct (lookup (snd dependent) (fields m)) as [[|v]|] eqn:Hf;
    try apply sameRegistry_refl.
  now apply setField_shape with m v.
Qed.

Lemma orderDependentLeft_shape ms dependent :
  sameRegistry ms (orderDependentLeft ms dependent)
  /\ sameClauses ms (orderDependentLeft ms dependent).
Proof.
  assert (Hrefl : sameRegistry ms ms /\ sameClauses ms ms)
    by (split; [apply sameRegistry_refl | intros mk fk; reflexivity]).
  unfold orderDependentLeft.
  destruct (lookup (fst dependent) ms) as [m|] eqn:Hm; [|exact Hrefl].
  destruct (lookup (snd dependent) (fields m)) as [[|v]|] eqn:Hf;
    try exact Hrefl.
  destruct (forder v) as [orders|]; [|exact Hrefl]. split.
  - now apply setField_shape with m v.
  - intros mk fk. rewrite fieldOf_setField.
    destruct (String.eqb (fst dependent) mk && String.eqb (snd dependent) fk)
      eqn:E; [|reflexivity].
    apply andb_true_iff in E. destruct E as [E1 E2].
    apply String.eqb_eq in E1, E2. subst mk fk.
    unfold fieldOf. now rewrite Hm, Hf.
Qed.

(** X17.  Neither inherit pass adds, removes, renames or moves a model
    or a field, or turns a base field into a virtual one or back,
    whether it returns or throws; and inheritOrder leaves the attributes
    and includes of every field as they are. *)
Theorem inherit_passes_keep_registry :
  (forall fuel ms ms',
      (inheritInclude fuel ms = Done ms'
       \/ exists e, inheritInclude fuel ms = Failed e ms') ->
      sameRegistry ms ms')
  /\ (forall ms ms',
         (inheritOrder ms = Done ms'
          \/ exists e, inheritOrder ms = Failed e ms') ->
         sameRegistry ms ms' /\ sameClauses ms ms').
Proof.
  split.
  - intros fuel ms ms' H. unfold inheritInclude in H.
    destruct (includeDependencies ms) as [deps|e|].
    + destruct (toposortDependents deps) as [n|dependents].
      * destruct H as [H|[e H]]; [discriminate|]. injection H as _ <-.
        apply sameRegistry_refl.
      * pose proof (@forEachState_invariant node (models vfield)
                      sameRegistry (mergeDependent fuel)
                      (mergeDependentLeft fuel)
                      (@sameRegistry_refl vfield)
                      (@sameRegistry_trans vfield vfield vfield)
                      (fun s a s' => @mergeDependent_shape fuel s a s')
                      (fun s a => @mergeDependentLeft_shape fuel s a)
                      (rev dependents) ms) as Hinv.
        destruct H as [H|[e H]]; rewrite H in Hinv; exact Hinv.
    + destruct H as [H|[e' H]]; [discriminate|]. injection H as _ <-.
      apply sameRegistry_refl.
    + destruct H as [H|[e' H]]; discriminate.
  - intros ms ms' H. unfold inheritOrder in H.
    assert (Hrefl : sameRegistry ms ms /\ sameClauses ms ms)
      by (split; [apply sameRegistry_refl | intros mk fk; reflexivity]).
    destruct (orderDependencies ms) as [deps|e|].
    + destruct (toposortDependents deps) as [n|dependents].
      * destruct H as [H|[e H]]; [discriminate|]. now injection H as _ <-.
      * pose proof (@forEachState_invariant node (models vfield)
                      (fun s s' => sameRegistry s s' /\ sameClauses s s')
                      orderDependent orderDependentLeft
                      (fun s => conj (sameRegistry_refl s)
                                     (fun mk fk => eq_refl))
                      (fun s1 s2 s3 H12 H23 =>
                         conj (sameRegistry_trans (proj1 H12) (proj1 H23))
                              (fun mk fk =>
                                 eq_trans (proj2 H23 mk fk)
                                          (proj2 H12 mk fk)))
                      (fun s a s' => @orderDependent_shape s a s')
                      (fun s a => @orderDependentLeft_shape s a)
                      (rev dependents) ms) as Hinv.
        destruct H as [H|[e H]]; rewrite H in Hinv; exact Hinv.
    + destruct H as [H|[e' H]]; [discriminate|]. now injection H as _ <-.
    + destruct H as [H|[e' H]]; discriminate.
Qed.

Lemma inherit_passes_keep_registry_witness :
  sameRegistry mixedParsed
    [("Task",
      Model "Task"
        [("name", Base);
         ("A", Virtual (VField (Some ["name"]) None
                          (Some [OArr [OStr "name"; OStr "ASC"]])));
         ("B", Virtual (VField (Some ["name"]) None
                          (Some [OArr [OStr "A"; OStr "ASC"]])))]
        [])].
Proof.
  apply (proj1 inherit_passes_keep_registry 5). left. vm_compute.
  reflexivity.
Defined.

(** ** A find on a registry without virtual fields *)

Lemma replaceVirtualFields_unfold fuel ms m options :
  replaceVirtualFields (S fuel) ms m options
  = (o1 <- match rattributes options with
           | Some _ => replaceAttributes (S fuel) m 0 options
           | None => Return (addAllVirtualFields m options)
           end ;;
     match rincludes o1 with
     | None => Return o1
     | Some incs =>
         incs' <- mapM (replaceInclude fuel ms) incs ;;
         Return (ROptions (rattributes o1) (Some incs') (rvirtual o1))
     end).
Proof. reflexivity. Qed.

Lemma rinclude_induction (P : rinclude -> Prop) :
  (forall t, P (RModel t)) ->
  (forall t a attrs sub v,
      match sub with Some l => Forall P l | None => True end ->
      P (RInclude t a attrs sub v)) ->
  forall i, P i.
Proof.
  intros Hm Ho. fix IH 1. intros [t|t a attrs sub v]; [apply Hm|].
  apply Ho. destruct sub as [l|]; [|exact I].
  induction l as [|i l IHl]; constructor; [apply IH | exact IHl].
Qed.

Lemma baseOnly_isBase (m : model vfield) s :
  baseOnly m -> lookup s (fields m) <> None -> isBase m s.
Proof.
  intros Hb Hs. unfold isBase.
  destruct (lookup s (fields m)) as [f|] eqn:E; [|now destruct Hs].
  apply lookup_In in E. unfold baseOnly in Hb.
  rewrite Forall_forall in Hb. apply Hb in E. simpl in E. now subst.
Qed.

Lemma replaceAttributes_all_base (m : model vfield) incs virt :
  forall todo done fuel,
    (forall s, In s todo -> isBase m s) ->
    List.length todo < fuel ->
    replaceAttributes fuel m (List.length done)
      (ROptions (Some (done ++ todo)) incs virt)
    = Return (ROptions (Some (done ++ todo)) incs virt).
Proof.
  induction todo as [|a todo IH]; intros done fuel Hb Hfuel;
    (destruct fuel as [|fuel]; [simpl in Hfuel; lia|]).
  - simpl. rewrite app_nil_r. now rewrite nth_error_end.
  - rewrite replaceAttributes_base by (apply Hb; now left).
    rewrite IH; [now rewrite <- app_assoc | |simpl in Hfuel; lia].
    intros s Hs. apply Hb. now right.
Qed.

Lemma addAllVirtualFields_baseOnly (m : model vfield) options :
  baseOnly m -> addAllVirtualFields m options = options.
Proof.
  unfold baseOnly, addAllVirtualFields. intro H.
  induction H as [|[k f] fs Hf _ IH]; simpl; [reflexivity|].
  simpl in Hf. subst f. exact IH.
Qed.

Lemma namedInclude_sub ms l :
  (fix all (l : list rinclude) : Prop :=
     match l with
     | [] => True
     | x :: l' => namedInclude ms x /\ all l'
     end) l <-> allNamed ms l.
Proof. induction l as [|x l IH]; simpl; tauto. Qed.

Section BaseRegistry.

Variable ms : models vfield.
Hypothesis base_registry : forall k m, lookup k ms = Some m -> baseOnly m.

Let settles (i : rinclude) : Prop :=
  namedInclude ms i ->
  exists fuel0, forall fuel,
      fuel0 <= fuel -> replaceInclude fuel ms i = Return (objectForm i).

Lemma replaceIncludes_base l :
  Forall settles l -> allNamed ms l ->
  exists fuel0, forall fuel,
      fuel0 <= fuel ->
      mapM (replaceInclude fuel ms) l = Return (map objectForm l).
Proof.
  induction 1 as [|i l Hi _ IH]; intro Hn.
  - exists 0. reflexivity.
  - destruct Hn as [Hn1 Hn2].
    destruct (Hi Hn1) as [f1 H1], (IH Hn2) as [f2 H2].
    exists (Nat.max f1 f2). intros fuel Hfuel. simpl.
    rewrite H1, H2 by lia. reflexivity.
Qed.

Lemma replaceVirtualFields_base (m : model vfield) attrs sub v :
  baseOnly m ->
  (forall l, attrs = Some l ->
             forall s, In s l -> lookup s (fields m) <> None) ->
  match sub with
  | Some l => Forall settles l /\ allNamed ms l
  | None => True
  end ->
  exists fuel0, forall fuel,
      fuel0 <= fuel ->
      replaceVirtualFields fuel ms m (ROptions attrs sub v)
      = Return (ROptions attrs
                  (match sub with
                   | None => None
                   | Some l => Some (map objectForm l)
                   end) v).
Proof.
  intros Hb Hattrs Hsub.
  assert (Hfirst : forall fuel,
             match attrs with Some l => List.length l | None => 0 end
             < S fuel ->
             match rattributes (ROptions attrs sub v) with
             | Some _ =>
                 replaceAttributes (S fuel) m 0 (ROptions attrs sub v)
             | None =>
                 Return (addAllVirtualFields m (ROptions attrs sub v))
             end = Return (ROptions attrs sub v)).
  { intros fuel Hfuel. simpl. destruct attrs as [l|].
    - apply (@replaceAttributes_all_base m sub v l [] (S fuel));
        [|exact Hfuel].
      intros s Hs. apply baseOnly_isBase; [exact Hb|].
      now apply (Hattrs l eq_refl).
    - now rewrite addAllVirtualFields_baseOnly. }
  destruct sub as [l|].
  - destruct Hsub as [Hl Hn].
    destruct (replaceIncludes_base Hl Hn) as [f0 H0].
    exists (S (f0 + match attrs with
                    | Some l => List.length l
                    | None => 0
                    end)).
    intros [|fuel] Hfuel; [lia|].
    rewrite replaceVirtualFields_unfold, Hfirst by lia. simpl.
    rewrite H0 by lia. reflexivity.
  - exists (S (match attrs with
               | Some l => List.length l
               | None => 0
               end)).
    intros [|fuel] Hfuel; [lia|].
    rewrite replaceVirtualFields_unfold, Hfirst by lia. reflexivity.
Qed.

Lemma replaceInclude_base : forall i, settles i.
Proof.
  induction i as [t|t a attrs sub v IH] using rinclude_induction;
    intro Hn; simpl in Hn.
  - destruct (lookup t ms) as [im|] eqn:E; [|now destruct Hn].
    destruct (@replaceVirtualFields_base im None None []) as [f0 H0];
      [now apply (base_registry t) | discriminate | exact I |].
    exists f0. intros fuel Hfuel. simpl. rewrite E, H0 by exact Hfuel.
    reflexivity.
  - destruct (lookup t ms) as [im|] eqn:E; [|now destruct Hn].
    destruct Hn as [Hattrs Hsub].
    destruct (@replaceVirtualFields_base im attrs sub v) as [f0 H0];
      [now apply (base_registry t) | exact Hattrs | |].
    { destruct sub as [l|]; [|exact I]. split; [exact IH|].
      now apply namedInclude_sub. }
    exists f0. intros fuel Hfuel. simpl. rewrite E, H0 by exact Hfuel.
    reflexivity.
Qed.

End BaseRegistry.

(** X18.  On a registry without virtual fields, replaceVirtualFields
    changes nothing but the form of bare models: when the attributes
    and includes of the find name existing fields and models, it returns
    (with enough fuel) the same attributes and [_virtual.get], and the
    includes with every bare model, at any depth, as [{model: model}]. *)
Theorem replaceVirtualFields_without_virtual_fields
  (ms : models vfield) (m : model vfield) (options : roptions) :
  (forall k m', lookup k ms = Some m' -> baseOnly m') ->
  baseOnly m ->
  (forall l, rattributes options = Some l ->
             forall s, In s l -> lookup s (fields m) <> None) ->
  (forall l, rincludes options = Some l -> allNamed ms l) ->
  exists fuel0, forall fuel,
      fuel0 <= fuel ->
      replaceVirtualFields fuel ms m options
      = Return (ROptions (rattributes options)
                  (match rincludes options with
                   | None => None
                   | Some l => Some (map objectForm l)
                   end)
                  (rvirtual options)).
Proof.
  intros Hreg Hb Hattrs Hincs. destruct options as [attrs sub v].
  simpl in *. apply replaceVirtualFields_base; [exact Hb | exact Hattrs |].
  destruct sub as [l|]; [|exact I]. split; [|now apply Hincs].
  apply Forall_forall. intros i _. now apply replaceInclude_base.
Qed.

Lemma replaceVirtualFields_without_virtual_fields_witness :
  exists fuel0, forall fuel,
      fuel0 <= fuel ->
      replaceVirtualFields fuel
        [("Task", Model "Task" [("name", Base)] []);
         ("Person", Model "Person" [("name", Base)] [])]
        (Model "Task" [("name", Base)] [])
        (ROptions (Some ["name"])
           (Some [RModel "Person";
                  RInclude "Person" None (Some ["name"])
                    (Some [RModel "Task"]) []]) [])
      = Return (ROptions (Some ["name"])
                  (Some [RInclude "Person" None None None [];
                         RInclude "Person" None (Some ["name"])
                           (Some [RInclude "Task" None None None []]) []])
                  []).
Proof.
  apply (@replaceVirtualFields_without_virtual_fields
           [("Task", Model "Task" [("name", Base)] []);
            ("Person", Model "Person" [("name", Base)] [])]
           (Model "Task" [("name", Base)] [])
           (ROptions (Some ["name"])
              (Some [RModel "Person";
                     RInclude "Person" None (Some ["name"])
                       (Some [RModel "Task"]) []]) [])).
  - intros k m' H. apply lookup_In in H.
    destruct H as [[= <- <-]|[[= <- <-]|[]]]; repeat constructor.
  - repeat constructor.
  - intros l [= <-] s [<-|[]]. discriminate.
  - intros l [= <-]. simpl. repeat split; try discriminate.
    intros l [= <-] s [<-|[]]. discriminate.
Defined.

(** ** replaceVirtualOrders: what fails *)

Lemma replaceOrderEntry_two path a b :
  replaceOrderEntry (OArr (path ++ [a; b]))
  = match a, b with
    | OStr _, OStr d =>
        Return (OArr (map modelForm path ++ [a; OStr (toUpperCase d)]))
    | OStr _, _ => Throw TypeError
    | _, _ =>
        Return (OArr (map modelForm (path ++ [a]) ++ [b; OStr "ASC"]))
    end.
Proof.
  unfold replaceOrderEntry.
  destruct (path ++ [a; b]) as [|x l] eqn:E.
  { now destruct path. }
  rewrite <- E. clear E x l.
  assert (Hn : List.length (path ++ [a; b]) - 2 = List.length path)
    by (rewrite length_app; simpl; lia).
  rewrite Hn, nth_error_here.
  assert (H1 : Nat.eqb (List.length (path ++ [a; b])) 1 = false)
    by (apply Nat.eqb_neq; rewrite length_app; simpl; lia).
  assert (Hno : bind (Return ((path ++ [a; b]) ++ [OStr "ASC"]))
                  (fun l' =>
                     Return (OArr (map modelForm
                                     (firstn (List.length l' - 2) l')
                                   ++ skipn (List.length l' - 2) l')))
                = Return (OArr (map modelForm (path ++ [a])
                                ++ [b; OStr "ASC"]))).
  { simpl.
    assert (Heq : (path ++ [a; b]) ++ [OStr "ASC"]
                  = (path ++ [a]) ++ [b; OStr "ASC"])
      by now rewrite <- !app_assoc.
    rewrite Heq.
    assert (Hl : List.length ((path ++ [a]) ++ [b; OStr "ASC"]) - 2
                 = List.length (path ++ [a]))
      by (rewrite !length_app; simpl; lia).
    now rewrite Hl, firstn_path, skipn_path. }
  destruct a as [f|m|mv av]; [|exact Hno|exact Hno].
  rewrite H1, last_two.
  destruct b as [d|m|mv av]; [|reflexivity|reflexivity].
  rewrite removelast_two. simpl.
  assert (Heq : (path ++ [OStr f]) ++ [OStr (toUpperCase d)]
                = path ++ [OStr f; OStr (toUpperCase d)])
    by now rewrite <- app_assoc.
  rewrite Heq.
  assert (Hl : List.length (path ++ [OStr f; OStr (toUpperCase d)]) - 2
               = List.length path)
    by (rewrite length_app; simpl; lia).
  now rewrite Hl, firstn_path, skipn_path.
Qed.

(** X19.  The only entries of [options.order] on which the hook fails:
    the empty array (the plugin's 'Invalid order clause') and an array
    whose field name, a string, is followed by something that is not a
    string ([toUpperCase] of it is a TypeError).  Every other entry is
    normalised. *)
Theorem replaceOrderEntry_failures (o : order) :
  replaceOrderEntry o <> OutOfFuel
  /\ forall e,
      replaceOrderEntry o = Throw e
      <-> (o = OArr [] /\ e = InvalidOrderClause)
          \/ (exists path f x,
                 o = OArr (path ++ [OStr f; x])
                 /\ (forall s, x <> OStr s) /\ e = TypeError).
Proof.
  destruct o as [x|l].
  - split; [destruct x; discriminate|]. intro e. split.
    + destruct x; discriminate.
    + intros [[H _]|(path & f & y & H & _)]; discriminate.
  - destruct l as [|x l].
    { split; [discriminate|]. intro e. split.
      - intros [= <-]. now left.
      - intros [[_ ->]|(path & f & y & H & _)]; [reflexivity|].
        injection H as H. now destruct path. }
    destruct l as [|y l].
    { split; [destruct x; discriminate|]. intro e. split.
      - destruct x; discriminate.
      - intros [[H _]|(path & f & y & H & _)]; [discriminate|].
        injection H as H. destruct path as [|p [|q path]]; discriminate. }
    destruct (@split_last_two _ (x :: y :: l)) as (path & a & b & E);
      [simpl; lia|].
    rewrite E, replaceOrderEntry_two. split.
    + destruct a, b; discriminate.
    + intro e. split.
      * intro H. right. exists path.
        destruct a as [f|m|mv av]; try discriminate.
        exists f, b. split; [reflexivity|].
        destruct b; [discriminate| |]; injection H as <-;
          (split; [discriminate | reflexivity]).
      * intros [[H _]|(path' & f & z & H & Hz & ->)].
        { injection H as H. now destruct path. }
        injection H as H.
        change (path ++ [a; b]) with (path ++ [a] ++ [b]) in H.
        change (path' ++ [OStr f; z])
          with (path' ++ [OStr f] ++ [z]) in H.
        rewrite !app_assoc in H. apply app_inj_tail in H.
        destruct H as [H ->]. apply app_inj_tail in H.
        destruct H as [_ ->].
        destruct z as [d|m|mv av]; [now destruct (Hz d)| |]; reflexivity.
Qed.

(** ** parseOrder: an order that is not an array *)

(** X20.  A virtual field whose [order] is a single value other than the
    empty string, not an array, is never accepted: parseOrder wraps it
    as [[order]], and [order] is no variable there, so parseField throws
    a ReferenceError once the attributes and includes are through, and
    initVirtualFields fails in the parse of the fields. *)
Theorem single_order_value_rejected :
  forall fuel (ms : models dfield) mk m fk d y,
    lookup mk ms = Some m ->
    lookup fk (fields m) = Some (Virtual d) ->
    dorders d = DOrder (OItem y) ->
    y <> OStr "" ->
    (forall v, parseField ms fk m d <> Return v)
    /\ (forall c,
           parseInclude ms fk (name m) m d = Return c ->
           parseField ms fk m d = Throw ReferenceError)
    /\ exists e st, initVirtualFields fuel ms = ParseFailed e st.
Proof.
  intros fuel ms mk m fk d y Hm Hf Ho Hy.
  assert (Horder : parseOrder ms fk m (dorders d) = Throw ReferenceError).
  { rewrite Ho. destruct y as [s|t|mv av]; try reflexivity.
    destruct s; [now destruct Hy | reflexivity]. }
  assert (Hnever : forall v, parseField ms fk m d <> Return v).
  { intros v H. unfold parseField in H. rewrite Horder in H.
    destruct (parseInclude ms fk (name m) m d); discriminate. }
  split; [exact Hnever|]. split.
  - intros c Hc. unfold parseField. now rewrite Hc, Horder.
  - unfold initVirtualFields.
    destruct (parseModels ms) as [parsed|[e st]] eqn:Hp; [|now exists e, st].
    destruct (@parsed_field ms parsed mk m fk d Hp Hm Hf)
      as (m' & v & _ & _ & Hv).
    now destruct (Hnever v).
Qed.

Lemma single_order_value_rejected_witness :
  parseField [("Task", singleOrderTask)] "Label" singleOrderTask
    singleOrderField = Throw ReferenceError.
Proof.
  apply (@single_order_value_rejected 1 [("Task", singleOrderTask)]
           "Task" singleOrderTask "Label" singleOrderField (OStr "name")
           eq_refl eq_refl eq_refl)
    with (c := Clause (Some ["name"]) None).
  - discriminate.
  - reflexivity.
Defined.

(** ** Nothing to inherit *)

Lemma mapM_const {A B} (f : A -> result B) (b : B) (l : list A) :
  (forall a, In a l -> f a = Return b) ->
  mapM f l = Return (map (fun _ => b) l).
Proof.
  induction l as [|a l IH]; intro H; simpl; [reflexivity|].
  rewrite (H a) by now left. simpl. rewrite IH; [reflexivity|].
  intros x Hx. apply H. now right.
Qed.

Lemma concat_nils {A B} (l : list A) :
  List.concat (map (fun _ => @nil B) l) = [].
Proof. induction l as [|a l IH]; simpl; [reflexivity | exact IH]. Qed.

Lemma readsBase_sub ms l :
  (fix all (l : list include) : Prop :=
     match l with
     | [] => True
     | x :: l' => readsBase ms x /\ all l'
     end) l <-> allReadBase ms l.
Proof. induction l as [|x l IH]; simpl; tauto. Qed.

Lemma findVirtualAttributes_none from (m : model vfield) attrs :
  (forall l, attrs = Some l -> forall s, In s l -> isBase m s) ->
  findVirtualAttributes from m attrs = Return [].
Proof.
  intro H. unfold findVirtualAttributes.
  rewrite mapM_const with (b := []).
  - simpl. now rewrite concat_nils.
  - intros s Hs. destruct attrs as [l|]; [|destruct Hs].
    now rewrite (fieldAt_own m s (H l eq_refl s Hs)).
Qed.

Lemma findVirtualInclude_none ms from :
  forall i, readsBase ms i -> findVirtualInclude ms from i = Return [].
Proof.
  induction i as [t a attrs incs IH] using include_induction.
  intro H. simpl in H. simpl.
  destruct (lookup t ms) as [im|]; [|destruct H].
  destruct H as [Hattrs Hincs].
  rewrite (@findVirtualAttributes_none from im attrs Hattrs).
  destruct incs as [l|]; [|reflexivity].
  apply readsBase_sub in Hincs.
  induction l as [|x l IHl]; [reflexivity|].
  inversion IH as [|? ? Hx Hrest]. subst. destruct Hincs as [H1 H2].
  rewrite (Hx H1). simpl. now apply IHl.
Qed.

Lemma includeDependencies_none ms :
  nothingToInherit ms -> includeDependencies ms = Return [].
Proof.
  intro H. unfold includeDependencies.
  rewrite mapM_const with (b := []).
  - simpl. now rewrite concat_nils.
  - intros [[[mn fn] m] v] Hin.
    destruct (H mn fn m v Hin) as (Hattrs & Hincs & _).
    unfold findVirtual. simpl.
    rewrite (@findVirtualAttributes_none (mn, fn) m (fattributes v) Hattrs).
    simpl. rewrite mapM_const with (b := []).
    + simpl. now rewrite concat_nils.
    + intros i Hi. destruct (finclude v) as [l|]; [|destruct Hi].
      specialize (Hincs l eq_refl). apply findVirtualInclude_none.
      clear - Hincs Hi. induction l as [|x l IH]; [destruct Hi|].
      destruct Hincs as [H1 H2]. destruct Hi as [<-|Hi]; auto.
Qed.

Lemma orderDependencies_none ms :
  nothingToInherit ms -> orderDependencies ms = Return [].
Proof.
  intro H. unfold orderDependencies.
  rewrite mapM_const with (b := []).
  - simpl. now rewrite concat_nils.
  - intros [[[mn fn] m] v] Hin.
    destruct (H mn fn m v Hin) as (_ & _ & Horders).
    destruct (forder v) as [orders|]; [|reflexivity].
    rewrite mapM_const with (b := []).
    + simpl. now rewrite concat_nils.
    + intros o Ho. destruct (Horders orders eq_refl o Ho) as (om & f & ->).
      reflexivity.
Qed.

(** X21.  Where no virtual field reads or is ordered by a virtual field,
    the two inherit passes find no dependency and return the registry as
    it is; initVirtualFields then returns what the parse of the fields
    made. *)
Theorem nothing_to_inherit (fuel : nat) (parsed : models vfield) :
  nothingToInherit parsed ->
  inheritInclude fuel parsed = Done parsed
  /\ inheritOrder parsed = Done parsed
  /\ forall ms, parseModels ms = inl parsed ->
                initVirtualFields fuel ms = Initialized parsed.
Proof.
  intro H.
  assert (Hi : inheritInclude fuel parsed = Done parsed).
  { unfold inheritInclude. now rewrite includeDependencies_none. }
  assert (Ho : inheritOrder parsed = Done parsed).
  { unfold inheritOrder. now rewrite orderDependencies_none. }
  split; [exact Hi|]. split; [exact Ho|].
  intros ms Hp. unfold initVirtualFields. now rewrite Hp, Hi, Ho.
Qed.

Lemma nothing_to_inherit_witness :
  inheritInclude 1 plainRegistry = Done plainRegistry
  /\ inheritOrder plainRegistry = Done plainRegistry.
Proof.
  assert (H : nothingToInherit plainRegistry).
  { intros mn fn m v Hin. simpl in Hin.
    destruct Hin as [[= <- <- <- <-]|[]]. split; [|split].
    - intros l [= <-] s [<-|[]]. reflexivity.
    - intros l [= <-]. simpl. repeat split.
      intros l [= <-] s [<-|[]]. reflexivity.
    - intros orders [= <-] o [<-|[]]. eexists. eexists. reflexivity. }
  destruct (@nothing_to_inherit 1 plainRegistry H) as (H1 & H2 & _).
  split; [exact H1 | exact H2].
Defined.

(** ** The edges that the passes collect are the references *)

Lemma mapM_concat_In {A B} (f : A -> result (list B)) :
  forall l bs,
    mapM f l = Return bs ->
    forall e,
      In e (List.concat bs)
      <-> exists a b, In a l /\ f a = Return b /\ In e b.
Proof.
  intros l bs H. apply mapM_Return in H.
  induction H as [|a b l bs Hab _ IH]; intro e; simpl.
  - split; [intros [] | intros (a & b & [] & _)].
  - rewrite in_app_iff, IH. split.
    + intros [He|(a' & b' & Ha' & Hf & He)].
      * exists a, b. auto.
      * exists a', b'. auto.
    + intros (a' & b' & [<-|Ha'] & Hf & He).
      * left. rewrite Hab in Hf. now injection Hf as <-.
      * right. eauto.
Qed.

Lemma findVirtualAttributes_edges from (m : model vfield) attrs es :
  findVirtualAttributes from m attrs = Return es ->
  forall e,
    In e es
    <-> exists l a,
          attrs = Some l /\ In a l /\ isVirtual m a = true
          /\ e = (from, (name m, a)).
Proof.
  unfold findVirtualAttributes. intro H.
  match type of H with
  | bind (mapM ?f ?l) _ = _ => destruct (mapM f l) as [own| |] eqn:Hm
  end; try discriminate.
  simpl in H. injection H as <-. intro e.
  rewrite (mapM_concat_In _ _ Hm). split.
  - intros (a & b & Ha & Hf & He). destruct attrs as [l|]; [|destruct Ha].
    exists l, a. rewrite isVirtual_fieldAt.
    destruct (fieldAt m a) as [[|v]|]; try discriminate.
    + injection Hf as <-. destruct He.
    + injection Hf as <-. destruct He as [<-|[]]. auto.
  - intros (l & a & -> & Ha & Hv & ->). exists a.
    rewrite isVirtual_fieldAt in Hv.
    destruct (fieldAt m a) as [[|v]|]; try discriminate.
    exists [(from, (name m, a))]. simpl. auto.
Qed.

Lemma findVirtualInclude_edges ms from :
  forall i es,
    findVirtualInclude ms from i = Return es ->
    forall e,
      In e es
      <-> exists im b,
            lookup (imodel i) ms = Some im
            /\ reads ms im (iattributes i) (iinclude i) b
            /\ e = (from, b).
Proof.
  induction i as [t a attrs incs IH] using include_induction.
  intros es H e. simpl in H. simpl.
  destruct (lookup t ms) as [im|] eqn:Ht; [|discriminate].
  destruct (findVirtualAttributes from im attrs) as [own| |] eqn:Hown;
    try discriminate.
  pose proof (findVirtualAttributes_edges _ _ _ Hown) as Hattrs.
  destruct incs as [l|].
  - assert (Heach : forall acc es0,
               (fix each (acc : list edge) (l : list include)
                  : result (list edge) :=
                  match l with
                  | [] => Return acc
                  | i :: l' =>
                      match findVirtualInclude ms from i with
                      | Return es => each (acc ++ es) l'
                      | Throw e => Throw e
                      | OutOfFuel => OutOfFuel
                      end
                  end) acc l = Return es0 ->
               forall e0,
                 In e0 es0
                 <-> In e0 acc
                     \/ exists i im' b,
                          In i l /\ lookup (imodel i) ms = Some im'
                          /\ reads ms im' (iattributes i) (iinclude i) b
                          /\ e0 = (from, b)).
    { clear H. induction l as [|i l IHl]; intros acc es0 H0 e0.
      - injection H0 as <-. split; [auto|].
        intros [He|(i & im' & b & [] & _)]. exact He.
      - inversion IH as [|? ? Hi Hrest]. subst.
        destruct (findVirtualInclude ms from i) as [esi| |] eqn:Hfi;
          try discriminate.
        rewrite (IHl Hrest _ _ H0), in_app_iff, (Hi esi eq_refl e0).
        split.
        + intros [[He|(im' & b & Hl & Hr & ->)]|(i' & im' & b & Hin & Hrest')].
          * now left.
          * right. exists i, im', b. simpl. auto.
          * right. exists i', im', b.
            destruct Hrest' as (Hl & Hr & ->). simpl. auto.
        + intros [He|(i' & im' & b & [<-|Hin] & Hl & Hr & ->)].
          * left. now left.
          * left. right. now exists im', b.
          * right. now exists i', im', b. }
    rewrite (Heach own es H e), (Hattrs e). split.
    + intros [(l0 & a0 & Hl0 & Ha0 & Hv & ->)
             |(i & im' & b & Hin & Hl & Hr & ->)].
      * exists im, (name im, a0). split; [reflexivity|].
        split; [|reflexivity]. now apply reads_attribute with l0.
      * exists im, b. split; [reflexivity|]. split; [|reflexivity].
        now apply reads_include with l i im'.
    + intros (im0 & b & [= <-] & Hr & ->).
      inversion Hr as [m0 attrs0 incs0 l0 a0 Hl0 Ha0 Hv
                      |m0 attrs0 incs0 l0 i0 im1 b0 Hl0 Hi0 Hlk Hr'];
        subst.
      * left. now exists l0, a0.
      * right. injection Hl0 as <-. now exists i0, im1, b.
  - injection H as <-. rewrite (Hattrs e). split.
    + intros (l0 & a0 & Hl0 & Ha0 & Hv & ->).
      exists im, (name im, a0). split; [reflexivity|].
      split; [|reflexivity]. now apply reads_attribute with l0.
    + intros (im0 & b & [= <-] & Hr & ->).
      inversion Hr as [m0 attrs0 incs0 l0 a0 Hl0 Ha0 Hv
                      |m0 attrs0 incs0 l0 i0 im1 b0 Hl0 Hi0 Hlk Hr'];
        subst; [|discriminate].
      now exists l0, a0.
Qed.

Lemma findVirtual_edges ms from c m es :
  findVirtual ms from c m = Return es ->
  forall e,
    In e es
    <-> exists b, reads ms m (attributes c) (includes c) b /\ e = (from, b).
Proof.
  unfold findVirtual. intros H e.
  destruct (findVirtualAttributes from m (attributes c)) as [own| |] eqn:Hown;
    try discriminate. simpl in H.
  match type of H with
  | bind (mapM ?f ?l) _ = _ => destruct (mapM f l) as [nested| |] eqn:Hm
  end; try discriminate.
  simpl in H. injection H as <-.
  rewrite in_app_iff, (findVirtualAttributes_edges _ _ _ Hown e),
    (mapM_concat_In _ _ Hm e).
  split.
  - intros [(l0 & a0 & Hl0 & Ha0 & Hv & ->)|(i & esi & Hin & Hfi & He)].
    + exists (name m, a0). split; [|reflexivity].
      now apply reads_attribute with l0.
    + apply (findVirtualInclude_edges _ _ _ Hfi) in He.
      destruct He as (im & b & Hl & Hr & ->). exists b.
      split; [|reflexivity].
      destruct (includes c) as [l|] eqn:Hc; [|destruct Hin].
      now apply reads_include with l i im.
  - intros (b & Hr & ->).
    inversion Hr as [m0 attrs0 incs0 l0 a0 Hl0 Ha0 Hv
                    |m0 attrs0 incs0 l0 i0 im1 b0 Hl0 Hi0 Hlk Hr'];
      subst.
    + left. now exists l0, a0.
    + right. rewrite Hl0 in Hm.
      pose proof (mapM_Return _ _ Hm) as Hall.
      assert (Hex : exists esi, findVirtualInclude ms from i0 = Return esi).
      { clear - Hall Hi0. induction Hall as [|x y l l' Hxy _ IHa];
          [destruct Hi0|].
        destruct Hi0 as [<-|Hi0]; [now exists y | now apply IHa]. }
      destruct Hex as (esi & Hesi). exists i0, esi. rewrite Hl0.
      split; [exact Hi0|]. split; [exact Hesi|].
      apply (findVirtualInclude_edges _ _ _ Hesi). now exists im1, b.
Qed.

Lemma includeDependencies_edges ms edges :
  includeDependencies ms = Return edges ->
  forall a b, In (a, b) edges <-> attributeReference ms a b.
Proof.
  unfold includeDependencies. intros H a b.
  match type of H with
  | bind (mapM ?f ?l) _ = _ => destruct (mapM f l) as [ess| |] eqn:Hm
  end; try discriminate.
  simpl in H. injection H as <-.
  rewrite (mapM_concat_In _ _ Hm (a, b)). unfold attributeReference. split.
  - intros ([[[mn fn] m] v] & es & Hin & Hf & He).
    apply (findVirtual_edges _ _ _ _ Hf) in He.
    destruct He as (b' & Hr & [= -> ->]). now exists m, v.
  - intros (m & v & Hin & Hr). destruct a as [mn fn]. simpl in Hin.
    pose proof (mapM_Return _ _ Hm) as Hall.
    assert (Hex : exists es,
               findVirtual ms (mn, fn) (fieldClause v) m = Return es).
    { clear - Hall Hin.
      induction Hall as [|x y l l' Hxy _ IHa]; [destruct Hin|].
      destruct Hin as [->|Hin]; [now exists y | now apply IHa]. }
    destruct Hex as (es & Hes). exists (mn, fn, m, v), es.
    split; [exact Hin|]. split; [exact Hes|].
    apply (findVirtual_edges _ _ _ _ Hes). now exists b.
Qed.

Lemma orderField_structured ms (m : model vfield) path f d target :
  terminalModel ms m path = Some target ->
  orderField ms m (OArr (path ++ [OStr f; d]))
  = match fieldAt target f with
    | Some fld => Return (target, f, fld)
    | None => Throw TypeError
    end.
Proof.
  unfold terminalModel. intro H.
  destruct (rev path) as [|x r] eqn:Hr.
  - injection H as <-.
    assert (Hp : path = []).
    { rewrite <- (rev_involutive path), Hr. reflexivity. }
    subst path. reflexivity.
  - assert (Hp : path = rev r ++ [x]).
    { rewrite <- (rev_involutive path), Hr. reflexivity. }
    subst path. clear Hr.
    destruct x as [s|t|[|s|t|] a]; try discriminate.
    unfold orderField, orderTarget, orderLength.
    assert (Hn : List.length ((rev r ++ [OObj (MModel t) a]) ++ [OStr f; d])
                 = S (S (S (List.length (rev r)))))
      by (rewrite !length_app; simpl; lia).
    rewrite Hn. cbn [Nat.leb Nat.sub orderAt].
    assert (Hx : nth_error ((rev r ++ [OObj (MModel t) a]) ++ [OStr f; d])
                   (List.length (rev r))
                 = Some (OObj (MModel t) a)).
    { rewrite <- app_assoc. apply nth_error_here. }
    assert (Hf : nth_error ((rev r ++ [OObj (MModel t) a]) ++ [OStr f; d])
                   (S (List.length (rev r)))
                 = Some (OStr f)).
    { replace (S (List.length (rev r)))
        with (List.length (rev r ++ [OObj (MModel t) a]))
        by (rewrite length_app; simpl; lia).
      apply nth_error_here. }
    rewrite Hx, Hf. cbn [modelProperty propertyKey itemToString].
    rewrite H. reflexivity.
Qed.

Lemma orderDependencies_edges ms :
  structuredOrders ms ->
  exists edges,
    orderDependencies ms = Return edges
    /\ forall a b, In (a, b) edges <-> orderReference ms a b.
Proof.
  intro Hs. unfold orderDependencies.
  match goal with
  | |- context [mapM ?g ?l] =>
      set (collect := g);
      destruct (@mapM_exists _ _ g l) as (ess & Hess)
  end.
  - intros [[[mn fn] m] v] Hin.
    destruct (forder v) as [orders|] eqn:Ho; [|now exists []].
    match goal with
    | |- context [mapM ?g ?l] =>
        destruct (@mapM_exists _ _ g l) as (es & Hes)
    end.
    + intros o Hino.
      destruct (Hs mn fn m v orders o Hin Ho Hino)
        as (path & f & d & target & -> & Ht & Hf).
      rewrite (@orderField_structured ms m path f d target Ht).
      destruct (fieldAt target f) as [[|fv]|]; [| |now destruct Hf];
        simpl; eauto.
    + rewrite Hes. simpl. eauto.
  - fold collect in Hess. rewrite Hess. simpl. exists (List.concat ess).
    split; [reflexivity|]. intros a b.
    rewrite (mapM_concat_In _ _ Hess (a, b)). unfold orderReference. split.
    + intros ([[[mn fn] m] v] & es & Hin & Hf & He). unfold collect in Hf.
      destruct (forder v) as [orders|] eqn:Ho;
        [|injection Hf as <-; destruct He].
      match type of Hf with
      | bind (mapM ?g ?l) _ = _ => destruct (mapM g l) as [eos| |] eqn:Hm
      end; try discriminate.
      simpl in Hf. injection Hf as <-.
      apply (mapM_concat_In _ _ Hm) in He.
      destruct He as (o & eo & Hino & Hgo & He).
      destruct (Hs mn fn m v orders o Hin Ho Hino)
        as (path & f & d & target & -> & Ht & Hfa).
      rewrite (@orderField_structured ms m path f d target Ht) in Hgo.
      destruct (fieldAt target f) as [[|fv]|] eqn:Hfld;
        [| |now destruct Hfa]; simpl in Hgo; injection Hgo as <-;
        [destruct He|].
      destruct He as [[= <- <-]|[]].
      exists m, v, orders, path, f, d, target. simpl.
      repeat split; auto.
      rewrite isVirtual_fieldAt. now rewrite Hfld.
    + intros (m & v & orders & path & f & d & target
              & Hin & Ho & Hino & Ht & Hv & ->).
      destruct a as [mn fn]. simpl in Hin.
      pose proof (mapM_Return _ _ Hess) as Hall.
      assert (Hex : exists es, collect (mn, fn, m, v) = Return es).
      { clear - Hall Hin.
        induction Hall as [|x y l l' Hxy _ IHa]; [destruct Hin|].
        destruct Hin as [->|Hin]; [now exists y | now apply IHa]. }
      destruct Hex as (es & Hes). exists (mn, fn, m, v), es.
      split; [exact Hin|]. split; [exact Hes|].
      unfold collect in Hes. rewrite Ho in Hes.
      match type of Hes with
      | bind (mapM ?g ?l) _ = _ => destruct (mapM g l) as [eos| |] eqn:Hm
      end; try discriminate.
      simpl in Hes. injection Hes as <-.
      apply (mapM_concat_In _ _ Hm).
      exists (OArr (path ++ [OStr f; d])), [((mn, fn), (name target, f))].
      split; [exact Hino|]. split; [|now left].
      rewrite (@orderField_structured ms m path f d target Ht).
      rewrite isVirtual_fieldAt in Hv.
      destruct (fieldAt target f) as [[|fv]|]; try discriminate.
      reflexivity.
Qed.

Lemma cyclic_edges (R : node -> node -> Prop) edges :
  (forall a b, In (a, b) edges <-> R a b) ->
  forall n, onCycle edges n <-> cyclic R n.
Proof.
  intro H.
  assert (Hall : forall a b,
             clos_trans node (references edges) a b <-> clos_trans node R a b).
  { intros a b. split; intro Hc.
    - induction Hc as [x y Hxy|x y z _ IH1 _ IH2].
      + apply t_step. now apply H.
      + now apply t_trans with y.
    - induction Hc as [x y Hxy|x y z _ IH1 _ IH2].
      + apply t_step. now apply H.
      + now apply t_trans with y. }
  intro n. apply Hall.
Qed.

(** C3, amended.  Once the fields are parsed, initVirtualFields fails
    with the circular dependency error of inheritInclude exactly when the
    graph of attribute references between virtual fields, those of nested
    includes included, has a cycle.  When inheritInclude has returned and
    every order entry is a structured clause whose field name is found on
    its model, initVirtualFields fails with the circular dependency error
    of inheritOrder exactly when the graph of order references has a
    cycle.  Either error names a model and a field that lie on a cycle of
    that graph.  The two graphs are checked apart: a cycle that needs
    references of both kinds is not reported. *)
Theorem initVirtualFields_circular_dependency :
  forall fuel ms parsed,
    parseModels ms = inl parsed ->
    ((exists n, cyclic (attributeReference parsed) n) <->
     (exists mn fn,
         initVirtualFields fuel ms
         = InheritFailed (CircularDependency mn fn) parsed))
    /\ (forall mn fn st,
           initVirtualFields fuel ms
           = InheritFailed (CircularDependency mn fn) st ->
           cyclic (attributeReference parsed) (mn, fn))
    /\ (forall included,
           inheritInclude fuel parsed = Done included ->
           structuredOrders included ->
           ((exists n, cyclic (orderReference included) n) <->
            (exists mn fn,
                initVirtualFields fuel ms
                = InheritFailed (CircularOrderDependency mn fn) included))
           /\ (forall mn fn st,
                  initVirtualFields fuel ms
                  = InheritFailed (CircularOrderDependency mn fn) st ->
                  cyclic (orderReference included) (mn, fn))).
Proof.
  intros fuel ms parsed Hp.
  destruct (@initVirtualFields_cycle_of_edges fuel ms parsed Hp)
    as [Hattr Horder].
  destruct (@includeDependencies_parsed ms parsed Hp) as (edges & He).
  destruct (Hattr edges He) as [H1 H2].
  pose proof (@cyclic_edges (attributeReference parsed) edges
                (@includeDependencies_edges parsed edges He)) as Hc.
  split; [|split].
  - rewrite <- H1. split; intros (n & Hn); exists n; now apply Hc.
  - intros mn fn st H. apply Hc. now apply (H2 mn fn st).
  - intros included Hi Hs.
    destruct (orderDependencies_edges Hs) as (oedges & Ho & Hiff).
    destruct (Horder included oedges Hi Ho) as [H3 H4].
    pose proof (@cyclic_edges (orderReference included) oedges Hiff) as Hoc.
    split.
    + rewrite <- H3. split; intros (n & Hn); exists n; now apply Hoc.
    + intros mn fn st H. apply Hoc. now apply (H4 mn fn st).
Qed.

Lemma initVirtualFields_circular_dependency_witness :
  (exists mn fn,
      initVirtualFields 5 nestedCycleSchema
      = InheritFailed (CircularDependency mn fn) nestedCycleParsed)
  /\ (exists mn fn,
         initVirtualFields 5 orderCycleSchema
         = InheritFailed (CircularOrderDependency mn fn) orderCycleParsed).
Proof.
  split.
  - apply (proj1 (@initVirtualFields_circular_dependency 5 nestedCycleSchema
                    nestedCycleParsed eq_refl)).
    exists ("Task", "A"). apply t_trans with ("Person", "B"); apply t_step.
    + exists (Model "Task"
                [("name", Base);
                 ("A", Virtual (VField (Some [])
                                  (Some [Include "Person" None (Some ["B"])
                                           None])
                                  None))]
                [("Person", None)]),
        (VField (Some []) (Some [Include "Person" None (Some ["B"]) None])
                None).
      split; [simpl; auto|].
      apply reads_include
        with (l := [Include "Person" None (Some ["B"]) None])
             (i := Include "Person" None (Some ["B"]) None)
             (im := Model "Person"
                      [("name", Base);
                       ("B", Virtual
                               (VField (Some [])
                                  (Some [Include "Task" None (Some ["A"])
                                           None])
                                  None))]
                      [("Task", None)]);
        [reflexivity | now left | reflexivity |].
      apply (@reads_attribute nestedCycleParsed
               (Model "Person"
                  [("name", Base);
                   ("B", Virtual
                           (VField (Some [])
                              (Some [Include "Task" None (Some ["A"]) None])
                              None))]
                  [("Task", None)])
               (Some ["B"]) None ["B"] "B");
        [reflexivity | now left | reflexivity].
    + exists (Model "Person"
                [("name", Base);
                 ("B", Virtual (VField (Some [])
                                  (Some [Include "Task" None (Some ["A"])
                                           None])
                                  None))]
                [("Task", None)]),
        (VField (Some []) (Some [Include "Task" None (Some ["A"]) None])
                None).
      split; [simpl; auto|].
      apply reads_include
        with (l := [Include "Task" None (Some ["A"]) None])
             (i := Include "Task" None (Some ["A"]) None)
             (im := Model "Task"
                      [("name", Base);
                       ("A", Virtual
                               (VField (Some [])
                                  (Some [Include "Person" None (Some ["B"])
                                           None])
                                  None))]
                      [("Person", None)]);
        [reflexivity | now left | reflexivity |].
      apply (@reads_attribute nestedCycleParsed
               (Model "Task"
                  [("name", Base);
                   ("A", Virtual
                           (VField (Some [])
                              (Some [Include "Person" None (Some ["B"])
                                       None])
                              None))]
                  [("Person", None)])
               (Some ["A"]) None ["A"] "A");
        [reflexivity | now left | reflexivity].
  - destruct (@initVirtualFields_circular_dependency 5 orderCycleSchema
                orderCycleParsed eq_refl) as (_ & _ & H).
    assert (Hs : structuredOrders orderCycleParsed).
    { intros mn fn m v orders o Hin Ho Hino. simpl in Hin.
      destruct Hin as [Hin|[Hin|[]]]; injection Hin as <- <- <- <-;
        injection Ho as <-; destruct Hino as [<-|[]].
      - exists [], "Q", (OStr "ASC"),
          (Model "Task"
             [("P", Virtual (VField (Some []) None
                               (Some [OArr [OStr "Q"; OStr "ASC"]])));
              ("Q", Virtual (VField (Some []) None
                               (Some [OArr [OStr "P"; OStr "DESC"]])))]
             []).
        repeat split; discriminate.
      - exists [], "P", (OStr "DESC"),
          (Model "Task"
             [("P", Virtual (VField (Some []) None
                               (Some [OArr [OStr "Q"; OStr "ASC"]])));
              ("Q", Virtual (VField (Some []) None
                               (Some [OArr [OStr "P"; OStr "DESC"]])))]
             []).
        repeat split; discriminate. }
    apply (proj1 (proj1 (H orderCycleParsed eq_refl Hs))).
    exists ("Task", "P"). apply t_trans with ("Task", "Q"); apply t_step.
    + exists (Model "Task"
                  [("P", Virtual (VField (Some []) None
                                    (Some [OArr [OStr "Q"; OStr "ASC"]])));
                   ("Q", Virtual (VField (Some []) None
                                    (Some [OArr [OStr "P"; OStr "DESC"]])))]
                  []),
          (VField (Some []) None (Some [OArr [OStr "Q"; OStr "ASC"]])),
          [OArr [OStr "Q"; OStr "ASC"]], [], "Q", (OStr "ASC"),
          (Model "Task"
             [("P", Virtual (VField (Some []) None
                               (Some [OArr [OStr "Q"; OStr "ASC"]])));
              ("Q", Virtual (VField (Some []) None
                               (Some [OArr [OStr "P"; OStr "DESC"]])))]
             []).
        simpl. repeat split; auto.
    + exists (Model "Task"
                  [("P", Virtual (VField (Some []) None
                                    (Some [OArr [OStr "Q"; OStr "ASC"]])));
                   ("Q", Virtual (VField (Some []) None
                                    (Some [OArr [OStr "P"; OStr "DESC"]])))]
                  []),
          (VField (Some []) None (Some [OArr [OStr "P"; OStr "DESC"]])),
          [OArr [OStr "P"; OStr "DESC"]], [], "P", (OStr "DESC"),
          (Model "Task"
             [("P", Virtual (VField (Some []) None
                               (Some [OArr [OStr "Q"; OStr "ASC"]])));
              ("Q", Virtual (VField (Some []) None
                               (Some [OArr [OStr "P"; OStr "DESC"]])))]
             []).
        simpl. repeat split; auto.
Defined.
